(** * A shallow embedding of the ECPB backup engine

    The development follows the C++ sources: [types.h], the dependency graph
    of [dag.h], the SQLite metadata store ([Database], [Transaction]), the
    content-addressed [ChunkStore], the [RestoreEngine] and the
    [JobScheduler].  Stateful code is written with explicit state passing
    over a [World] record that gathers what the C++ objects share: the
    database tables, the file system and the sources of nondeterminism
    (SQLite failures, the system clock, the random generator).

    External libraries (OpenSSL's SHA-256 and AES-256-CBC, LZ4, ZSTD) are not
    part of the repository; they enter through the [Primitives] class.

    Modelling conventions.
    - [std::string] is [string]; byte buffers are [list byte].
    - [uint32_t] and [uint64_t] arithmetic is written with an explicit
      wrap-around ([wrap32], [wrap64]); [int] counters of the scheduler and
      of SQLite are unbounded [Z] (signed overflow is undefined behaviour in
      C++ and needs more than 2^31 operations).  A [uint32_t] bound to an
      SQLite column through [static_cast<int>] is stored as the signed
      value ([to_int32]) where the column is sorted on; the other integer
      columns are written and read back through casts that cancel on the
      values of their C++ types and are kept as those values.
    - A [std::string] bound with [bind_text] is stored with all its
      characters; one read back through [column_text], a [const char*],
      ends at its first NUL ([c_str]).
    - [std::unordered_map] and [std::unordered_set] are [gmap] and [gset];
      where the C++ iterates over one, the embedding iterates over
      [elements] or [map_to_list], an arbitrary but fixed order.
    - The hand-written [HashMap] and [BPlusTree] indexes of the chunk store
      are used as key-value maps only and are modelled by [gmap].
    - [PriorityQueue] is embedded as the binary heap in a vector that it
      is; the scheduler, which only pushes to its queue, prunes it and asks
      for its size, keeps the sequence of the entries.
    - SQL statements become functions on [Tables].  A prepared statement
      whose text is a literal always prepares; a write statement, [BEGIN
      IMMEDIATE] and [COMMIT] consult the fault script of the world and fail
      without effect when it says so; [SELECT]s always succeed.
    - The file system is a map from paths to file contents.  A path is the
      name the system call receives and a file has one path: links and the
      components [.] and [..] are not represented, and neither are
      directories, so [mkdir_p] has no counterpart; opening a file fails
      exactly for the paths listed as unreadable or unwritable.  An open
      [std::ifstream] holds a position, not a copy of the file: each read
      sees the file as it is at that moment.
    - A loop whose number of turns is not bounded by its input ([store_file],
      the heap operations) takes a bound on its turns and answers [None]
      when the bound is reached. *)

From stdpp Require Import gmap strings list relations pretty sorting.
From Stdlib Require Import ZArith Lia Strings.Byte Ascii String.
Local Open Scope Z_scope.

#[global] Instance byte_eq_decision : EqDecision byte.
Proof.
  intros x y. destruct (Byte.eqb x y) eqn:E.
  - left. by apply byte_dec_bl.
  - right. intros ->. by rewrite (byte_dec_lb eq_refl) in E.
Defined.

(** ** types.h *)

Definition CHUNK_SIZE : N := 64 * 1024.
Definition MAX_FILE_SIZE : Z := 4 * 1024 * 1024 * 1024.
Definition SHA256_HEX_LEN : nat := 64.
Definition SHA256_BIN_LEN : nat := 32.
Definition AES_KEY_LEN : nat := 32.
Definition AES_IV_LEN : nat := 16.
Definition AES_BLOCK_SIZE : nat := 16.
Definition SQLITE_MAX_RETRIES : Z := 10.
Definition MAX_WORKER_PROCESSES : Z := 4.

(** [std::istream::read(buf, n)] on a stream holding [s]: the bytes it
    delivers ([gcount()] of them, at most [n]) and the bytes it leaves. *)
Fixpoint take_N {A : Type} (n : N) (s : list A) : list A :=
  match s with
  | [] => []
  | x :: s' => if (n =? 0)%N then [] else x :: take_N (N.pred n) s'
  end.

Fixpoint drop_N {A : Type} (n : N) (s : list A) : list A :=
  match s with
  | [] => []
  | x :: s' => if (n =? 0)%N then s else drop_N (N.pred n) s'
  end.

Definition wrap32 (z : Z) : Z := z mod 2 ^ 32.
Definition wrap64 (z : Z) : Z := z mod 2 ^ 64.

(** [static_cast<int>(v)] on a [uint32_t]: the same 32 bits read as a
    signed number. *)
Definition to_int32 (z : Z) : Z := (z + 2 ^ 31) mod 2 ^ 32 - 2 ^ 31.

Inductive JobStatus : Type := PENDING | RUNNING | COMPLETED | FAILED | CANCELLED.
Inductive JobPriority : Type := LOW | NORMAL | HIGH | URGENT.
Inductive CompressionType : Type := NONE | LZ4 | ZSTD.

#[global] Instance JobStatus_eq_dec : EqDecision JobStatus.
Proof. solve_decision. Defined.
#[global] Instance JobPriority_eq_dec : EqDecision JobPriority.
Proof. solve_decision. Defined.
#[global] Instance CompressionType_eq_dec : EqDecision CompressionType.
Proof. solve_decision. Defined.

Definition JobStatus_to_int (s : JobStatus) : Z :=
  match s with PENDING => 0 | RUNNING => 1 | COMPLETED => 2 | FAILED => 3 | CANCELLED => 4 end.
Definition JobPriority_to_int (p : JobPriority) : Z :=
  match p with LOW => 0 | NORMAL => 1 | HIGH => 2 | URGENT => 3 end.
Definition CompressionType_to_int (c : CompressionType) : Z :=
  match c with NONE => 0 | LZ4 => 1 | ZSTD => 2 end.

Definition job_status_str (s : JobStatus) : string :=
  match s with
  | PENDING => "PENDING" | RUNNING => "RUNNING" | COMPLETED => "COMPLETED"
  | FAILED => "FAILED" | CANCELLED => "CANCELLED"
  end.

(** [std::to_string] on an [int]. *)
Definition to_string (z : Z) : string := pretty z.

(** What a [const char*] shows of a [std::string]: the characters before
    the first NUL.  This is [s.c_str()] read as a C string, and the
    [std::string] built from a [const char*]. *)
Fixpoint c_str (s : string) : string :=
  match s with
  | EmptyString => EmptyString
  | String c rest =>
      if Ascii.eqb c Ascii.zero then EmptyString else String c (c_str rest)
  end.

(** [HashHex]: a buffer of exactly 64 characters, compared with [memcmp]. *)
Module HashHex.
(** The value-initialised buffer [char data[65] = {}]. *)
Definition zero : string := string_of_list_ascii (replicate SHA256_HEX_LEN zero).
(** [std::strncpy(h.data, s.c_str(), SHA256_HEX_LEN)] into a zeroed buffer:
    the copy stops at the first NUL of [s] and the rest stays zero. *)
Definition of_string (s : string) : string :=
  let cs := list_ascii_of_string (c_str s) in
  string_of_list_ascii
    (take SHA256_HEX_LEN cs ++ replicate (SHA256_HEX_LEN - List.length cs)%nat Ascii.zero).
End HashHex.

Module ChunkInfo.
Record t : Type := mk {
  hash : string;
  offset : Z;          (* uint64_t *)
  size : Z;            (* uint32_t *)
  chunk_index : Z;     (* uint32_t *)
  deduplicated : bool
}.
End ChunkInfo.

Module FileManifest.
Record t : Type := mk {
  file_path : string;
  file_name : string;
  file_size : Z;       (* uint64_t *)
  modified_time : Z;   (* uint64_t *)
  file_hash : string;
  chunks : list ChunkInfo.t
}.
Definition init : t :=
  {| file_path := EmptyString; file_name := EmptyString; file_size := 0; modified_time := 0;
     file_hash := HashHex.zero; chunks := [] |}.
End FileManifest.

Module BackupJob.
Record t : Type := mk {
  job_id : Z;
  source_path : string;
  backup_name : string;
  status : JobStatus;
  priority : JobPriority;
  compression : CompressionType;
  encrypt : bool;
  incremental : bool;
  parent_job_id : Z;
  created_at : Z;
  started_at : Z;
  completed_at : Z;
  total_bytes : Z;
  processed_bytes : Z;
  stored_bytes : Z;
  dedup_savings : Z;
  file_count : Z;
  error_message : string;
  dependencies : list Z
}.
Definition init : t :=
  {| job_id := -1; source_path := EmptyString; backup_name := EmptyString; status := PENDING;
     priority := NORMAL; compression := LZ4; encrypt := true;
     incremental := false; parent_job_id := -1; created_at := 0;
     started_at := 0; completed_at := 0; total_bytes := 0;
     processed_bytes := 0; stored_bytes := 0; dedup_savings := 0;
     file_count := 0; error_message := EmptyString; dependencies := [] |}.
Definition set_status (s : JobStatus) (j : t) : t :=
  mk (job_id j) (source_path j) (backup_name j) s (priority j) (compression j)
     (encrypt j) (incremental j) (parent_job_id j) (created_at j) (started_at j)
     (completed_at j) (total_bytes j) (processed_bytes j) (stored_bytes j)
     (dedup_savings j) (file_count j) (error_message j) (dependencies j).
Definition set_started_at (ts : Z) (j : t) : t :=
  mk (job_id j) (source_path j) (backup_name j) (status j) (priority j) (compression j)
     (encrypt j) (incremental j) (parent_job_id j) (created_at j) ts
     (completed_at j) (total_bytes j) (processed_bytes j) (stored_bytes j)
     (dedup_savings j) (file_count j) (error_message j) (dependencies j).
Definition set_completed_at (ts : Z) (j : t) : t :=
  mk (job_id j) (source_path j) (backup_name j) (status j) (priority j) (compression j)
     (encrypt j) (incremental j) (parent_job_id j) (created_at j) (started_at j)
     ts (total_bytes j) (processed_bytes j) (stored_bytes j)
     (dedup_savings j) (file_count j) (error_message j) (dependencies j).
Definition set_error_message (e : string) (j : t) : t :=
  mk (job_id j) (source_path j) (backup_name j) (status j) (priority j) (compression j)
     (encrypt j) (incremental j) (parent_job_id j) (created_at j) (started_at j)
     (completed_at j) (total_bytes j) (processed_bytes j) (stored_bytes j)
     (dedup_savings j) (file_count j) e (dependencies j).
End BackupJob.

(** ** dag.h: the dependency graph, instantiated at [T = int] *)

Module DAG.

Record t : Type := mk {
adj_ : gmap Z (gset Z);
in_degree_ : gmap Z Z
}.

Definition empty_graph : t := {| adj_ := ∅; in_degree_ := ∅ |}.

Definition add_node (node : Z) (g : t) : t :=
match adj_ g !! node with
| None => {| adj_ := <[node := ∅]> (adj_ g);
             in_degree_ := <[node := 0]> (in_degree_ g) |}
| Some _ => g
end.

Definition bump (d : Z) (k : Z) (deg : gmap Z Z) : gmap Z Z :=
<[k := default 0 (deg !! k) + d]> deg.

Fixpoint has_path_loop (fuel : nat) (adj : gmap Z (gset Z)) (to : Z)
  (visited : gset Z) (q : list Z) : option bool :=
match fuel with
| O => None
| S fuel' =>
  match q with
  | [] => Some false
  | cur :: q' =>
    if decide (cur = to) then Some true
    else if decide (cur ∈ visited) then has_path_loop fuel' adj to visited q'
    else
      let visited' := visited ∪ {[cur]} in
      match adj !! cur with
      | Some nexts => has_path_loop fuel' adj to visited' (q' ++ elements nexts)
      | None => has_path_loop fuel' adj to visited' q'
      end
  end
end.

Definition weight (adj : gmap Z (gset Z)) (visited : gset Z) : nat :=
sum_list ((λ kv : Z * gset Z,
    if decide (kv.1 ∈ visited) then O else S (size kv.2)) <$> map_to_list adj).

Definition has_path_fuel (adj : gmap Z (gset Z)) : nat :=
S (S (weight adj ∅)).

Definition has_path (g : t) (from to : Z) : bool :=
match has_path_loop (has_path_fuel (adj_ g)) (adj_ g) to ∅ [from] with
| Some b => b
| None => false
end.

Definition add_edge (from to : Z) (g : t) : bool * t :=
let g1 := add_node to (add_node from g) in
if decide (from = to) then (false, g1)
else if has_path g1 to from then (false, g1)
else (true, {| adj_ := <[from := default ∅ (adj_ g1 !! from) ∪ {[to]}]> (adj_ g1);
               in_degree_ := bump 1 to (in_degree_ g1) |}).

Definition remove_edge (from to : Z) (g : t) : bool * t :=
match adj_ g !! from with
| None => (false, g)
| Some dests =>
  if decide (to ∈ dests)
  then (true, {| adj_ := <[from := dests ∖ {[to]}]> (adj_ g);
                 in_degree_ := bump (-1) to (in_degree_ g) |})
  else (false, g)
end.

Definition remove_node (node : Z) (g : t) : t :=
let adj1 := (λ dests : gset Z, dests ∖ {[node]}) <$> adj_ g in
let deg1 :=
  match adj1 !! node with
  | Some dests => foldr (bump (-1)) (in_degree_ g) (elements dests)
  | None => in_degree_ g
  end in
{| adj_ := delete node adj1; in_degree_ := delete node deg1 |}.

Definition get_ready_nodes (g : t) : list Z :=
(filter (λ nd : Z * Z, nd.2 = 0) (map_to_list (in_degree_ g))).*1.

Definition get_dependencies (node : Z) (g : t) : list Z :=
(filter (λ sd : Z * gset Z, node ∈ sd.2) (map_to_list (adj_ g))).*1.

Definition get_dependents (node : Z) (g : t) : list Z :=
match adj_ g !! node with
| None => []
| Some dests => elements dests
end.

Definition has_node (node : Z) (g : t) : bool := bool_decide (is_Some (adj_ g !! node)).
Definition node_count (g : t) : nat := size (adj_ g).

Definition edge (g : t) (a b : Z) : Prop :=
∃ dests, adj_ g !! a = Some dests ∧ b ∈ dests.

Definition acyclic (g : t) : Prop := ∀ a, ¬ tc (edge g) a a.

Inductive op : Type :=
| AddNode (node : Z)
| AddEdge (from to : Z)
| RemoveEdge (from to : Z)
| RemoveNode (node : Z).

Definition apply_op (g : t) (o : op) : t :=
match o with
| AddNode n => add_node n g
| AddEdge f t => (add_edge f t g).2
| RemoveEdge f t => (remove_edge f t g).2
| RemoveNode n => remove_node n g
end.

Definition run (ops : list op) : t := foldl apply_op empty_graph ops.

End DAG.

(** ** The world shared by the C++ objects *)

Module ChunkMeta.
Record t : Type := mk {
  hash : string;
  storage_path : string;
  original_size : Z;
  stored_size : Z;
  compression : Z;
  encrypted : bool;
  ref_count : Z
}.
Definition incr_ref (c : t) : t :=
  mk (hash c) (storage_path c) (original_size c) (stored_size c)
     (compression c) (encrypted c) (ref_count c + 1).
End ChunkMeta.

(** A row of [file_manifests]. *)
Module ManifestRow.
Record t : Type := mk {
  manifest_id : Z;
  job_id : Z;
  file_path : string;
  file_name : string;
  file_size : Z;
  modified_time : Z;
  file_hash : string
}.
End ManifestRow.

(** A row of [file_chunks]. *)
Module FileChunkRow.
Record t : Type := mk {
  id : Z;
  manifest_id : Z;
  chunk_hash : string;
  chunk_index : Z;     (* the [int] that was bound *)
  offset : Z;
  size : Z;
  deduplicated : bool
}.
End FileChunkRow.

(** The tables created by [Database::create_tables] that the backup engine
    uses.  The [*_seq] fields are the AUTOINCREMENT counters. *)
Record Tables : Type := mkTables {
  jobs : gmap Z BackupJob.t;
  jobs_seq : Z;
  chunks : gmap string ChunkMeta.t;
  file_manifests : list ManifestRow.t;
  file_manifests_seq : Z;
  file_chunks : list FileChunkRow.t;
  file_chunks_seq : Z;
  encryption_keys : gmap Z string;
  job_dependencies : gset (Z * Z)
}.

Definition empty_tables : Tables :=
  {| jobs := ∅; jobs_seq := 0; chunks := ∅; file_manifests := [];
     file_manifests_seq := 0; file_chunks := []; file_chunks_seq := 0;
     encryption_keys := ∅; job_dependencies := ∅ |}.

Definition set_jobs (f : gmap Z BackupJob.t → gmap Z BackupJob.t) (t : Tables) : Tables :=
  mkTables (f (jobs t)) (jobs_seq t) (chunks t) (file_manifests t) (file_manifests_seq t)
           (file_chunks t) (file_chunks_seq t) (encryption_keys t) (job_dependencies t).
Definition set_chunks (f : gmap string ChunkMeta.t → gmap string ChunkMeta.t) (t : Tables) : Tables :=
  mkTables (jobs t) (jobs_seq t) (f (chunks t)) (file_manifests t) (file_manifests_seq t)
           (file_chunks t) (file_chunks_seq t) (encryption_keys t) (job_dependencies t).
Definition set_encryption_keys (f : gmap Z string → gmap Z string) (t : Tables) : Tables :=
  mkTables (jobs t) (jobs_seq t) (chunks t) (file_manifests t) (file_manifests_seq t)
           (file_chunks t) (file_chunks_seq t) (f (encryption_keys t)) (job_dependencies t).
Definition set_job_dependencies (f : gset (Z * Z) → gset (Z * Z)) (t : Tables) : Tables :=
  mkTables (jobs t) (jobs_seq t) (chunks t) (file_manifests t) (file_manifests_seq t)
           (file_chunks t) (file_chunks_seq t) (encryption_keys t) (f (job_dependencies t)).

Record World : Type := mkWorld {
  tables : Tables;
  (** outcome of the next SQLite write steps, [true] meaning failure; an
      exhausted script means success *)
  sqlite_faults : list bool;
  (** successive readings of [now_epoch_ms] *)
  clock : list Z;
  (** the bytes [RAND_bytes] will deliver *)
  rand : list byte;
  files : gmap string (list byte);
  (** [st_mtime] as reported by [stat] *)
  mtimes : gmap string Z;
  unreadable : gset string;
  unwritable : gset string
}.

Definition empty_world : World :=
  {| tables := empty_tables; sqlite_faults := []; clock := []; rand := [];
     files := ∅; mtimes := ∅; unreadable := ∅; unwritable := ∅ |}.

Definition set_tables (t : Tables) (w : World) : World :=
  mkWorld t (sqlite_faults w) (clock w) (rand w) (files w) (mtimes w)
          (unreadable w) (unwritable w).
Definition set_sqlite_faults (l : list bool) (w : World) : World :=
  mkWorld (tables w) l (clock w) (rand w) (files w) (mtimes w)
          (unreadable w) (unwritable w).
Definition set_clock (l : list Z) (w : World) : World :=
  mkWorld (tables w) (sqlite_faults w) l (rand w) (files w) (mtimes w)
          (unreadable w) (unwritable w).
Definition set_rand (l : list byte) (w : World) : World :=
  mkWorld (tables w) (sqlite_faults w) (clock w) l (files w) (mtimes w)
          (unreadable w) (unwritable w).
Definition set_files (m : gmap string (list byte)) (w : World) : World :=
  mkWorld (tables w) (sqlite_faults w) (clock w) (rand w) m (mtimes w)
          (unreadable w) (unwritable w).

Definition now_epoch_ms (w : World) : Z * World :=
  match clock w with
  | [] => (0, w)
  | now :: later => (now, set_clock later w)
  end.

(** *** File system *)

Module FS.
Record Stat : Type := mkStat { st_size : Z; st_mtime : Z }.

(** [stat(path, &st) == 0] *)
Definition stat (path : string) (w : World) : option Stat :=
  match files w !! path with
  | Some content =>
      Some {| st_size := Z.of_nat (List.length content);
              st_mtime := default 0 (mtimes w !! path) |}
  | None => None
  end.

(** [std::ifstream in(path, std::ios::binary)] followed by a read of the
    whole stream; [None] when [is_open()] is false. *)
Definition read_file (path : string) (w : World) : option (list byte) :=
  if decide (path ∈ unreadable w) then None else files w !! path.

(** [std::ofstream out(path, std::ios::binary)]: truncates or creates the
    file; [None] when [is_open()] is false. *)
Definition open_trunc (path : string) (w : World) : option World :=
  if decide (path ∈ unwritable w) then None
  else Some (set_files (<[path := []]> (files w)) w).

(** [out.write(data, n)] on a stream opened on [path]. *)
Definition append (path : string) (data : list byte) (w : World) : World :=
  set_files (<[path := default [] (files w !! path) ++ data]> (files w)) w.
End FS.

(** ** database.h *)

(** The [Transaction] guard: [BEGIN IMMEDIATE] in the constructor,
    [ROLLBACK] in the destructor unless committed. *)
Module Transaction.
Record t : Type := mk {
  snapshot : Tables;
  committed_ : bool;
  active_ : bool
}.

Definition next_fault (w : World) : bool * World :=
  match sqlite_faults w with
  | [] => (false, w)
  | failed :: later => (failed, set_sqlite_faults later w)
  end.

(** [explicit Transaction(sqlite3* db)] *)
Definition begin (w : World) : t * World :=
  let '(failed, w) := next_fault w in
  ({| snapshot := tables w; committed_ := false; active_ := negb failed |}, w).

Definition is_active (txn : t) : bool := active_ txn && negb (committed_ txn).

Definition commit (txn : t) (w : World) : bool * t * World :=
  if negb (active_ txn) || committed_ txn then (false, txn, w)
  else
    let '(failed, w) := next_fault w in
    if failed then (false, txn, w)
    else (true, mk (snapshot txn) true (active_ txn), w).

(** [~Transaction()] *)
Definition drop (txn : t) (w : World) : World :=
  if active_ txn && negb (committed_ txn) then set_tables (snapshot txn) w else w.
End Transaction.

Module Database.

(** [stmt.step() == SQLITE_DONE] for a write statement whose effect on the
    tables is [effect]; [effect] answers [None] when a constraint rejects
    the statement. *)
Definition step_write (effect : Tables → option Tables) (w : World) : bool * World :=
  let '(failed, w) := Transaction.next_fault w in
  if failed then (false, w)
  else match effect (tables w) with
       | Some t => (true, set_tables t w)
       | None => (false, w)
       end.

Definition create_job (job : BackupJob.t) (w : World) : Z * World :=
  let '(now, w) := now_epoch_ms w in
  let rowid := jobs_seq (tables w) + 1 in
  let row :=
    BackupJob.mk rowid (BackupJob.source_path job) (BackupJob.backup_name job)
      (BackupJob.status job) (BackupJob.priority job) (BackupJob.compression job)
      (BackupJob.encrypt job) (BackupJob.incremental job) (BackupJob.parent_job_id job)
      now 0 0 0 0 0 0 0 EmptyString [] in
  let '(done, w) :=
    step_write (λ t, Some
      (mkTables (<[rowid := row]> (jobs t)) rowid (chunks t) (file_manifests t)
         (file_manifests_seq t) (file_chunks t) (file_chunks_seq t)
         (encryption_keys t) (job_dependencies t))) w in
  if done then (rowid, w) else (-1, w).

Definition update_job_status (job_id : Z) (status : JobStatus) (error : string)
    (w : World) : bool * World :=
  match status with
  | RUNNING =>
      let '(now, w) := now_epoch_ms w in
      step_write (λ t, Some (set_jobs
        (alter (λ j, BackupJob.set_started_at now (BackupJob.set_status status j)) job_id) t)) w
  | COMPLETED | FAILED =>
      let '(now, w) := now_epoch_ms w in
      step_write (λ t, Some (set_jobs
        (alter (λ j, BackupJob.set_error_message error
                       (BackupJob.set_completed_at now (BackupJob.set_status status j)))
               job_id) t)) w
  | _ =>
      step_write (λ t, Some (set_jobs (alter (BackupJob.set_status status) job_id) t)) w
  end.

(** [std::string v = stmt.column_text(col)]: SQLite holds the characters
    that were bound, and the [const char*] handed back ends at the first
    NUL among them. *)
Definition column_text (stored : string) : string := c_str stored.

(** [row_to_job]: the columns of a row of [jobs]; [dependencies] is no
    column and stays empty. *)
Definition row_to_job (r : BackupJob.t) : BackupJob.t :=
  BackupJob.mk (BackupJob.job_id r) (column_text (BackupJob.source_path r))
    (column_text (BackupJob.backup_name r)) (BackupJob.status r) (BackupJob.priority r)
    (BackupJob.compression r) (BackupJob.encrypt r) (BackupJob.incremental r)
    (BackupJob.parent_job_id r) (BackupJob.created_at r) (BackupJob.started_at r)
    (BackupJob.completed_at r) (BackupJob.total_bytes r) (BackupJob.processed_bytes r)
    (BackupJob.stored_bytes r) (BackupJob.dedup_savings r) (BackupJob.file_count r)
    (column_text (BackupJob.error_message r)) [].

Definition get_job (job_id : Z) (w : World) : option BackupJob.t :=
  row_to_job <$> jobs (tables w) !! job_id.

Definition increment_chunk_ref (hash_hex : string) (w : World) : bool * World :=
  step_write (λ t, Some (set_chunks (alter ChunkMeta.incr_ref hash_hex) t)) w.

(** [INSERT OR IGNORE INTO chunks ...], then the increment when
    [sqlite3_changes] reports that nothing was inserted. *)
Definition store_chunk (hash_hex storage_path : string)
    (original_size stored_size : Z) (compression : Z) (encrypted : bool)
    (ref_count : Z) (w : World) : bool * World :=
  let '(txn, w) := Transaction.begin w in
  if negb (Transaction.is_active txn) then (false, Transaction.drop txn w)
  else
    let existed := bool_decide (is_Some (chunks (tables w) !! hash_hex)) in
    let '(done, w) :=
      step_write (λ t,
        Some (if existed then t
              else set_chunks (<[hash_hex :=
                     ChunkMeta.mk hash_hex storage_path original_size stored_size
                                  compression encrypted ref_count]>) t)) w in
    if done then
      let '(ok, w) :=
        if existed then increment_chunk_ref hash_hex w else (true, w) in
      if negb ok then (false, Transaction.drop txn w)
      else
        let '(ok, txn, w) := Transaction.commit txn w in
        (ok, Transaction.drop txn w)
    else (false, Transaction.drop txn w).

Definition chunk_exists (hash_hex : string) (w : World) : bool :=
  bool_decide (is_Some (chunks (tables w) !! hash_hex)).

Definition get_chunk_path (hash_hex : string) (w : World) : string :=
  match chunks (tables w) !! hash_hex with
  | Some c => column_text (ChunkMeta.storage_path c)
  | None => EmptyString
  end.

Definition get_chunk_meta (hash_hex : string) (w : World) : option ChunkMeta.t :=
  (λ c, ChunkMeta.mk (column_text (ChunkMeta.hash c))
          (column_text (ChunkMeta.storage_path c)) (ChunkMeta.original_size c)
          (ChunkMeta.stored_size c) (ChunkMeta.compression c) (ChunkMeta.encrypted c)
          (ChunkMeta.ref_count c))
  <$> chunks (tables w) !! hash_hex.

Definition insert_manifest_row (job_id : Z) (manifest : FileManifest.t)
    (t : Tables) : option Tables :=
  (* FOREIGN KEY (job_id) REFERENCES jobs(job_id), with foreign_keys=ON *)
  match jobs t !! job_id with
  | None => None
  | Some _ =>
      let rowid := file_manifests_seq t + 1 in
      Some (mkTables (jobs t) (jobs_seq t) (chunks t)
              (file_manifests t ++
                 [ManifestRow.mk rowid job_id (FileManifest.file_path manifest)
                    (FileManifest.file_name manifest) (FileManifest.file_size manifest)
                    (FileManifest.modified_time manifest)
                    (FileManifest.file_hash manifest)])
              rowid (file_chunks t) (file_chunks_seq t)
              (encryption_keys t) (job_dependencies t))
  end.

Definition insert_chunk_row (manifest_id : Z) (chunk : ChunkInfo.t)
    (t : Tables) : option Tables :=
  (* FOREIGN KEY (manifest_id) REFERENCES file_manifests(manifest_id) *)
  if bool_decide (manifest_id ∈ ManifestRow.manifest_id <$> file_manifests t) then
    let rowid := file_chunks_seq t + 1 in
    Some (mkTables (jobs t) (jobs_seq t) (chunks t) (file_manifests t)
            (file_manifests_seq t)
            (file_chunks t ++
               [FileChunkRow.mk rowid manifest_id (ChunkInfo.hash chunk)
                  (to_int32 (ChunkInfo.chunk_index chunk)) (ChunkInfo.offset chunk)
                  (ChunkInfo.size chunk) (ChunkInfo.deduplicated chunk)])
            rowid (encryption_keys t) (job_dependencies t))
  else None.

(** The loop [for (auto& chunk : manifest.chunks)] of [store_file_manifest]. *)
Fixpoint insert_chunk_rows (manifest_id : Z) (chunks : list ChunkInfo.t)
    (w : World) : bool * World :=
  match chunks with
  | [] => (true, w)
  | chunk :: rest =>
      let '(done, w) := step_write (insert_chunk_row manifest_id chunk) w in
      if done then insert_chunk_rows manifest_id rest w else (false, w)
  end.

Definition store_file_manifest (job_id : Z) (manifest : FileManifest.t)
    (w : World) : bool * World :=
  let '(txn, w) := Transaction.begin w in
  if negb (Transaction.is_active txn) then (false, Transaction.drop txn w)
  else
    let '(done, w) := step_write (insert_manifest_row job_id manifest) w in
    if negb done then (false, Transaction.drop txn w)
    else
      let manifest_id := file_manifests_seq (tables w) in
      let '(ok, w) := insert_chunk_rows manifest_id (FileManifest.chunks manifest) w in
      if negb ok then (false, Transaction.drop txn w)
      else
        let '(ok, txn, w) := Transaction.commit txn w in
        (ok, Transaction.drop txn w).

(** The body of the inner loop of [get_file_manifests]; [chunk_index] is
    read with [static_cast<uint32_t>(column_int(1))]. *)
Definition row_to_chunk (r : FileChunkRow.t) : ChunkInfo.t :=
  ChunkInfo.mk (HashHex.of_string (column_text (FileChunkRow.chunk_hash r)))
    (FileChunkRow.offset r) (FileChunkRow.size r) (wrap32 (FileChunkRow.chunk_index r))
    (FileChunkRow.deduplicated r).

(** The order of the signed values the column holds. *)
Definition chunk_index_le (a b : FileChunkRow.t) : Prop :=
  FileChunkRow.chunk_index a ≤ FileChunkRow.chunk_index b.
#[global] Instance chunk_index_le_dec : RelDecision chunk_index_le.
Proof. intros a b. unfold chunk_index_le. apply _. Defined.

(** [SELECT ... FROM file_chunks WHERE manifest_id=? ORDER BY chunk_index] *)
Definition chunks_of_manifest (manifest_id : Z) (w : World) : list ChunkInfo.t :=
  row_to_chunk <$>
    merge_sort chunk_index_le
      (filter (λ r, FileChunkRow.manifest_id r = manifest_id) (file_chunks (tables w))).

Definition get_file_manifests (job_id : Z) (w : World) : list FileManifest.t :=
  (λ r, FileManifest.mk (column_text (ManifestRow.file_path r))
          (column_text (ManifestRow.file_name r))
          (ManifestRow.file_size r) (ManifestRow.modified_time r)
          (HashHex.of_string (column_text (ManifestRow.file_hash r)))
          (chunks_of_manifest (ManifestRow.manifest_id r) w))
  <$> filter (λ r, ManifestRow.job_id r = job_id) (file_manifests (tables w)).

Definition store_encryption_key (job_id : Z) (key_hex : string) (w : World) : bool * World :=
  step_write (λ t,
    match jobs t !! job_id with
    | None => None
    | Some _ => Some (set_encryption_keys (<[job_id := key_hex]>) t)
    end) w.

Definition get_encryption_key (job_id : Z) (w : World) : string :=
  match encryption_keys (tables w) !! job_id with
  | Some key_hex => column_text key_hex
  | None => EmptyString
  end.

Definition add_dependency (job_id depends_on : Z) (w : World) : bool * World :=
  step_write (λ t,
    match jobs t !! job_id, jobs t !! depends_on with
    | Some _, Some _ => Some (set_job_dependencies (λ s, s ∪ {[(job_id, depends_on)]}) t)
    | _, _ => None
    end) w.

Definition get_dependencies (job_id : Z) (w : World) : list Z :=
  (filter (λ p : Z * Z, p.1 = job_id) (elements (job_dependencies (tables w)))).*2.

End Database.

(** ** External libraries *)

(** What the repository calls in OpenSSL, LZ4 and ZSTD.  [None] stands for
    the error return of the library function. *)
Class Primitives : Type := {
  (** [EVP_DigestInit_ex(EVP_sha256) / Update / Final]: the 32-byte digest *)
  EVP_sha256 : list byte → list byte;
  EVP_sha256_length : ∀ data, List.length (EVP_sha256 data) = SHA256_BIN_LEN;
  (** [EVP_EncryptInit_ex(EVP_aes_256_cbc) / Update / Final] on key, IV, plaintext *)
  EVP_aes_256_cbc_encrypt : list byte → list byte → list byte → option (list byte);
  EVP_aes_256_cbc_decrypt : list byte → list byte → list byte → option (list byte);
  LZ4_compress_default : list byte → option (list byte);
  (** compressed input and capacity of the output buffer *)
  LZ4_decompress_safe : list byte → nat → option (list byte);
  ZSTD_compress : list byte → option (list byte);
  ZSTD_decompress : list byte → nat → option (list byte)
}.

(** ** sha256.h *)

Module SHA256.
Definition hex_digit (n : N) : ascii :=
  nth (N.to_nat n) (list_ascii_of_string "0123456789abcdef") "0"%char.

(** [snprintf(buf, 3, "%02x", b)] *)
Definition hex_of_byte (b : byte) : list ascii :=
  [hex_digit (Byte.to_N b / 16); hex_digit (Byte.to_N b mod 16)].

Definition to_hex (digest : list byte) : string :=
  string_of_list_ascii (digest ≫= hex_of_byte).

Section with_primitives.
Context `{Primitives}.

Definition hash (data : list byte) : list byte := EVP_sha256 data.

(** [HashDigest{}] when the file cannot be opened. *)
Definition hash_file (path : string) (w : World) : list byte :=
  match FS.read_file path w with
  | None => replicate SHA256_BIN_LEN x00
  | Some content => EVP_sha256 content
  end.

Definition hash_hex (data : list byte) : string := to_hex (hash data).
End with_primitives.
End SHA256.

(** ** aes256.h *)

Module AES256.
Section with_primitives.
Context `{Primitives}.

(** [RAND_bytes(iv.data(), AES_IV_LEN)]; the IV stays zero when the
    generator fails. *)
Definition generate_iv (w : World) : list byte * World :=
  if decide (AES_IV_LEN ≤ List.length (rand w))%nat
  then (take AES_IV_LEN (rand w), set_rand (drop AES_IV_LEN (rand w)) w)
  else (replicate AES_IV_LEN x00, w).

(** Returns the IV followed by the ciphertext, or the empty vector. *)
Definition encrypt (plaintext key : list byte) (w : World) : list byte * World :=
  let '(iv, w) := generate_iv w in
  match EVP_aes_256_cbc_encrypt key iv plaintext with
  | None => ([], w)
  | Some ciphertext => (iv ++ ciphertext, w)
  end.

Definition decrypt (data key : list byte) : list byte :=
  if decide (List.length data < AES_IV_LEN)%nat then []
  else
    let iv := take AES_IV_LEN data in
    let ciphertext := drop AES_IV_LEN data in
    match EVP_aes_256_cbc_decrypt key iv ciphertext with
    | None => []
    | Some plaintext => plaintext
    end.
End with_primitives.

Definition key_to_hex (key : list byte) : string := SHA256.to_hex key.

Definition hex_value (c : ascii) : option N :=
  let n := N_of_ascii c in
  if decide (48 ≤ n ≤ 57)%N then Some (n - 48)%N
  else if decide (97 ≤ n ≤ 102)%N then Some (n - 87)%N
  else if decide (65 ≤ n ≤ 70)%N then Some (n - 55)%N
  else None.

(** [sscanf(p, "%02x", &byte)] where [p] points to two hexadecimal digits,
    or to one followed by another character.  Elsewhere [sscanf] skips
    white space, takes a sign or converts nothing and leaves [byte]
    indeterminate; the function answers 0 there, and nothing below is
    stated about such keys. *)
Definition scan_byte (hi lo : ascii) : byte :=
  match hex_value hi, hex_value lo with
  | Some h, Some l => default x00 (Byte.of_N (16 * h + l))
  | Some h, None => default x00 (Byte.of_N h)
  | None, _ => x00
  end.

Fixpoint scan_bytes (n : nat) (cs : list ascii) : list byte :=
  match n, cs with
  | S n', hi :: lo :: rest => scan_byte hi lo :: scan_bytes n' rest
  | S n', _ => x00 :: scan_bytes n' []
  | O, _ => []
  end.

Definition key_from_hex (hex : string) : list byte :=
  if decide (String.length hex < AES_KEY_LEN * 2)%nat then replicate AES_KEY_LEN x00
  else scan_bytes AES_KEY_LEN (list_ascii_of_string hex).
End AES256.

(** ** compressor.h *)

Module Compressor.
Section with_primitives.
Context `{Primitives}.

Definition compress_lz4 (data : list byte) : list byte :=
  default [] (LZ4_compress_default data).
Definition decompress_lz4 (data : list byte) (original_size : nat) : list byte :=
  default [] (LZ4_decompress_safe data original_size).
Definition compress_zstd (data : list byte) : list byte :=
  default [] (ZSTD_compress data).
Definition decompress_zstd (data : list byte) (original_size : nat) : list byte :=
  default [] (ZSTD_decompress data original_size).

Definition compress (data : list byte) (type : CompressionType) : list byte :=
  match type with
  | NONE => data
  | LZ4 => compress_lz4 data
  | ZSTD => compress_zstd data
  end.

Definition decompress (data : list byte) (original_size : nat)
    (type : CompressionType) : list byte :=
  match type with
  | NONE => data
  | LZ4 => decompress_lz4 data original_size
  | ZSTD => decompress_zstd data original_size
  end.
End with_primitives.
End Compressor.

(** ** chunk_store.h *)

Module ChunkStore.

Record t : Type := mk {
  storage_dir_ : string;
  dedup_index_ : gmap string bool;
  chunk_index_ : gmap string string
}.

(** The constructor; the two [mkdir_p] calls have no counterpart. *)
Definition new (storage_dir : string) : t :=
  {| storage_dir_ := storage_dir; dedup_index_ := ∅; chunk_index_ := ∅ |}.

(** [hash_hex.substr(2, 2)] throws for a hash of fewer than two
    characters; [store_file] passes the 64 characters of a [HashHex]. *)
Definition get_chunk_path (cs : t) (hash_hex : string) : string :=
  storage_dir_ cs +:+ "/chunks/" +:+ substring 0 2 hash_hex +:+ "/" +:+
  substring 2 2 hash_hex +:+ "/" +:+ hash_hex.

(** [path.rfind('/')] *)
Fixpoint rfind_slash (path : string) : option nat :=
  match path with
  | EmptyString => None
  | String c rest =>
      match rfind_slash rest with
      | Some pos => Some (S pos)
      | None => if Ascii.eqb c "/" then Some O else None
      end
  end.

Definition basename_of (path : string) : string :=
  match rfind_slash path with
  | Some pos => substring (S pos) (String.length path - S pos) path
  | None => path
  end.

Definition dirname_of (path : string) : string :=
  match rfind_slash path with
  | Some pos => substring 0 pos path
  | None => "."
  end.

(** The local variables of [store_file] that its chunking loop updates. *)
Record Loop : Type := mkLoop {
  l_chunks : list ChunkInfo.t;     (* manifest.chunks *)
  l_chunk_idx : Z;                 (* uint32_t chunk_idx *)
  l_offset : Z;                    (* uint64_t offset *)
  l_store : t;
  l_world : World
}.

Definition loop_set_world (w : World) (st : Loop) : Loop :=
  mkLoop (l_chunks st) (l_chunk_idx st) (l_offset st) (l_store st) w.

Section with_primitives.
Context `{Primitives}.

(** One turn of the [while (file)] loop of [store_file], after a read
    that delivered the non-empty [chunk_data].  The two [continue]
    statements leave [manifest.chunks], [offset] and [chunk_idx] as they
    were. *)
Definition store_chunk_data (comp : CompressionType) (encrypt : bool)
    (aes_key : list byte) (chunk_data : list byte) (st : Loop) : Loop :=
  let cs := l_store st in
  let w := l_world st in
  let chunk_size := Z.of_nat (List.length chunk_data) in
  let chunk_hash := SHA256.to_hex (SHA256.hash chunk_data) in
  let ci deduplicated :=
    ChunkInfo.mk chunk_hash (l_offset st) (wrap32 chunk_size)
                 (l_chunk_idx st) deduplicated in
  let push (ci : ChunkInfo.t) (cs : t) (w : World) :=
    mkLoop (l_chunks st ++ [ci]) (wrap32 (l_chunk_idx st + 1))
           (wrap64 (l_offset st + chunk_size)) cs w in
  if Database.chunk_exists chunk_hash w then push (ci true) cs w
  else
    let processed := chunk_data in
    let processed :=
      if decide (comp ≠ NONE) then
        let compressed := Compressor.compress processed comp in
        match compressed with
        | [] => chunk_data
        | _ => compressed
        end
      else processed in
    let '(processed, w) :=
      if encrypt then AES256.encrypt processed aes_key w else (processed, w) in
    match encrypt, processed with
    | true, [] => loop_set_world w st
    | _, _ =>
        let chunk_path := get_chunk_path cs chunk_hash in
        match FS.open_trunc chunk_path w with
        | None => loop_set_world w st
        | Some w =>
            let w := FS.append chunk_path processed w in
            let '(_, w) :=
              Database.store_chunk chunk_hash chunk_path (wrap32 chunk_size)
                (wrap32 (Z.of_nat (List.length processed)))
                (CompressionType_to_int comp) encrypt 1 w in
            let cs := mk (storage_dir_ cs)
                         (<[chunk_hash := true]> (dedup_index_ cs))
                         (<[chunk_hash := chunk_path]> (chunk_index_ cs)) in
            push (ci false) cs w
        end
    end.

(** [file.read(buffer, CHUNK_SIZE)] on the stream [file], open on
    [file_path], after it has delivered [pos] bytes: up to [CHUNK_SIZE]
    bytes of the file as it is now, from that position on.  The chunk
    files the loop writes in between are part of the same file system,
    so a source file that is one of them is read as rewritten. *)
Definition stream_read (file_path : string) (pos : N) (w : World) : list byte :=
  take_N CHUNK_SIZE (drop_N pos (default [] (files w !! file_path))).

(** The [while (file)] loop.  [good] is the state of the stream: a read
    that delivers fewer than [CHUNK_SIZE] bytes sets [eofbit] and
    [failbit].  [fuel] bounds the number of turns; [None] only when it
    runs out. *)
Fixpoint store_loop (fuel : nat) (comp : CompressionType) (encrypt : bool)
    (aes_key : list byte) (file_path : string) (pos : N) (good : bool) (st : Loop)
    : option Loop :=
  match fuel with
  | O => None
  | S fuel' =>
      if negb good then Some st
      else
        let chunk_data := stream_read file_path pos (l_world st) in
        let bytes_read := N.of_nat (List.length chunk_data) in
        let good' := bool_decide (bytes_read = CHUNK_SIZE) in
        if decide (bytes_read = 0%N) then Some st
        else store_loop fuel' comp encrypt aes_key file_path (pos + bytes_read) good'
               (store_chunk_data comp encrypt aes_key chunk_data st)
  end.

(** [store_file], with [fuel] turns for its loop; [None] only when the
    loop has not ended within them. *)
Definition store_file (fuel : nat) (cs : t) (file_path : string)
    (comp : CompressionType) (encrypt : bool) (aes_key : list byte) (job_id : Z)
    (relative_path : string) (w : World) : option (FileManifest.t * t * World) :=
  let path := if decide (relative_path = EmptyString) then file_path else relative_path in
  let name := basename_of file_path in
  match FS.stat file_path w with
  | None =>
      Some (FileManifest.mk path name 0 0 HashHex.zero [], cs, w)
  | Some st =>
      let file_size := wrap64 (FS.st_size st) in
      let modified_time := wrap64 (FS.st_mtime st) in
      let file_hash := SHA256.to_hex (SHA256.hash_file file_path w) in
      match FS.read_file file_path w with
      | None =>
          Some (FileManifest.mk path name file_size modified_time file_hash [], cs, w)
      | Some _ =>
          match store_loop fuel comp encrypt aes_key file_path 0 true
                  (mkLoop [] 0 0 cs w) with
          | None => None
          | Some st =>
              let manifest :=
                FileManifest.mk path name file_size modified_time file_hash
                                (l_chunks st) in
              let '(_, w) := Database.store_file_manifest job_id manifest (l_world st) in
              Some (manifest, l_store st, w)
          end
      end
  end.

(** The body of the loop of [restore_file] up to the integrity check:
    the decoded bytes of one chunk, or [None] where the C++ returns
    [false]. *)
Definition restore_chunk (cs : t) (comp : CompressionType) (encrypted : bool)
    (aes_key : list byte) (chunk : ChunkInfo.t) (w : World) : option (list byte) :=
  let chunk_path :=
    match chunk_index_ cs !! ChunkInfo.hash chunk with
    | Some cached => cached
    | None => Database.get_chunk_path (ChunkInfo.hash chunk) w
    end in
  if decide (chunk_path = EmptyString) then None
  else
    match FS.read_file chunk_path w with
    | None => None
    | Some data =>
        let decrypted := if encrypted then AES256.decrypt data aes_key else data in
        match encrypted, decrypted with
        | true, [] => None
        | _, _ =>
            let decompressed :=
              if decide (comp ≠ NONE)
              then Compressor.decompress decrypted (Z.to_nat (ChunkInfo.size chunk)) comp
              else decrypted in
            if decide (comp ≠ NONE ∧ decompressed = []) then None
            else
              let computed_hash := SHA256.to_hex (SHA256.hash decompressed) in
              if decide (computed_hash ≠ ChunkInfo.hash chunk) then None
              else Some decompressed
        end
    end.

(** [for (auto& chunk : manifest.chunks)] with its early returns. *)
Fixpoint restore_chunks (cs : t) (comp : CompressionType) (encrypted : bool)
    (aes_key : list byte) (dest_path : string) (chunks : list ChunkInfo.t)
    (w : World) : bool * World :=
  match chunks with
  | [] => (true, w)
  | chunk :: rest =>
      match restore_chunk cs comp encrypted aes_key chunk w with
      | None => (false, w)
      | Some data =>
          restore_chunks cs comp encrypted aes_key dest_path rest
                         (FS.append dest_path data w)
      end
  end.

Definition restore_file (cs : t) (manifest : FileManifest.t) (dest_path : string)
    (comp : CompressionType) (encrypted : bool) (aes_key : list byte)
    (w : World) : bool * World :=
  match FS.open_trunc dest_path w with
  | None => (false, w)
  | Some w =>
      let '(ok, w) :=
        restore_chunks cs comp encrypted aes_key dest_path
                       (FileManifest.chunks manifest) w in
      if negb ok then (false, w)
      else
        let restored_hash := SHA256.to_hex (SHA256.hash_file dest_path w) in
        if decide (restored_hash ≠ FileManifest.file_hash manifest) then (false, w)
        else (true, w)
  end.

End with_primitives.

Definition dedup_index_size (cs : t) : nat := size (dedup_index_ cs).
Definition chunk_index_size (cs : t) : nat := size (chunk_index_ cs).
End ChunkStore.

(** ** restore_engine.h *)

Module RestoreEngine.

Record RestoreResult : Type := mkResult {
  success : bool;
  files_restored : Z;
  bytes_restored : Z;            (* uint64_t *)
  error : string;
  restored_files : list string
}.

Definition init_result : RestoreResult :=
  {| success := false; files_restored := 0; bytes_restored := 0; error := EmptyString;
     restored_files := [] |}.

Definition set_error (e : string) (r : RestoreResult) : RestoreResult :=
  mkResult (success r) (files_restored r) (bytes_restored r) e (restored_files r).
Definition set_success (b : bool) (r : RestoreResult) : RestoreResult :=
  mkResult b (files_restored r) (bytes_restored r) (error r) (restored_files r).

Section with_primitives.
Context `{Primitives}.

(** [for (auto& manifest : manifests)] of [restore_job]. *)
Fixpoint restore_manifests (store : ChunkStore.t) (job : BackupJob.t)
    (aes_key : list byte) (dest_path : string) (manifests : list FileManifest.t)
    (result : RestoreResult) (w : World) : RestoreResult * World :=
  match manifests with
  | [] => (result, w)
  | manifest :: rest =>
      let target := dest_path +:+ "/" +:+ FileManifest.file_path manifest in
      let '(ok, w) :=
        ChunkStore.restore_file store manifest target (BackupJob.compression job)
                                (BackupJob.encrypt job) aes_key w in
      let result :=
        if negb ok then
          set_error ("Failed to restore: " +:+ FileManifest.file_name manifest) result
        else
          mkResult (success result) (files_restored result + 1)
                   (wrap64 (bytes_restored result + FileManifest.file_size manifest))
                   (error result) (restored_files result ++ [target]) in
      restore_manifests store job aes_key dest_path rest result w
  end.

Definition restore_job (store : ChunkStore.t) (job_id : Z) (dest_path : string)
    (w : World) : RestoreResult * World :=
  let result := init_result in
  match Database.get_job job_id w with
  | None => (set_error ("Job not found: " +:+ to_string job_id) result, w)
  | Some job =>
      if decide (BackupJob.status job ≠ COMPLETED) then
        (set_error ("Job " +:+ to_string job_id +:+ " is not completed (status: " +:+
                    job_status_str (BackupJob.status job) +:+ ")") result, w)
      else
        let key_hex := Database.get_encryption_key job_id w in
        if BackupJob.encrypt job && bool_decide (key_hex = EmptyString) then
          (set_error ("Encryption key not found for job " +:+ to_string job_id) result, w)
        else
          let aes_key :=
            if BackupJob.encrypt job then AES256.key_from_hex key_hex
            else replicate AES_KEY_LEN x00 in
          let manifests := Database.get_file_manifests job_id w in
          match manifests with
          | [] =>
              (set_success true
                 (set_error ("No files found in backup job " +:+ to_string job_id) result), w)
          | _ =>
              let '(result, w) :=
                restore_manifests store job aes_key dest_path manifests result w in
              (set_success (bool_decide (0 < files_restored result)) result, w)
          end
  end.

Fixpoint verify_chunks (chunks : list ChunkInfo.t) (w : World) : bool :=
  match chunks with
  | [] => true
  | chunk :: rest =>
      match Database.get_chunk_meta (ChunkInfo.hash chunk) w with
      | None => false
      | Some meta =>
          match FS.stat (ChunkMeta.storage_path meta) w with
          | None => false
          | Some _ => verify_chunks rest w
          end
      end
  end.

Fixpoint verify_manifests (manifests : list FileManifest.t) (w : World) : bool :=
  match manifests with
  | [] => true
  | manifest :: rest =>
      if verify_chunks (FileManifest.chunks manifest) w
      then verify_manifests rest w else false
  end.

Definition verify_backup (job_id : Z) (w : World) : bool :=
  match Database.get_job job_id w with
  | None => false
  | Some job =>
      if decide (BackupJob.status job ≠ COMPLETED) then false
      else verify_manifests (Database.get_file_manifests job_id w) w
  end.
End with_primitives.
End RestoreEngine.

(** ** job_scheduler.h *)

Module JobScheduler.

Record JobEntry : Type := mkEntry {
  e_job_id : Z;
  e_priority : JobPriority;
  e_created_at : Z
}.

(** [pq_] is only pushed to, pruned by [remove_if] and asked for its size;
    the order inside the heap is never observed, so the heap is kept as
    the sequence of its entries. *)
Record t : Type := mk {
  pq_ : list JobEntry;
  dep_graph_ : DAG.t;
  in_progress_ : gset Z
}.

Definition new : t := {| pq_ := []; dep_graph_ := DAG.empty_graph; in_progress_ := ∅ |}.

(** [PriorityQueue::remove_if]: drops the first entry satisfying [pred]. *)
Fixpoint remove_if (pred : JobEntry → bool) (heap : list JobEntry) : list JobEntry :=
  match heap with
  | [] => []
  | e :: rest => if pred e then rest else e :: remove_if pred rest
  end.

Definition add_dependency_internal (job_id depends_on : Z) (s : t) (w : World)
    : bool * t * World :=
  let '(added, g) := DAG.add_edge depends_on job_id (dep_graph_ s) in
  let s := mk (pq_ s) g (in_progress_ s) in
  if negb added then (false, s, w)
  else
    let '(_, w) := Database.add_dependency job_id depends_on w in
    (true, s, w).

Fixpoint add_dependencies (job_id : Z) (deps : list Z) (s : t) (w : World) : t * World :=
  match deps with
  | [] => (s, w)
  | dep :: rest =>
      let '(_, s, w) := add_dependency_internal job_id dep s w in
      add_dependencies job_id rest s w
  end.

Definition submit_job (job : BackupJob.t) (s : t) (w : World) : Z * t * World :=
  let '(job_id, w) := Database.create_job job w in
  if decide (job_id < 0) then (-1, s, w)
  else
    let '(now, w) := now_epoch_ms w in
    let entry := mkEntry job_id (BackupJob.priority job) now in
    let s := mk (pq_ s ++ [entry]) (DAG.add_node job_id (dep_graph_ s)) (in_progress_ s) in
    let '(s, w) := add_dependencies job_id (BackupJob.dependencies job) s w in
    (job_id, s, w).

Definition add_dependency (job_id depends_on : Z) (s : t) (w : World) : bool * t * World :=
  add_dependency_internal job_id depends_on s w.

Definition mark_completed (job_id : Z) (s : t) : t :=
  mk (remove_if (λ e, bool_decide (e_job_id e = job_id)) (pq_ s))
     (DAG.remove_node job_id (dep_graph_ s))
     (in_progress_ s ∖ {[job_id]}).

(** [for (int dep : dependents)] of [mark_failed]. *)
Fixpoint cancel_dependents (job_id : Z) (dependents : list Z) (w : World) : World :=
  match dependents with
  | [] => w
  | dep :: rest =>
      let '(_, w) :=
        Database.update_job_status dep CANCELLED
          ("Dependency job " +:+ to_string job_id +:+ " failed") w in
      cancel_dependents job_id rest w
  end.

Definition mark_failed (job_id : Z) (s : t) (w : World) : t * World :=
  let '(_, w) := Database.update_job_status job_id FAILED "Worker process failed" w in
  let dependents := DAG.get_dependents job_id (dep_graph_ s) in
  let w := cancel_dependents job_id dependents w in
  (mk (remove_if (λ e, bool_decide (e_job_id e = job_id)) (pq_ s))
      (DAG.remove_node job_id (dep_graph_ s))
      (in_progress_ s ∖ {[job_id]}), w).

Definition pending_count (s : t) : nat := List.length (pq_ s).
End JobScheduler.

(** ** priority_queue.h *)

(** [PriorityQueue<T, Compare>]: a binary heap in a vector.  The two sift
    loops carry fuel and answer [None] when it runs out.  Indexing the
    vector out of range is undefined behaviour in C++; the loops never do
    it, and where the embedding has to answer it leaves the heap as it
    is. *)
Module PriorityQueue.
Section with_compare.
Context {T : Type} (cmp_ : T → T → bool).

(** [std::swap(heap_[i], heap_[j])] *)
Definition swap (i j : nat) (heap : list T) : list T :=
  match heap !! i, heap !! j with
  | Some a, Some b => <[i := b]> (<[j := a]> heap)
  | _, _ => heap
  end.

Fixpoint sift_up (fuel : nat) (idx : nat) (heap : list T) : option (list T) :=
  match fuel with
  | O => None
  | S fuel' =>
      if decide (0 < idx)%nat then
        let parent := ((idx - 1) / 2)%nat in
        match heap !! parent, heap !! idx with
        | Some p, Some x =>
            if cmp_ p x then sift_up fuel' parent (swap parent idx heap) else Some heap
        | _, _ => Some heap
        end
      else Some heap
  end.

(** [if (child < n && cmp_(heap_[best], heap_[child])) best = child;] *)
Definition better (heap : list T) (best child : nat) : nat :=
  match heap !! best, heap !! child with
  | Some b, Some c => if cmp_ b c then child else best
  | _, _ => best
  end.

Fixpoint sift_down (fuel : nat) (idx : nat) (heap : list T) : option (list T) :=
  match fuel with
  | O => None
  | S fuel' =>
      let best := idx in
      let left := (2 * idx + 1)%nat in
      let right := (2 * idx + 2)%nat in
      let best := better heap best left in
      let best := better heap best right in
      if decide (best = idx) then Some heap
      else sift_down fuel' best (swap idx best heap)
  end.

Definition push (item : T) (heap : list T) : option (list T) :=
  let heap := heap ++ [item] in
  sift_up (List.length heap) (List.length heap - 1) heap.

(** [heap_[i] = heap_.back(); heap_.pop_back();] *)
Definition replace_by_back (i : nat) (heap : list T) : list T :=
  match last heap with
  | Some back => removelast (<[i := back]> heap)
  | None => heap
  end.

(** The top and the remaining heap; [None] where the C++ throws (or
    the fuel runs out). *)
Definition pop (heap : list T) : option (T * list T) :=
  match heap with
  | [] => None
  | top :: _ =>
      let heap := replace_by_back 0 heap in
      if decide (heap = []) then Some (top, heap)
      else match sift_down (List.length heap) 0 heap with
           | Some heap => Some (top, heap)
           | None => None
           end
  end.

Definition top (heap : list T) : option T := head heap.
Definition empty (heap : list T) : bool := bool_decide (heap = []).
Definition size (heap : list T) : nat := List.length heap.

(** The index at which the loop of [remove_if] stops. *)
Fixpoint find_index (pred : T → bool) (i : nat) (rest : list T) : option nat :=
  match rest with
  | [] => None
  | x :: rest' => if pred x then Some i else find_index pred (S i) rest'
  end.

Definition remove_if (pred : T → bool) (heap : list T) : option (bool * list T) :=
  match find_index pred 0 heap with
  | None => Some (false, heap)
  | Some i =>
      let heap := replace_by_back i heap in
      if decide (i < List.length heap)%nat then
        match sift_down (List.length heap) i heap with
        | Some heap =>
            match sift_up (S i) i heap with
            | Some heap => Some (true, heap)
            | None => None
            end
        | None => None
        end
      else Some (true, heap)
  end.
End with_compare.
End PriorityQueue.

(** ** job_scheduler.h: [JobScheduler::get_ready_jobs] *)

(** The comparison handed to [std::sort]: higher priority first, then the
    older job. *)
Definition ready_first (a b : BackupJob.t) : bool :=
  if decide (BackupJob.priority a ≠ BackupJob.priority b) then
    bool_decide (JobPriority_to_int (BackupJob.priority a) >
                 JobPriority_to_int (BackupJob.priority b))
  else bool_decide (BackupJob.created_at a < BackupJob.created_at b).

Definition ready_order (a b : BackupJob.t) : Prop := ready_first b a = false.
#[global] Instance ready_order_dec : RelDecision ready_order.
Proof. intros a b. unfold ready_order. apply _. Defined.

(** One turn of the loop [for (int node_id : ready_nodes)]. *)
Definition collect_ready (w : World) (acc : list BackupJob.t * gset Z) (node_id : Z)
    : list BackupJob.t * gset Z :=
  let '(ready, in_progress) := acc in
  match Database.get_job node_id w with
  | None => acc
  | Some job =>
      if decide (BackupJob.status job ≠ PENDING) then acc
      else if decide (node_id ∈ in_progress) then acc
      else (ready ++ [job], in_progress ∪ {[node_id]})
  end.

(** [std::sort] leaves the order of jobs that compare equal open; the
    embedding keeps them in the order in which they were collected. *)
Definition get_ready_jobs (s : JobScheduler.t) (w : World)
    : list BackupJob.t * JobScheduler.t :=
  let ready_nodes := DAG.get_ready_nodes (JobScheduler.dep_graph_ s) in
  let '(ready, in_progress) :=
    foldl (collect_ready w) ([], JobScheduler.in_progress_ s) ready_nodes in
  (merge_sort ready_order ready,
   JobScheduler.mk (JobScheduler.pq_ s) (JobScheduler.dep_graph_ s) in_progress).

(** ** A concrete instance of the external libraries for the examples *)

(** Small stand-ins for OpenSSL, LZ4 and ZSTD with the shape of the real
    functions: the digest has 32 bytes, decryption inverts encryption under
    the same key and reports an error under another key, decompression
    inverts compression and rejects what compression did not produce. *)
Module TestPrimitives.

Definition digest (data : list byte) : list byte :=
  take SHA256_BIN_LEN (data ++ replicate SHA256_BIN_LEN x00).

Lemma digest_length data : List.length (digest data) = SHA256_BIN_LEN.
Proof.
  unfold digest. rewrite length_take, length_app, length_replicate. lia.
Defined.

Definition seal (key iv plaintext : list byte) : option (list byte) :=
  Some (key ++ rev plaintext).

Definition unseal (key iv ciphertext : list byte) : option (list byte) :=
  if decide (take (List.length key) ciphertext = key)
  then Some (rev (drop (List.length key) ciphertext))
  else None.

Definition pack (tag : byte) (data : list byte) : option (list byte) :=
  Some (tag :: data).

Definition unpack (tag : byte) (data : list byte) (capacity : nat) : option (list byte) :=
  match data with
  | t :: body =>
      if decide (t = tag ∧ List.length body ≤ capacity)%nat then Some body else None
  | [] => None
  end.

#[export] Instance primitives : Primitives := {|
  EVP_sha256 := digest;
  EVP_sha256_length := digest_length;
  EVP_aes_256_cbc_encrypt := seal;
  EVP_aes_256_cbc_decrypt := unseal;
  LZ4_compress_default := pack x01;
  LZ4_decompress_safe := unpack x01;
  ZSTD_compress := pack x02;
  ZSTD_decompress := unpack x02
|}.
End TestPrimitives.

(** ** Vocabulary of the specification *)

(** Two chunk references that agree on everything but the [deduplicated] flag. *)
Definition same_chunk_but_dedup (a b : ChunkInfo.t) : Prop :=
  ChunkInfo.hash a = ChunkInfo.hash b ∧ ChunkInfo.offset a = ChunkInfo.offset b ∧
  ChunkInfo.size a = ChunkInfo.size b ∧ ChunkInfo.chunk_index a = ChunkInfo.chunk_index b.

Definition same_manifest_but_dedup (m1 m2 : FileManifest.t) : Prop :=
  FileManifest.file_path m1 = FileManifest.file_path m2 ∧
  FileManifest.file_name m1 = FileManifest.file_name m2 ∧
  FileManifest.file_size m1 = FileManifest.file_size m2 ∧
  FileManifest.modified_time m1 = FileManifest.modified_time m2 ∧
  FileManifest.file_hash m1 = FileManifest.file_hash m2 ∧
  Forall2 same_chunk_but_dedup (FileManifest.chunks m1) (FileManifest.chunks m2).

(** The chunk record of [c] exists and its storage path exists on disk. *)
Definition chunk_present (w : World) (c : ChunkInfo.t) : Prop :=
  ∃ meta, Database.get_chunk_meta (ChunkInfo.hash c) w = Some meta ∧
          is_Some (FS.stat (ChunkMeta.storage_path meta) w).

(** What [verify_backup] is specified to decide. *)
Definition backup_verifiable (job_id : Z) (w : World) : Prop :=
  ∃ job, Database.get_job job_id w = Some job ∧ BackupJob.status job = COMPLETED ∧
    ∀ manifest, manifest ∈ Database.get_file_manifests job_id w →
      ∀ chunk, chunk ∈ FileManifest.chunks manifest → chunk_present w chunk.

(** The file system of [w'] has the same paths as that of [w], with
    whatever contents. *)
Definition same_paths (w w' : World) : Prop :=
  dom (files w') = dom (files w).

Section spec_vocabulary.
Context `{Primitives}.

(** The specification's reading of the restore loop: every manifest is
    restored to its place under the destination, in the world the attempt
    before it left, whatever the outcome of that attempt.  The list pairs
    each manifest with what [restore_file] returned for it. *)
Fixpoint restore_attempts (store : ChunkStore.t) (job : BackupJob.t)
    (aes_key : list byte) (dest_path : string) (manifests : list FileManifest.t)
    (w : World) : list (FileManifest.t * (bool * World)) :=
  match manifests with
  | [] => []
  | manifest :: rest =>
      let target := dest_path +:+ "/" +:+ FileManifest.file_path manifest in
      let attempt :=
        ChunkStore.restore_file store manifest target (BackupJob.compression job)
                                (BackupJob.encrypt job) aes_key w in
      (manifest, attempt) :: restore_attempts store job aes_key dest_path rest attempt.2
  end.

(** The attempts for which [restore_file] returned true. *)
Definition succeeded (attempts : list (FileManifest.t * (bool * World)))
    : list (FileManifest.t * (bool * World)) :=
  filter (λ a, a.2.1 = true) attempts.

(** The world the last attempt left. *)
Definition world_after (w : World) (attempts : list (FileManifest.t * (bool * World)))
    : World :=
  default w ((λ a, a.2.2) <$> last attempts).
End spec_vocabulary.

(** The rows [store_file_manifest] is specified to add for the chunk
    references of a manifest; the index column holds the [int] the index
    was cast to. *)
Fixpoint chunk_rows (manifest_id : Z) (next_id : Z) (chunks : list ChunkInfo.t)
    : list FileChunkRow.t :=
  match chunks with
  | [] => []
  | c :: rest =>
      FileChunkRow.mk next_id manifest_id (ChunkInfo.hash c)
        (to_int32 (ChunkInfo.chunk_index c))
        (ChunkInfo.offset c) (ChunkInfo.size c) (ChunkInfo.deduplicated c)
      :: chunk_rows manifest_id (next_id + 1) rest
  end.

Definition manifest_row (manifest_id job_id : Z) (m : FileManifest.t) : ManifestRow.t :=
  ManifestRow.mk manifest_id job_id (FileManifest.file_path m) (FileManifest.file_name m)
    (FileManifest.file_size m) (FileManifest.modified_time m) (FileManifest.file_hash m).

(** Number of chunk references, over all stored manifests, naming [hash]. *)
Definition chunk_ref_rows (hash : string) (w : World) : Z :=
  Z.of_nat (List.length
    (filter (λ r, FileChunkRow.chunk_hash r = hash) (file_chunks (tables w)))).

(** The fixed-size windows of a stream: what successive reads of [size]
    bytes deliver, the last one possibly shorter. *)
Fixpoint split_every (size : N) (n : nat) (data : list byte) : list (list byte) :=
  match n with
  | O => []
  | S n' =>
      match data with
      | [] => []
      | _ => take_N size data :: split_every size n' (drop_N size data)
      end
  end.

(** The windows the read loop of [store_file] sees. *)
Definition split_chunks (data : list byte) : list (list byte) :=
  split_every CHUNK_SIZE (List.length data) data.

(** Running totals: the offsets a manifest is specified to carry. *)
Fixpoint prefix_sums (start : Z) (sizes : list Z) : list Z :=
  match sizes with
  | [] => []
  | s :: rest => start :: prefix_sums (start + s) rest
  end.

Definition sum_sizes (sizes : list Z) : Z := foldr Z.add 0 sizes.

(** [ceil(n / size)] *)
Definition ceil_div (n size : Z) : Z := (n + (size - 1)) / size.

Definition chunk_count (n : Z) : Z := ceil_div n (Z.of_N CHUNK_SIZE).

Section chunk_store_vocabulary.
Context `{Primitives}.

(** No chunk of the file is skipped by [store_file]: the file can be
    read, AES encryption does not fail under the key when it is asked for,
    and the storage path of every chunk can be opened for writing. *)
Definition nothing_skipped (cs : ChunkStore.t) (encrypt : bool) (aes_key : list byte)
    (file_path : string) (content : list byte) (w : World) : Prop :=
  (file_path ∉ unreadable w) ∧
  (encrypt = true → ∀ iv plaintext, is_Some (EVP_aes_256_cbc_encrypt aes_key iv plaintext)) ∧
  (∀ c, c ∈ split_chunks content →
     ChunkStore.get_chunk_path cs (SHA256.hash_hex c) ∉ unwritable w).

(** [store_file] does not overwrite the source file while it reads it:
    the file is not the chunk file of one of its own chunks that the
    metadata store does not know yet. *)
Definition source_apart (cs : ChunkStore.t) (file_path : string) (content : list byte)
    (w : World) : Prop :=
  ∀ c, c ∈ split_chunks content →
    Database.chunk_exists (SHA256.hash_hex c) w = false →
    ChunkStore.get_chunk_path cs (SHA256.hash_hex c) ≠ file_path.
End chunk_store_vocabulary.

Section chunk_encoding_vocabulary.
Context `{Primitives}.

(** What [store_file] compresses a chunk to: the compressor's output, or
    the chunk itself when no compression is asked for or the compressor
    returns nothing. *)
Definition compressed_or_raw (comp : CompressionType) (c : list byte) : list byte :=
  if decide (comp ≠ NONE) then
    let compressed := Compressor.compress c comp in
    match compressed with
    | [] => c
    | _ => compressed
    end
  else c.

(** [blob] is a chunk file [store_file] may write for the chunk [c]. *)
Definition encodes (comp : CompressionType) (encrypt : bool) (aes_key : list byte)
    (c blob : list byte) : Prop :=
  if encrypt then
    ∃ iv ciphertext, List.length iv = AES_IV_LEN ∧
      EVP_aes_256_cbc_encrypt aes_key iv (compressed_or_raw comp c) = Some ciphertext ∧
      blob = iv ++ ciphertext
  else blob = compressed_or_raw comp c.

(** The state of the chunking loop after the chunk [c] was appended to
    the manifest, with the given flag, store and world. *)
Definition pushed (deduplicated : bool) (c : list byte) (st : ChunkStore.Loop)
    (cs : ChunkStore.t) (w : World) : ChunkStore.Loop :=
  ChunkStore.mkLoop
    (ChunkStore.l_chunks st ++
       [ChunkInfo.mk (SHA256.hash_hex c) (ChunkStore.l_offset st)
                     (wrap32 (Z.of_nat (List.length c))) (ChunkStore.l_chunk_idx st)
                     deduplicated])
    (wrap32 (ChunkStore.l_chunk_idx st + 1))
    (wrap64 (ChunkStore.l_offset st + Z.of_nat (List.length c)))
    cs w.

Definition store_step (comp : CompressionType) (encrypt : bool) (aes_key : list byte)
    (st : ChunkStore.Loop) (c : list byte) : ChunkStore.Loop :=
  ChunkStore.store_chunk_data comp encrypt aes_key c st.
End chunk_encoding_vocabulary.

(** Everything of the world outside the database: the file system and the
    random generator. *)
Definition same_outside_db (w w' : World) : Prop :=
  files w' = files w ∧ mtimes w' = mtimes w ∧ unreadable w' = unreadable w ∧
  unwritable w' = unwritable w ∧ rand w' = rand w.

(** SQLite carries out the next [n] steps asked of it ([BEGIN], a write
    statement or [COMMIT]) in the world [w]. *)
Definition sqlite_accepts (n : nat) (w : World) : Prop :=
  Forall (λ failed, failed = false) (take n (sqlite_faults w)).

Section store_loop_vocabulary.
Context `{Primitives}.

(** The chunk store after [store_file] has indexed the chunk [h]. *)
Definition stored_store (cs : ChunkStore.t) (h : string) : ChunkStore.t :=
  ChunkStore.mk (ChunkStore.storage_dir_ cs)
    (<[h := true]> (ChunkStore.dedup_index_ cs))
    (<[h := ChunkStore.get_chunk_path cs h]> (ChunkStore.chunk_index_ cs)).

(** The manifest [store_file] returns for a file that it finds and can
    open, built from the state in which the loop ended. *)
Definition manifest_of (path rel : string) (content : list byte) (w : World)
    (st : ChunkStore.Loop) : FileManifest.t :=
  FileManifest.mk (if decide (rel = EmptyString) then path else rel)
    (ChunkStore.basename_of path) (wrap64 (Z.of_nat (List.length content)))
    (wrap64 (default 0 (mtimes w !! path)))
    (SHA256.hash_hex content) (ChunkStore.l_chunks st).

(** The chunk references gathered so far describe the chunks [kept], in
    order: hashes, sizes, indexes [0, 1, ...] and running offsets, all
    modulo the width of their C++ type. *)
Definition shape_inv (kept : list (list byte)) (st : ChunkStore.Loop) : Prop :=
  ChunkInfo.hash <$> ChunkStore.l_chunks st = SHA256.hash_hex <$> kept ∧
  ChunkInfo.size <$> ChunkStore.l_chunks st =
    (λ c, wrap32 (Z.of_nat (List.length c))) <$> kept ∧
  ChunkInfo.chunk_index <$> ChunkStore.l_chunks st =
    (λ k, wrap32 (Z.of_nat k)) <$> seq 0 (List.length kept) ∧
  ChunkInfo.offset <$> ChunkStore.l_chunks st =
    wrap64 <$> prefix_sums 0 (Z.of_nat ∘ List.length <$> kept) ∧
  ChunkStore.l_chunk_idx st = wrap32 (Z.of_nat (List.length kept)) ∧
  ChunkStore.l_offset st = wrap64 (sum_sizes (Z.of_nat ∘ List.length <$> kept)).
End store_loop_vocabulary.

Section round_trip_vocabulary.
Context `{Primitives}.

(** Where [restore_file] looks for the chunk named [hash]: the in-memory
    index first, the metadata store otherwise. *)
Definition chunk_path_of (cs : ChunkStore.t) (w : World) (hash : string) : string :=
  match ChunkStore.chunk_index_ cs !! hash with
  | Some cached => cached
  | None => Database.get_chunk_path hash w
  end.

(** The store holds the chunk [c] under the given settings: its file is
    at the content-addressed path and one turn of the restore loop
    decodes it to [c]. *)
Definition store_holds (cs : ChunkStore.t) (comp : CompressionType) (encrypted : bool)
    (aes_key : list byte) (w : World) (c : list byte) : Prop :=
  chunk_path_of cs w (SHA256.hash_hex c) = ChunkStore.get_chunk_path cs (SHA256.hash_hex c) ∧
  ChunkStore.restore_chunk cs comp encrypted aes_key
    (ChunkInfo.mk (SHA256.hash_hex c) 0 (Z.of_nat (List.length c)) 0 false) w = Some c.

(** AES decryption inverts encryption under [aes_key]. *)
Definition decrypt_inverts (aes_key : list byte) : Prop :=
  ∀ iv plaintext ciphertext, List.length iv = AES_IV_LEN →
    EVP_aes_256_cbc_encrypt aes_key iv plaintext = Some ciphertext →
    EVP_aes_256_cbc_decrypt aes_key iv ciphertext = Some plaintext.

(** The compressor accepts [c] and decompression gives [c] back. *)
Definition codec_inverts (comp : CompressionType) (c : list byte) : Prop :=
  comp ≠ NONE →
  Compressor.compress c comp ≠ [] ∧
  Compressor.decompress (Compressor.compress c comp) (List.length c) comp = c.

(** The conditions under which a file stored by [store_file] is restored
    by [restore_file]: the source file is not overwritten while it is
    read and nothing is skipped while storing; the two codecs invert on
    the chunks of the file; no two different chunks of the file share a
    hash; the chunk files and the destination can be opened, and the
    destination is not one of the chunk files; and every chunk of the
    file that the metadata store already knows is held under the same
    settings. *)
Record round_trip_ready (cs : ChunkStore.t) (comp : CompressionType) (encrypt : bool)
    (aes_key : list byte) (file_path dest_path : string) (content : list byte)
    (w : World) : Prop := {
  rt_source_apart : source_apart cs file_path content w;
  rt_stored : nothing_skipped cs encrypt aes_key file_path content w;
  rt_crypto : encrypt = true → decrypt_inverts aes_key;
  rt_codec : ∀ c, c ∈ split_chunks content → codec_inverts comp c;
  rt_no_collision : ∀ c c', c ∈ split_chunks content → c' ∈ split_chunks content →
    SHA256.hash_hex c = SHA256.hash_hex c' → c = c';
  rt_chunks_readable : ∀ c, c ∈ split_chunks content →
    ChunkStore.get_chunk_path cs (SHA256.hash_hex c) ∉ unreadable w;
  rt_dest_writable : dest_path ∉ unwritable w;
  rt_dest_readable : dest_path ∉ unreadable w;
  rt_dest_apart : ∀ c, c ∈ split_chunks content →
    ChunkStore.get_chunk_path cs (SHA256.hash_hex c) ≠ dest_path;
  rt_known_held : ∀ c, c ∈ split_chunks content →
    Database.chunk_exists (SHA256.hash_hex c) w = true →
    store_holds cs comp encrypt aes_key w c
}.

(** The conditions of [round_trip_ready] that concern the chunks alone. *)
Definition windows_ok (cs0 : ChunkStore.t) (w0 : World) (comp : CompressionType)
    (encrypt : bool) (aes_key : list byte) (windows : list (list byte)) : Prop :=
  (encrypt = true → decrypt_inverts aes_key) ∧
  (encrypt = true →
     ∀ iv plaintext, is_Some (EVP_aes_256_cbc_encrypt aes_key iv plaintext)) ∧
  (∀ c, c ∈ windows →
     c ≠ [] ∧ codec_inverts comp c ∧
     (ChunkStore.get_chunk_path cs0 (SHA256.hash_hex c) ∉ unreadable w0) ∧
     (ChunkStore.get_chunk_path cs0 (SHA256.hash_hex c) ∉ unwritable w0)) ∧
  (∀ c c', c ∈ windows → c' ∈ windows →
     SHA256.hash_hex c = SHA256.hash_hex c' → c = c').

(** The invariant of the chunking loop behind the round trip: the store
    holds every chunk gathered so far and every chunk of the file that
    the metadata store knows, and the loop has changed neither the access
    rights of the file system nor the storage directory. *)
Definition holds_all (cs0 : ChunkStore.t) (w0 : World) (comp : CompressionType)
    (encrypt : bool) (aes_key : list byte) (windows gathered : list (list byte))
    (st : ChunkStore.Loop) : Prop :=
  (∀ c, c ∈ gathered →
     store_holds (ChunkStore.l_store st) comp encrypt aes_key (ChunkStore.l_world st) c) ∧
  (∀ c, c ∈ windows →
     Database.chunk_exists (SHA256.hash_hex c) (ChunkStore.l_world st) = true →
     store_holds (ChunkStore.l_store st) comp encrypt aes_key (ChunkStore.l_world st) c) ∧
  unreadable (ChunkStore.l_world st) = unreadable w0 ∧
  unwritable (ChunkStore.l_world st) = unwritable w0 ∧
  ChunkStore.storage_dir_ (ChunkStore.l_store st) = ChunkStore.storage_dir_ cs0.
End round_trip_vocabulary.

(** ** Vocabulary for the in-degree counters of the dependency graph *)

(** The nodes with an edge to [n]. *)
Definition incoming (g : DAG.t) (n : Z) : gset Z :=
  dom (filter (λ kv : Z * gset Z, n ∈ kv.2) (DAG.adj_ g)).

(** The two maps of the graph describe the same nodes, edges end in nodes,
    and the counter of a node is at least the number of edges into it. *)
Definition degrees_sound (g : DAG.t) : Prop :=
  dom (DAG.in_degree_ g) = dom (DAG.adj_ g) ∧
  (∀ a b, DAG.edge g a b → is_Some (DAG.adj_ g !! b)) ∧
  (∀ n d, DAG.in_degree_ g !! n = Some d → Z.of_nat (size (incoming g n)) ≤ d).

(** What the scheduler relies on in its dependency graph. *)
Definition graph_ok (g : DAG.t) : Prop := DAG.acyclic g ∧ degrees_sound g.

(** ** Vocabulary for stored manifests *)

(** Row ids are handed out in increasing order: no manifest row and no
    chunk reference carries a manifest id beyond the last one given. *)
Definition manifest_ids_fresh (t : Tables) : Prop :=
  Forall (λ r, ManifestRow.manifest_id r ≤ file_manifests_seq t) (file_manifests t) ∧
  Forall (λ r, FileChunkRow.manifest_id r ≤ file_manifests_seq t) (file_chunks t).

(** A hash as [to_hex] makes it: 64 characters, none of them NUL. *)
Definition hash_well_formed (h : string) : Prop :=
  String.length h = SHA256_HEX_LEN ∧ c_str h = h.

(** A manifest as [store_file] builds it for a file of fewer than 2^31
    chunks: a path and a name without NUL, well-formed hashes, and chunk
    indexes below 2^31 in strictly increasing order. *)
Definition manifest_well_formed (m : FileManifest.t) : Prop :=
  c_str (FileManifest.file_path m) = FileManifest.file_path m ∧
  c_str (FileManifest.file_name m) = FileManifest.file_name m ∧
  hash_well_formed (FileManifest.file_hash m) ∧
  Forall (λ c, hash_well_formed (ChunkInfo.hash c) ∧ 0 ≤ ChunkInfo.chunk_index c < 2 ^ 31)
         (FileManifest.chunks m) ∧
  StronglySorted Z.lt (ChunkInfo.chunk_index <$> FileManifest.chunks m).

(** ** Concrete backups for the examples *)

(** The result of a [store_file] that ended within its fuel. *)
Definition ended (run : option (FileManifest.t * ChunkStore.t * World))
    : FileManifest.t * ChunkStore.t * World :=
  default (FileManifest.init, ChunkStore.new EmptyString, empty_world) run.

Module RoundTripExample.
Import TestPrimitives.

Definition source : list byte := [x41; x42].

(** Two jobs and one source file. *)
Definition start : World :=
  let w := mkWorld empty_tables [] [] [] {[ "/src/a.txt" := source ]} ∅ ∅ ∅ in
  let w := (Database.create_job BackupJob.init w).2 in
  (Database.create_job BackupJob.init w).2.

Definition store : ChunkStore.t := ChunkStore.new "/data/storage".
Definition key1 : list byte := replicate AES_KEY_LEN x11.
Definition key2 : list byte := replicate AES_KEY_LEN x22.

(** The file is backed up under [key1] ... *)
Definition first_run : option (FileManifest.t * ChunkStore.t * World) :=
  ChunkStore.store_file 4 store "/src/a.txt" LZ4 true key1 1 "a.txt" start.
Definition first_backup : FileManifest.t * ChunkStore.t * World := ended first_run.

(** ... and once more, by a later run with a chunk store object and a key
    of its own. *)
Definition second_run : option (FileManifest.t * ChunkStore.t * World) :=
  ChunkStore.store_file 4 store "/src/a.txt" LZ4 true key2 2 "a.txt" first_backup.2.
Definition second_backup : FileManifest.t * ChunkStore.t * World := ended second_run.

(** The restore of the second backup, under its key. *)
Definition restored : bool * World :=
  ChunkStore.restore_file second_backup.1.2 second_backup.1.1 "/out/a.txt" LZ4 true key2
                          second_backup.2.

(** The restore of the first backup, under its key, before the second
    backup was made. *)
Definition restored_first : bool * World :=
  ChunkStore.restore_file first_backup.1.2 first_backup.1.1 "/out/a.txt" LZ4 true key1
                          first_backup.2.
End RoundTripExample.

Module SkippedExample.
Import TestPrimitives.

Definition source : list byte := [x41; x42].
Definition store : ChunkStore.t := ChunkStore.new "/data/storage".
Definition key : list byte := replicate AES_KEY_LEN x00.



Definition run (w : World) : option (FileManifest.t * ChunkStore.t * World) :=
  ChunkStore.store_file 4 store "/src/a.txt" NONE false key 1 "a.txt" w.
Definition backup (w : World) : FileManifest.t := (ended (run w)).1.1.
End SkippedExample.

Module VerifyExample.
Import TestPrimitives.

(** Job 1 backed up and marked COMPLETED. *)
Definition completed : World :=
  (Database.update_job_status 1 COMPLETED EmptyString RoundTripExample.first_backup.2).2.

Definition chunk_file : string :=
  ChunkStore.get_chunk_path RoundTripExample.store
                            (SHA256.hash_hex RoundTripExample.source).

(** The same world after the bytes of the chunk file were overwritten. *)
Definition tampered : World :=
  set_files (<[ chunk_file := [xff] ]> (files completed)) completed.
End VerifyExample.

Module ManifestExample.
(** The hexadecimal rendering of a digest of 32 equal bytes. *)
Definition hash_of (b : byte) : string := SHA256.to_hex (replicate SHA256_BIN_LEN b).

Definition manifest : FileManifest.t :=
  FileManifest.mk "docs/a.txt" "a.txt" 65538 0 (hash_of xaa)
    [ ChunkInfo.mk (hash_of xbb) 0 65536 0 false;
      ChunkInfo.mk (hash_of xcc) 65536 2 1 true ].

(** The same manifest with the [deduplicated] flags inverted. *)
Definition flipped : FileManifest.t :=
  FileManifest.mk "docs/a.txt" "a.txt" 65538 0 (hash_of xaa)
    [ ChunkInfo.mk (hash_of xbb) 0 65536 0 true;
      ChunkInfo.mk (hash_of xcc) 65536 2 1 false ].

(** One job, and an SQLite that carries out every step. *)
Definition accepting : World := (Database.create_job BackupJob.init empty_world).2.

(** One job; SQLite accepts [BEGIN], the manifest header and the first
    chunk reference, and fails on the second chunk reference. *)
Definition failing : World := set_sqlite_faults [false; false; false; true] accepting.
End ManifestExample.

(** A backup of two files of which the chunk file of the first is damaged
    afterwards. *)
Module IsolationExample.
Import TestPrimitives.

Definition job : BackupJob.t :=
  BackupJob.mk (-1) "/src" "plain" PENDING NORMAL NONE false false (-1)
               0 0 0 0 0 0 0 0 EmptyString [].

Definition start : World :=
  (Database.create_job job
     (mkWorld empty_tables [] [] []
              {[ "/src/a.txt" := [x41; x42]; "/src/b.txt" := [x43] ]} ∅ ∅ ∅)).2.

Definition store : ChunkStore.t := ChunkStore.new "/data/storage".
Definition key : list byte := replicate AES_KEY_LEN x00.

Definition first_file : FileManifest.t * ChunkStore.t * World :=
  ended (ChunkStore.store_file 4 store "/src/a.txt" NONE false key 1 "a.txt" start).
Definition second_file : FileManifest.t * ChunkStore.t * World :=
  ended (ChunkStore.store_file 4 first_file.1.2 "/src/b.txt" NONE false key 1 "b.txt"
                               first_file.2).

Definition completed : World :=
  (Database.update_job_status 1 COMPLETED EmptyString second_file.2).2.

(** The chunk file of [a.txt] no longer holds the chunk. *)
Definition damaged : World :=
  set_files (<[ ChunkStore.get_chunk_path store (SHA256.hash_hex [x41; x42]) := [xff] ]>
               (files completed)) completed.

(** The restore, by a chunk store object of its own. *)
Definition restored : RestoreEngine.RestoreResult * World :=
  RestoreEngine.restore_job (ChunkStore.new "/data/storage") 1 "/out" damaged.
End IsolationExample.

(** The schedule [J1; J2 depending on J1; J3]. *)
Module CascadeExample.
Definition job1 : BackupJob.t :=
  BackupJob.mk (-1) "/no/such/dir" "first" PENDING NORMAL LZ4 true false (-1)
               0 0 0 0 0 0 0 0 EmptyString [].
Definition job2 : BackupJob.t :=
  BackupJob.mk (-1) "/home/data" "second" PENDING NORMAL LZ4 true false (-1)
               0 0 0 0 0 0 0 0 EmptyString [1].
Definition job3 : BackupJob.t :=
  BackupJob.mk (-1) "/home/other" "third" PENDING NORMAL LZ4 true false (-1)
               0 0 0 0 0 0 0 0 EmptyString [].

(** [J1], then [J2] depending on [J1], then the unrelated [J3]. *)
Definition submitted : JobScheduler.t * World :=
  let '(_, s, w) := JobScheduler.submit_job job1 JobScheduler.new empty_world in
  let '(_, s, w) := JobScheduler.submit_job job2 s w in
  let '(_, s, w) := JobScheduler.submit_job job3 s w in
  (s, w).

Definition after_failure : JobScheduler.t * World :=
  JobScheduler.mark_failed 1 submitted.1 submitted.2.

Definition status_of (job_id : Z) (w : World) : option JobStatus :=
  BackupJob.status <$> Database.get_job job_id w.
Definition error_of (job_id : Z) (w : World) : option string :=
  BackupJob.error_message <$> Database.get_job job_id w.
End CascadeExample.

(** Two files with the same content in one backup. *)
Module RefCountExample.
Import TestPrimitives.

Definition source : list byte := [x48; x65; x6c; x6c; x6f].   (* "Hello" *)

Definition start : World :=
  (Database.create_job BackupJob.init
     (mkWorld empty_tables [] [] []
              {[ "/src/file1.txt" := source; "/src/duplicate.txt" := source ]}
              ∅ ∅ ∅)).2.

Definition store : ChunkStore.t := ChunkStore.new "/data/storage".
Definition key : list byte := replicate AES_KEY_LEN x00.

Definition first_run : option (FileManifest.t * ChunkStore.t * World) :=
  ChunkStore.store_file 4 store "/src/file1.txt" NONE false key 1 "file1.txt" start.
Definition first_file : FileManifest.t * ChunkStore.t * World := ended first_run.

Definition second_run : option (FileManifest.t * ChunkStore.t * World) :=
  ChunkStore.store_file 4 first_file.1.2 "/src/duplicate.txt" NONE false key 1
                        "duplicate.txt" first_file.2.
Definition second_file : FileManifest.t * ChunkStore.t * World := ended second_run.

Definition the_hash : string := SHA256.hash_hex source.
End RefCountExample.

(** Two pending jobs, the second depending on the first. *)
Module ReadyExample.
Definition scheduler : JobScheduler.t :=
  JobScheduler.mk [] (DAG.run [DAG.AddEdge 1 2]) ∅.
Definition world : World := RoundTripExample.start.
End ReadyExample.

(** Files of more than one chunk. *)
Module LongExample.
Import TestPrimitives.

(** 65536 bytes. *)
Definition block (b : byte) : list byte := mjoin (replicate 256 (replicate 256 b)).

(** A file of one full chunk and two more bytes ... *)
Definition long_source : list byte := block x41 ++ [x42; x42].
(** ... and a file of 256 KiB. *)
Definition big_source : list byte := block x41 ++ block x42 ++ block x43 ++ block x44.

Definition store : ChunkStore.t := ChunkStore.new "/data/storage".
Definition key : list byte := replicate AES_KEY_LEN x00.

Definition start : World :=
  (Database.create_job BackupJob.init
     (mkWorld empty_tables [] [] []
              {[ "/src/long.bin" := long_source; "/src/big.bin" := big_source ]}
              ∅ ∅ ∅)).2.


Definition big_run : option (FileManifest.t * ChunkStore.t * World) :=
  ChunkStore.store_file 8 store "/src/big.bin" NONE false key 1 "big.bin" start.
Definition big_backup : FileManifest.t * ChunkStore.t * World := ended big_run.
End LongExample.

(** A source file inside the chunk store: the file sits at the storage path
    of its own first chunk. *)
Module AliasExample.
Import TestPrimitives.

Definition store : ChunkStore.t := ChunkStore.new "/data/storage".
Definition key : list byte := replicate AES_KEY_LEN x00.

Definition source : list byte := LongExample.long_source.
Definition first_chunk : list byte := LongExample.block x41.
Definition source_path : string :=
  ChunkStore.get_chunk_path store (SHA256.hash_hex first_chunk).

Definition start : World :=
  (Database.create_job BackupJob.init
     (mkWorld empty_tables [] [] [] {[ source_path := source ]} ∅ ∅ ∅)).2.

Definition run : option (FileManifest.t * ChunkStore.t * World) :=
  ChunkStore.store_file 4 store source_path NONE false key 1 "alias.bin" start.
Definition backup : FileManifest.t * ChunkStore.t * World := ended run.
End AliasExample.

(** * Theorems *)

(** * Restore does not read the [deduplicated] flag *)

Section restore_ignores_dedup.
Context `{Primitives}.

Lemma restore_chunk_ext cs comp enc key a b w :
  same_chunk_but_dedup a b →
  ChunkStore.restore_chunk cs comp enc key a w =
  ChunkStore.restore_chunk cs comp enc key b w.
Proof.
  intros (Hh & _ & Hs & _). unfold ChunkStore.restore_chunk.
  by rewrite Hh, Hs.
Qed.

Lemma restore_chunks_ext cs comp enc key dest l1 l2 :
  Forall2 same_chunk_but_dedup l1 l2 →
  ∀ w, ChunkStore.restore_chunks cs comp enc key dest l1 w =
       ChunkStore.restore_chunks cs comp enc key dest l2 w.
Proof.
  induction 1 as [|a b l1 l2 Hab _ IH]; intros w; simpl; [done|].
  rewrite (restore_chunk_ext _ _ _ _ a b w Hab).
  destruct (ChunkStore.restore_chunk cs comp enc key b w); [apply IH|done].
Qed.

(** C10. Two manifests that are identical except for the [deduplicated]
    flags of their chunks restore alike: from the same chunk store and the
    same world, [restore_file] returns the same value and leaves the same
    world, hence the same bytes in the destination file. *)
Theorem restore_file_ignores_dedup cs m1 m2 dest comp enc key w :
  same_manifest_but_dedup m1 m2 →
  ChunkStore.restore_file cs m1 dest comp enc key w =
  ChunkStore.restore_file cs m2 dest comp enc key w.
Proof.
  intros (_ & _ & _ & _ & Hhash & Hchunks). unfold ChunkStore.restore_file.
  destruct (FS.open_trunc dest w) as [w1|]; [|done].
  rewrite (restore_chunks_ext _ _ _ _ _ _ _ Hchunks w1).
  destruct (ChunkStore.restore_chunks _ _ _ _ _ _ w1) as [ok w2].
  by rewrite Hhash.
Qed.
End restore_ignores_dedup.

(** * [verify_backup] checks existence only *)

Section verify_backup_facts.
Context `{Primitives}.

Lemma verify_chunks_true chunks w :
  RestoreEngine.verify_chunks chunks w = true ↔
  ∀ chunk, chunk ∈ chunks → chunk_present w chunk.
Proof.
  induction chunks as [|c rest IH]; simpl.
  - split; [|done]. intros _ chunk Hin. by apply elem_of_nil in Hin.
  - destruct (Database.get_chunk_meta (ChunkInfo.hash c) w) as [meta|] eqn:Hmeta.
    + destruct (FS.stat (ChunkMeta.storage_path meta) w) as [st|] eqn:Hstat.
      * rewrite IH. split.
        -- intros Hrest chunk Hin. apply elem_of_cons in Hin as [->|Hin]; [|by apply Hrest].
           exists meta. by rewrite Hstat.
        -- intros Hall chunk Hin. apply Hall. by right.
      * split; [done|]. intros Hall.
        destruct (Hall c) as (meta' & Hm & Hs); [left|].
        rewrite Hmeta in Hm. inversion Hm; subst meta'.
        rewrite Hstat in Hs. by destruct Hs.
    + split; [done|]. intros Hall.
      destruct (Hall c) as (meta' & Hm & _); [left|]. by rewrite Hmeta in Hm.
Qed.

Lemma verify_manifests_true manifests w :
  RestoreEngine.verify_manifests manifests w = true ↔
  ∀ manifest, manifest ∈ manifests →
    ∀ chunk, chunk ∈ FileManifest.chunks manifest → chunk_present w chunk.
Proof.
  induction manifests as [|m rest IH]; simpl.
  - split; [|done]. intros _ manifest Hin. by apply elem_of_nil in Hin.
  - destruct (RestoreEngine.verify_chunks (FileManifest.chunks m) w) eqn:Hm.
    + rewrite IH. pose proof (proj1 (verify_chunks_true _ _) Hm) as Hm'. split.
      * intros Hrest manifest Hin. apply elem_of_cons in Hin as [->|Hin]; [exact Hm'|by apply Hrest].
      * intros Hall manifest Hin. apply Hall. by right.
    + split; [done|]. intros Hall.
      assert (RestoreEngine.verify_chunks (FileManifest.chunks m) w = true) as Ht.
      { apply verify_chunks_true. apply Hall. left. }
      by rewrite Ht in Hm.
Qed.

Lemma stat_same_paths w w' path :
  same_paths w w' → is_Some (FS.stat path w') ↔ is_Some (FS.stat path w).
Proof.
  intros Hdom. unfold FS.stat.
  assert (is_Some (files w' !! path) ↔ is_Some (files w !! path)) as Hiff.
  { rewrite <- !elem_of_dom. unfold same_paths in Hdom. by rewrite Hdom. }
  destruct (files w' !! path), (files w !! path); split; intros [? ?]; try done;
    try (by eexists); exfalso.
  - destruct Hiff as [Hiff _]. destruct Hiff as [? ?]; [by eexists|done].
  - destruct Hiff as [_ Hiff]. destruct Hiff as [? ?]; [by eexists|done].
Qed.

Lemma backup_verifiable_same_paths job_id w w' :
  tables w' = tables w → same_paths w w' →
  backup_verifiable job_id w → backup_verifiable job_id w'.
Proof.
  intros Ht Hp (job & Hjob & Hst & Hall). exists job.
  unfold Database.get_job, Database.get_file_manifests, Database.chunks_of_manifest in *.
  rewrite Ht. repeat split; [done..|].
  intros manifest Hin chunk Hc.
  destruct (Hall manifest Hin chunk Hc) as (meta & Hm & Hs).
  exists meta. unfold Database.get_chunk_meta in *. rewrite Ht. split; [done|].
  by apply (stat_same_paths w w').
Qed.

(** C7. [verify_backup job_id] answers true exactly when the job exists
    with status COMPLETED and every chunk reference of every manifest of
    the job has a chunk record whose storage path exists on disk; the
    answer is the same in any world with the same tables and the same set
    of existing paths, whatever the files contain. *)
Theorem verify_backup_existence_only job_id w w' :
  tables w' = tables w → same_paths w w' →
  (RestoreEngine.verify_backup job_id w = true ↔ backup_verifiable job_id w) ∧
  RestoreEngine.verify_backup job_id w' = RestoreEngine.verify_backup job_id w.
Proof.
  intros Ht Hp.
  assert (∀ v, RestoreEngine.verify_backup job_id v = true ↔ backup_verifiable job_id v) as Hiff.
  { intros v. unfold RestoreEngine.verify_backup, backup_verifiable.
    destruct (Database.get_job job_id v) as [job|] eqn:Hjob.
    - destruct (decide (BackupJob.status job ≠ COMPLETED)) as [Hne|He].
      + split; [done|]. intros (job' & Hj & Hs & _). by inversion Hj; subst job'.
      + rewrite verify_manifests_true. split.
        * intros Hall. exists job. repeat split; [|done].
          by destruct (BackupJob.status job); try done; exfalso; apply He.
        * by intros (job' & _ & _ & Hall).
    - split; [done|]. by intros (job' & Hj & _). }
  split; [apply Hiff|].
  destruct (RestoreEngine.verify_backup job_id w) eqn:Hw.
  - apply Hiff. apply (backup_verifiable_same_paths job_id w w'); [done..|]. by apply Hiff.
  - destruct (RestoreEngine.verify_backup job_id w') eqn:Hw'; [|done].
    apply Hiff in Hw'.
    assert (backup_verifiable job_id w) as Hv.
    { apply (backup_verifiable_same_paths job_id w' w); [done| |done].
      unfold same_paths in *. done. }
    apply Hiff in Hv. by rewrite Hv in Hw.
Qed.
End verify_backup_facts.

(** * [restore_job]: early failures and per-file isolation *)

Section restore_job_facts.
Context `{Primitives}.

Lemma open_trunc_tables path w w' :
  FS.open_trunc path w = Some w' → tables w' = tables w.
Proof. unfold FS.open_trunc. case_decide; [done|]. by intros [= <-]. Qed.

Lemma restore_chunks_tables cs comp enc key dest chunks : ∀ w,
  tables (ChunkStore.restore_chunks cs comp enc key dest chunks w).2 = tables w.
Proof.
  induction chunks as [|c rest IH]; intros w; simpl; [done|].
  destruct (ChunkStore.restore_chunk cs comp enc key c w); [|done].
  by rewrite IH.
Qed.

Lemma restore_file_tables cs m dest comp enc key w :
  tables (ChunkStore.restore_file cs m dest comp enc key w).2 = tables w.
Proof.
  unfold ChunkStore.restore_file.
  destruct (FS.open_trunc dest w) as [w1|] eqn:Hopen; [|done].
  pose proof (restore_chunks_tables cs comp enc key dest (FileManifest.chunks m) w1) as Ht.
  destruct (ChunkStore.restore_chunks _ _ _ _ _ _ w1) as [ok w2]. simpl in Ht.
  rewrite <- (open_trunc_tables _ _ _ Hopen), <- Ht.
  destruct ok; simpl; [|done]. by case_decide.
Qed.

Lemma world_after_cons w (a : FileManifest.t * (bool * World)) attempts :
  world_after w (a :: attempts) = world_after a.2.2 attempts.
Proof.
  unfold world_after. rewrite last_cons. by destruct (last attempts).
Qed.

Lemma succeeded_cons (a : FileManifest.t * (bool * World)) attempts :
  succeeded (a :: attempts) = (if a.2.1 then [a] else []) ++ succeeded attempts.
Proof.
  unfold succeeded. destruct a as [m [[] w1]]; simpl.
  - by rewrite filter_cons_True.
  - by rewrite filter_cons_False.
Qed.

Lemma wrap64_add_l a b : wrap64 (wrap64 a + b) = wrap64 (a + b).
Proof. unfold wrap64. by rewrite Zplus_mod_idemp_l. Qed.

Lemma wrap64_idemp a : wrap64 (wrap64 a) = wrap64 a.
Proof. unfold wrap64. by rewrite Zmod_mod. Qed.

(** The loop of [restore_job] makes the attempts of [restore_attempts]
    and counts those that succeeded. *)
Lemma restore_manifests_spec store job key dest manifests : ∀ result w,
  let out := RestoreEngine.restore_manifests store job key dest manifests result w in
  let attempts := restore_attempts store job key dest manifests w in
  out.2 = world_after w attempts ∧
  tables out.2 = tables w ∧
  RestoreEngine.success out.1 = RestoreEngine.success result ∧
  RestoreEngine.files_restored out.1 =
    RestoreEngine.files_restored result + Z.of_nat (List.length (succeeded attempts)) ∧
  RestoreEngine.restored_files out.1 =
    RestoreEngine.restored_files result ++
    ((λ a, dest +:+ "/" +:+ FileManifest.file_path a.1) <$> succeeded attempts) ∧
  wrap64 (RestoreEngine.bytes_restored out.1) =
    wrap64 (RestoreEngine.bytes_restored result +
            sum_sizes ((λ a, FileManifest.file_size a.1) <$> succeeded attempts)) ∧
  (RestoreEngine.bytes_restored result = wrap64 (RestoreEngine.bytes_restored result) →
   RestoreEngine.bytes_restored out.1 = wrap64 (RestoreEngine.bytes_restored out.1)).
Proof.
  induction manifests as [|m rest IH]; intros result w.
  - simpl. unfold sum_sizes. simpl. rewrite app_nil_r, !Z.add_0_r. by split_and!.
  - cbn [RestoreEngine.restore_manifests restore_attempts]. cbv zeta.
    rewrite world_after_cons, succeeded_cons. cbn [fst snd].
    pose proof (restore_file_tables store m (dest +:+ "/" +:+ FileManifest.file_path m)
      (BackupJob.compression job) (BackupJob.encrypt job) key w) as Ht.
    destruct (ChunkStore.restore_file store m _ _ _ key w) as [ok w1]. simpl in Ht.
    cbn [fst snd].
    destruct ok; cbn [negb];
      match goal with |- context [RestoreEngine.restore_manifests _ _ _ _ _ ?r _] =>
        destruct (IH r w1) as (IH1 & IH2 & IH3 & IH4 & IH5 & IH6 & IH7) end;
      cbv zeta in IH1, IH2, IH3, IH4, IH5, IH6, IH7;
      cbn [RestoreEngine.files_restored RestoreEngine.restored_files
           RestoreEngine.bytes_restored RestoreEngine.success RestoreEngine.set_error]
        in IH3, IH4, IH5, IH6, IH7.
    + split_and!; [done|congruence|done| | | |].
      * rewrite IH4. cbn [app List.length]. lia.
      * rewrite IH5. cbn [app fmap list_fmap fst]. by rewrite <- app_assoc.
      * rewrite IH6, wrap64_add_l. cbn [app fmap list_fmap fst].
        unfold sum_sizes. cbn [foldr]. f_equal. lia.
      * intros _. apply IH7. by rewrite wrap64_idemp.
    + split_and!; [done|congruence|done..].
Qed.

(** C8. [restore_job] never writes to the metadata store.  It returns
    [success = false] and leaves the world as it was when the job does not
    exist, when its status is not COMPLETED, or when it is encrypted and
    no key is stored for it.  Otherwise every manifest of the job is
    restored to its place under the destination, one after the other, a
    failed file notwithstanding: the world [restore_job] leaves is the
    one the attempt on the last manifest left, [files_restored] counts
    the attempts that succeeded, [restored_files] lists their targets
    and [bytes_restored] adds up their file sizes; [success] is true for
    a job without manifests and [files_restored > 0] for a job with
    manifests. *)
Theorem restore_job_outcome store job_id dest w :
  let out := RestoreEngine.restore_job store job_id dest w in
  tables out.2 = tables w ∧
  match Database.get_job job_id w with
  | None => RestoreEngine.success out.1 = false ∧ out.2 = w
  | Some job =>
      if decide (BackupJob.status job = COMPLETED) then
        if BackupJob.encrypt job && bool_decide (Database.get_encryption_key job_id w = EmptyString)
        then RestoreEngine.success out.1 = false ∧ out.2 = w
        else
          let aes_key :=
            if BackupJob.encrypt job
            then AES256.key_from_hex (Database.get_encryption_key job_id w)
            else replicate AES_KEY_LEN x00 in
          let manifests := Database.get_file_manifests job_id w in
          let attempts := restore_attempts store job aes_key dest manifests w in
          out.2 = world_after w attempts ∧
          RestoreEngine.files_restored out.1 = Z.of_nat (List.length (succeeded attempts)) ∧
          RestoreEngine.restored_files out.1 =
            ((λ a, dest +:+ "/" +:+ FileManifest.file_path a.1) <$> succeeded attempts) ∧
          RestoreEngine.bytes_restored out.1 =
            wrap64 (sum_sizes ((λ a, FileManifest.file_size a.1) <$> succeeded attempts)) ∧
          RestoreEngine.success out.1 =
            match manifests with
            | [] => true
            | _ => bool_decide (0 < RestoreEngine.files_restored out.1)
            end
      else RestoreEngine.success out.1 = false ∧ out.2 = w
  end.
Proof.
  unfold RestoreEngine.restore_job.
  destruct (Database.get_job job_id w) as [job|]; [|done].
  destruct (decide (BackupJob.status job ≠ COMPLETED)) as [Hne|He].
  { rewrite decide_False by done. done. }
  rewrite decide_True by (by destruct (BackupJob.status job); try done; exfalso; apply He).
  destruct (BackupJob.encrypt job && bool_decide (Database.get_encryption_key job_id w = EmptyString));
    [done|].
  destruct (Database.get_file_manifests job_id w) as [|m rest] eqn:Hms; [done|].
  match goal with |- context [RestoreEngine.restore_manifests ?s ?j ?k ?d ?ms ?r ?v] =>
    pose proof (restore_manifests_spec s j k d ms r v)
      as (H1 & H2 & _ & H4 & H5 & H6 & H7);
    destruct (RestoreEngine.restore_manifests s j k d ms r v) as [res w'] end.
  cbv zeta in H1, H2, H4, H5, H6, H7.
  unfold RestoreEngine.init_result in H4, H5, H6, H7.
  cbn [fst snd RestoreEngine.files_restored RestoreEngine.restored_files
       RestoreEngine.bytes_restored] in H1, H2, H4, H5, H6, H7.
  cbn [fst snd RestoreEngine.set_success RestoreEngine.files_restored
       RestoreEngine.restored_files RestoreEngine.bytes_restored RestoreEngine.success].
  split_and!; [exact H2|exact H1|by rewrite H4|by rewrite H5| |done].
  rewrite (H7 eq_refl), H6. done.
Qed.
End restore_job_facts.

(** * Transactions of the metadata store *)

Section database_facts.

Lemma same_outside_db_refl w : same_outside_db w w.
Proof. by repeat split. Qed.

Lemma same_outside_db_trans w1 w2 w3 :
  same_outside_db w1 w2 → same_outside_db w2 w3 → same_outside_db w1 w3.
Proof.
  intros (?&?&?&?&?) (?&?&?&?&?). repeat split; congruence.
Qed.

Lemma next_fault_inv w :
  tables (Transaction.next_fault w).2 = tables w ∧
  same_outside_db w (Transaction.next_fault w).2.
Proof.
  unfold Transaction.next_fault. destruct (sqlite_faults w); by repeat split.
Qed.

Lemma step_write_inv effect w :
  let out := Database.step_write effect w in
  same_outside_db w out.2 ∧
  if out.1 then effect (tables w) = Some (tables out.2)
  else tables out.2 = tables w.
Proof.
  unfold Database.step_write.
  pose proof (next_fault_inv w) as [Ht Hs].
  destruct (Transaction.next_fault w) as [failed w1]. simpl in Ht, Hs.
  destruct failed; simpl; [by split|].
  rewrite Ht. destruct (effect (tables w)) as [t|]; simpl; [|done].
  split; [|done]. destruct Hs as (?&?&?&?&?). by repeat split.
Qed.

Lemma begin_inv w :
  let out := Transaction.begin w in
  Transaction.snapshot out.1 = tables w ∧ Transaction.committed_ out.1 = false ∧
  tables out.2 = tables w ∧ same_outside_db w out.2.
Proof.
  unfold Transaction.begin.
  pose proof (next_fault_inv w) as [Ht Hs].
  destruct (Transaction.next_fault w) as [failed w1]. simpl in *. by rewrite Ht.
Qed.

Lemma drop_inv txn w :
  same_outside_db w (Transaction.drop txn w) ∧
  tables (Transaction.drop txn w) =
    if Transaction.active_ txn && negb (Transaction.committed_ txn)
    then Transaction.snapshot txn else tables w.
Proof.
  unfold Transaction.drop.
  destruct (Transaction.active_ txn && negb (Transaction.committed_ txn));
    by repeat split.
Qed.

Lemma commit_inv txn w :
  Transaction.active_ txn = true → Transaction.committed_ txn = false →
  let out := Transaction.commit txn w in
  tables out.2 = tables w ∧ same_outside_db w out.2 ∧
  Transaction.snapshot out.1.2 = Transaction.snapshot txn ∧
  Transaction.active_ out.1.2 = true ∧
  Transaction.committed_ out.1.2 = out.1.1.
Proof.
  intros Ha Hc. unfold Transaction.commit. rewrite Ha, Hc. simpl.
  pose proof (next_fault_inv w) as [Ht Hs].
  destruct (Transaction.next_fault w) as [failed w1]. simpl in *.
  destruct Hs as (?&?&?&?&?). destruct failed; simpl; by repeat split.
Qed.

Lemma insert_chunk_rows_inv manifest_id refs : ∀ w,
  manifest_id ∈ ManifestRow.manifest_id <$> file_manifests (tables w) →
  let out := Database.insert_chunk_rows manifest_id refs w in
  same_outside_db w out.2 ∧
  (out.1 = true →
   tables out.2 =
     mkTables (jobs (tables w)) (jobs_seq (tables w)) (chunks (tables w))
       (file_manifests (tables w)) (file_manifests_seq (tables w))
       (file_chunks (tables w) ++
          chunk_rows manifest_id (file_chunks_seq (tables w) + 1) refs)
       (file_chunks_seq (tables w) + Z.of_nat (List.length refs))
       (encryption_keys (tables w)) (job_dependencies (tables w))).
Proof.
  induction refs as [|c rest IH]; intros w Hfk.
  - simpl. split; [apply same_outside_db_refl|]. intros _.
    rewrite app_nil_r, Z.add_0_r. by destruct (tables w).
  - cbn [Database.insert_chunk_rows].
    pose proof (step_write_inv (Database.insert_chunk_row manifest_id c) w) as [Hs Hd].
    destruct (Database.step_write (Database.insert_chunk_row manifest_id c) w)
      as [done w1]. simpl in Hs, Hd.
    destruct done; [|by split].
    unfold Database.insert_chunk_row in Hd.
    rewrite bool_decide_eq_true_2 in Hd by done. apply (inj Some) in Hd. rename Hd into Ht.
    destruct (IH w1) as [Hs' Ht']. { by rewrite <- Ht. }
    split; [by eapply same_outside_db_trans|].
    intros Hok. rewrite (Ht' Hok), <- Ht. simpl.
    rewrite <- app_assoc. simpl. f_equal. lia.
Qed.

Local Ltac outside_chain :=
  repeat match goal with
         | H : same_outside_db ?a ?b |- same_outside_db ?a ?c =>
             first [ exact H
                   | apply (same_outside_db_trans a b c H); clear H ]
         end.

(** What [store_file_manifest] does to the world: outside the tables
    nothing, and to the tables either the whole insertion or nothing. *)
Lemma store_file_manifest_effect job_id manifest w :
  let out := Database.store_file_manifest job_id manifest w in
  same_outside_db w out.2 ∧
  if out.1 then
    let t := tables w in
    let manifest_id := file_manifests_seq t + 1 in
    tables out.2 =
      mkTables (jobs t) (jobs_seq t) (chunks t)
        (file_manifests t ++ [manifest_row manifest_id job_id manifest])
        manifest_id
        (file_chunks t ++
           chunk_rows manifest_id (file_chunks_seq t + 1) (FileManifest.chunks manifest))
        (file_chunks_seq t + Z.of_nat (List.length (FileManifest.chunks manifest)))
        (encryption_keys t) (job_dependencies t)
  else tables out.2 = tables w.
Proof.
  unfold Database.store_file_manifest.
  pose proof (begin_inv w) as (Hsnap & Hcom & Ht0 & Hs0).
  destruct (Transaction.begin w) as [txn w0]. simpl in Hsnap, Hcom, Ht0, Hs0.
  unfold Transaction.is_active. rewrite Hcom, andb_true_r.
  destruct (Transaction.active_ txn) eqn:Hact; simpl.
  2: { pose proof (drop_inv txn w0) as [Hsd Hd].
       rewrite Hact in Hd. simpl in Hd. split; [outside_chain|congruence]. }
  pose proof (step_write_inv (Database.insert_manifest_row job_id manifest) w0) as [Hs1 Hd1].
  destruct (Database.step_write (Database.insert_manifest_row job_id manifest) w0)
    as [done w1]. simpl in Hs1, Hd1.
  destruct done; simpl.
  2: { pose proof (drop_inv txn w1) as [Hsd Hd].
       rewrite Hact, Hcom in Hd. simpl in Hd. split; [outside_chain|congruence]. }
  unfold Database.insert_manifest_row in Hd1. rewrite Ht0 in Hd1.
  destruct (jobs (tables w) !! job_id) as [job|]; [|done].
  apply (inj Some) in Hd1. rename Hd1 into Ht1.
  pose proof (insert_chunk_rows_inv (file_manifests_seq (tables w1))
                (FileManifest.chunks manifest) w1) as [Hs2 Hrows].
  { rewrite <- Ht1. simpl. rewrite fmap_app. apply elem_of_app. right. simpl. left. }
  cbv zeta. destruct (Database.insert_chunk_rows _ _ w1) as [ok2 w2]. simpl in Hs2, Hrows.
  destruct ok2; simpl.
  2: { pose proof (drop_inv txn w2) as [Hsd Hd].
       rewrite Hact, Hcom in Hd. simpl in Hd. split; [outside_chain|congruence]. }
  specialize (Hrows eq_refl).
  pose proof (commit_inv txn w2 Hact Hcom) as (Ht3 & Hs3 & Hsnap3 & Hact3 & Hcom3).
  destruct (Transaction.commit txn w2) as [[ok3 txn3] w3]. simpl in *.
  pose proof (drop_inv txn3 w3) as [Hsd Hd].
  rewrite Hact3, Hcom3 in Hd. split; [outside_chain|]. rewrite Hd.
  destruct ok3; simpl.
  - rewrite Ht3, Hrows, <- Ht1. simpl. done.
  - congruence.
Qed.

Lemma store_file_manifest_chunks job_id manifest w :
  let out := Database.store_file_manifest job_id manifest w in
  same_outside_db w out.2 ∧ chunks (tables out.2) = chunks (tables w).
Proof.
  pose proof (store_file_manifest_effect job_id manifest w) as [Hs Ht].
  cbv zeta in *. split; [done|].
  destruct (Database.store_file_manifest job_id manifest w).1; by rewrite Ht.
Qed.

(** *** The fault script *)

Lemma accepts_add (a b : nat) (l : list bool) :
  Forall (λ failed, failed = false) (take (a + b) l) ↔
  Forall (λ failed, failed = false) (take a l) ∧
  Forall (λ failed, failed = false) (take b (drop a l)).
Proof.
  revert l. induction a as [|a IH]; intros l.
  - simpl. rewrite drop_0. split; [by split|by intros [_ ?]].
  - destruct l as [|x l]; simpl.
    + rewrite take_nil. split; [by split|by intros [_ ?]].
    + rewrite !Forall_cons, IH. tauto.
Qed.

Lemma sqlite_accepts_add a b w :
  sqlite_accepts (a + b) w ↔
  sqlite_accepts a w ∧ sqlite_accepts b (set_sqlite_faults (drop a (sqlite_faults w)) w).
Proof. apply accepts_add. Qed.

Lemma sqlite_accepts_same n w w' :
  sqlite_faults w' = sqlite_faults w → sqlite_accepts n w' ↔ sqlite_accepts n w.
Proof. unfold sqlite_accepts. by intros ->. Qed.

Lemma next_fault_faults w :
  let out := Transaction.next_fault w in
  sqlite_faults out.2 = drop 1 (sqlite_faults w) ∧
  (out.1 = false ↔ sqlite_accepts 1 w).
Proof.
  unfold Transaction.next_fault, sqlite_accepts.
  destruct (sqlite_faults w) as [|failed later] eqn:Hf; simpl.
  - rewrite Hf. split; [done|]. split; [intros _; constructor|done].
  - rewrite drop_0, take_0. split; [done|]. split.
    + intros ->. by repeat constructor.
    + by intros [? _]%Forall_cons.
Qed.

Lemma step_write_faults effect w :
  let out := Database.step_write effect w in
  sqlite_faults out.2 = drop 1 (sqlite_faults w) ∧
  (out.1 = true ↔ sqlite_accepts 1 w ∧ is_Some (effect (tables w))).
Proof.
  unfold Database.step_write.
  pose proof (next_fault_faults w) as [Hf Hacc]. pose proof (next_fault_inv w) as [Ht _].
  destruct (Transaction.next_fault w) as [failed w1]. simpl in Hf, Hacc, Ht.
  rewrite Ht. destruct failed; simpl.
  - split; [done|]. split; [done|]. intros [Hno _]. by apply Hacc in Hno.
  - destruct (effect (tables w)) as [t|]; simpl.
    + split; [done|]. split; [|done]. intros _. split; [by apply Hacc|by eexists].
    + split; [done|]. split; [done|]. by intros [_ [? ?]].
Qed.

Lemma begin_faults w :
  let out := Transaction.begin w in
  sqlite_faults out.2 = drop 1 (sqlite_faults w) ∧
  (Transaction.active_ out.1 = true ↔ sqlite_accepts 1 w).
Proof.
  unfold Transaction.begin.
  pose proof (next_fault_faults w) as [Hf Hacc].
  destruct (Transaction.next_fault w) as [failed w1]. simpl in *.
  split; [done|]. rewrite <- Hacc. by destruct failed.
Qed.

Lemma commit_faults txn w :
  Transaction.active_ txn = true → Transaction.committed_ txn = false →
  let out := Transaction.commit txn w in
  sqlite_faults out.2 = drop 1 (sqlite_faults w) ∧
  (out.1.1 = true ↔ sqlite_accepts 1 w).
Proof.
  intros Ha Hc. unfold Transaction.commit. rewrite Ha, Hc. simpl.
  pose proof (next_fault_faults w) as [Hf Hacc].
  destruct (Transaction.next_fault w) as [failed w1]. simpl in *.
  rewrite <- Hacc. by destruct failed.
Qed.

Lemma drop_faults txn w : sqlite_faults (Transaction.drop txn w) = sqlite_faults w.
Proof. unfold Transaction.drop. by destruct (_ && _). Qed.

Lemma insert_chunk_rows_faults manifest_id refs : ∀ w,
  manifest_id ∈ ManifestRow.manifest_id <$> file_manifests (tables w) →
  let out := Database.insert_chunk_rows manifest_id refs w in
  (out.1 = true ↔ sqlite_accepts (List.length refs) w) ∧
  (out.1 = true → sqlite_faults out.2 = drop (List.length refs) (sqlite_faults w)).
Proof.
  induction refs as [|c rest IH]; intros w Hfk.
  - simpl. unfold sqlite_accepts. rewrite take_0, drop_0. by repeat split.
  - cbn [Database.insert_chunk_rows List.length].
    pose proof (step_write_inv (Database.insert_chunk_row manifest_id c) w) as [_ Hd].
    pose proof (step_write_faults (Database.insert_chunk_row manifest_id c) w) as [Hf Hok].
    destruct (Database.step_write (Database.insert_chunk_row manifest_id c) w)
      as [done w1]. simpl in Hd, Hf, Hok.
    change (S (List.length rest)) with (1 + List.length rest)%nat.
    rewrite sqlite_accepts_add.
    assert (is_Some (Database.insert_chunk_row manifest_id c (tables w))) as Heff.
    { unfold Database.insert_chunk_row. rewrite bool_decide_eq_true_2 by done. by eexists. }
    destruct done; simpl.
    + destruct (IH w1) as [IHok IHf].
      { unfold Database.insert_chunk_row in Hd.
        rewrite bool_decide_eq_true_2 in Hd by done. apply (inj Some) in Hd.
        by rewrite <- Hd. }
      split.
      * rewrite IHok. unfold sqlite_accepts at 1 3. simpl. rewrite Hf.
        split; [intros ?; split; [by apply Hok|done]|by intros [_ ?]].
      * intros Hall. rewrite (IHf Hall), Hf, drop_drop. done.
    + split; [|done]. split; [done|]. intros [Hone _].
      assert (false = true); [|done]. apply Hok. by split.
Qed.

Lemma accepts_script (n : nat) (l : list bool) :
  Forall (λ failed, failed = false) (take (3 + n) l) ↔
  Forall (λ failed, failed = false) (take 1 l) ∧
  Forall (λ failed, failed = false) (take 1 (drop 1 l)) ∧
  Forall (λ failed, failed = false) (take n (drop 2 l)) ∧
  Forall (λ failed, failed = false) (take 1 (drop (2 + n) l)).
Proof.
  replace (3 + n)%nat with (1 + (1 + (n + 1)))%nat by lia.
  rewrite (accepts_add 1), (accepts_add 1), (accepts_add n), !drop_drop.
  replace (1 + 1 + n)%nat with (2 + n)%nat by lia. done.
Qed.

(** [store_file_manifest] returns true exactly when the job exists and
    SQLite carries out [BEGIN], the insertion of the header, the
    insertion of every chunk reference and [COMMIT]. *)
Lemma store_file_manifest_flag job_id manifest w :
  (Database.store_file_manifest job_id manifest w).1 = true ↔
  is_Some (jobs (tables w) !! job_id) ∧
  sqlite_accepts (3 + List.length (FileManifest.chunks manifest)) w.
Proof.
  unfold sqlite_accepts at 1. rewrite accepts_script.
  set (n := List.length (FileManifest.chunks manifest)).
  unfold Database.store_file_manifest.
  pose proof (begin_inv w) as (Hsnap & Hcom & Ht0 & _).
  pose proof (begin_faults w) as [Hf0 Hact0]. unfold sqlite_accepts in Hact0.
  destruct (Transaction.begin w) as [txn w0]. simpl in Hsnap, Hcom, Ht0, Hf0, Hact0.
  unfold Transaction.is_active. rewrite Hcom, andb_true_r.
  destruct (Transaction.active_ txn) eqn:Hact; simpl.
  2: { split; [done|]. intros (_ & Hb & _). by apply Hact0 in Hb. }
  pose proof (step_write_inv (Database.insert_manifest_row job_id manifest) w0) as [_ Hd1].
  pose proof (step_write_faults (Database.insert_manifest_row job_id manifest) w0)
    as [Hf1 Hok1].
  destruct (Database.step_write (Database.insert_manifest_row job_id manifest) w0)
    as [done w1]. simpl in Hd1, Hf1, Hok1.
  assert (is_Some (Database.insert_manifest_row job_id manifest (tables w0)) ↔
          is_Some (jobs (tables w) !! job_id)) as Heff.
  { unfold Database.insert_manifest_row. rewrite Ht0.
    destruct (jobs (tables w) !! job_id); split; intros [? ?]; [by eexists..|done|done]. }
  unfold sqlite_accepts in Hok1. rewrite Hf0, Heff in Hok1.
  destruct done; simpl.
  2: { split; [done|]. intros (Hjob & _ & Hm & _).
       assert (false = true); [|done]. apply Hok1. by split. }
  destruct (proj1 Hok1 eq_refl) as [Hacc1 Hjob].
  unfold Database.insert_manifest_row in Hd1. rewrite Ht0 in Hd1.
  destruct (jobs (tables w) !! job_id) as [job|] eqn:Hj; [|by destruct Hjob].
  apply (inj Some) in Hd1.
  pose proof (insert_chunk_rows_faults (file_manifests_seq (tables w1))
                (FileManifest.chunks manifest) w1) as [Hok2 Hf2].
  { rewrite <- Hd1. simpl. rewrite fmap_app. apply elem_of_app. right. simpl. left. }
  fold n in Hok2, Hf2. unfold sqlite_accepts in Hok2.
  rewrite Hf1, Hf0, drop_drop in Hok2, Hf2.
  destruct (Database.insert_chunk_rows _ _ w1) as [ok2 w2]. simpl in Hok2, Hf2.
  destruct ok2; simpl.
  2: { split; [done|]. intros (_ & _ & _ & Hrows & _). by apply Hok2 in Hrows. }
  specialize (Hf2 eq_refl). rewrite drop_drop in Hf2.
  pose proof (commit_faults txn w2 Hact Hcom) as [_ Hok3].
  unfold sqlite_accepts in Hok3. rewrite Hf2 in Hok3.
  destruct (Transaction.commit txn w2) as [[ok3 txn3] w3]. simpl in Hok3 |- *.
  rewrite Hok3. split.
  - intros Hc. split_and!; [done|by apply Hact0|done|by apply Hok2|done].
  - by intros (_ & _ & _ & _ & ?).
Qed.

(** C9. [store_file_manifest] is atomic.  It returns true exactly when
    the job exists and SQLite carries out [BEGIN], the insertion of the
    header, the insertion of every chunk reference and [COMMIT].  When it
    returns true, the metadata store holds one more manifest header and,
    after it, one row for each chunk reference of the manifest, in order,
    and nothing else changed; when it returns false, every table is
    exactly what it was before the call.  Nothing outside the metadata
    store changes either way. *)
Theorem store_file_manifest_atomic job_id manifest w ok w' :
  Database.store_file_manifest job_id manifest w = (ok, w') →
  (ok = true ↔
     is_Some (jobs (tables w) !! job_id) ∧
     sqlite_accepts (3 + List.length (FileManifest.chunks manifest)) w) ∧
  same_outside_db w w' ∧
  if ok then
    let t := tables w in
    let manifest_id := file_manifests_seq t + 1 in
    tables w' =
      mkTables (jobs t) (jobs_seq t) (chunks t)
        (file_manifests t ++ [manifest_row manifest_id job_id manifest])
        manifest_id
        (file_chunks t ++
           chunk_rows manifest_id (file_chunks_seq t + 1) (FileManifest.chunks manifest))
        (file_chunks_seq t + Z.of_nat (List.length (FileManifest.chunks manifest)))
        (encryption_keys t) (job_dependencies t)
  else tables w' = tables w.
Proof.
  intros Hcall. pose proof (store_file_manifest_effect job_id manifest w) as [Hout Ht].
  pose proof (store_file_manifest_flag job_id manifest w) as Hflag.
  cbv zeta in Ht. rewrite Hcall in Ht, Hout, Hflag. by split_and!.
Qed.
End database_facts.

(** * The dependency graph stays acyclic *)

Section dag_facts.
Import DAG.

Lemma weight_visit_le adj visited cur :
  (weight adj (visited ∪ {[cur]}) ≤ weight adj visited)%nat.
Proof.
  unfold weight. induction (map_to_list adj) as [|[k s] l IH]; csimpl; [lia|].
  repeat case_decide; first [lia | exfalso; set_solver].
Qed.

Lemma weight_visit adj visited cur nexts :
  adj !! cur = Some nexts → cur ∉ visited →
  (weight adj (visited ∪ {[cur]}) + S (size nexts) ≤ weight adj visited)%nat.
Proof.
  intros Hl Hv. pose proof (weight_visit_le (delete cur adj) visited cur) as Hle.
  rewrite <- (insert_delete_id adj cur nexts Hl). unfold weight in *.
  rewrite map_to_list_insert by apply lookup_delete_eq. csimpl.
  rewrite (decide_True (P := cur ∈ visited ∪ {[cur]})) by set_solver.
  rewrite (decide_False (P := cur ∈ visited)) by done. lia.
Qed.

Lemma closed_escape g (visited : gset Z) (q : list Z) to v :
  (∀ a b, a ∈ visited → edge g a b → b ∈ visited ∨ b ∈ q) →
  to ∉ visited → v ∈ visited → rtc (edge g) v to →
  ∃ y, y ∈ q ∧ (y ∉ visited) ∧ rtc (edge g) y to.
Proof.
  intros Hcl Hto Hv Hr. induction Hr as [x|x y z Hxy Hyz IH].
  - done.
  - destruct (decide (y ∈ visited)) as [Hy|Hy]; [by apply IH|].
    destruct (Hcl _ _ Hv Hxy) as [?|?]; [done|]. by exists y.
Qed.

Lemma has_path_loop_spec g to fuel : ∀ visited q,
  (weight (adj_ g) visited + List.length q < fuel)%nat →
  (∀ a b, a ∈ visited → edge g a b → b ∈ visited ∨ b ∈ q) →
  to ∉ visited →
  ∃ b, has_path_loop fuel (adj_ g) to visited q = Some b ∧
       (b = true ↔ ∃ x, x ∈ q ∧ rtc (edge g) x to).
Proof.
  induction fuel as [|fuel IH]; intros visited q Hfuel Hcl Hto; [lia|].
  destruct q as [|cur q']; simpl.
  { exists false. split; [done|]. split; [done|]. intros (x & Hx & _). by apply elem_of_nil in Hx. }
  destruct (decide (cur = to)) as [->|Hne].
  { exists true. split; [done|]. split; [|done]. intros _. exists to. split; [left|done]. }
  destruct (decide (cur ∈ visited)) as [Hin|Hnin].
  - destruct (IH visited q') as (b & Hb & Hiff).
    + simpl in Hfuel. lia.
    + intros a c Ha Hac. destruct (Hcl _ _ Ha Hac) as [?|Hq]; [by left|].
      apply elem_of_cons in Hq as [->|?]; [by left|by right].
    + done.
    + exists b. split; [done|]. rewrite Hiff. split.
      * intros (x & Hx & Hr). exists x. split; [by right|done].
      * intros (x & Hx & Hr). apply elem_of_cons in Hx as [->|Hx]; [|by exists x].
        destruct (closed_escape g visited (cur :: q') to cur Hcl Hto Hin Hr)
          as (y & Hy & Hyv & Hyr).
        apply elem_of_cons in Hy as [->|Hy]; [done|]. by exists y.
  - destruct (adj_ g !! cur) as [nexts|] eqn:Hadj.
    + destruct (IH (visited ∪ {[cur]}) (q' ++ elements nexts)) as (b & Hb & Hiff).
      * pose proof (weight_visit _ _ _ _ Hadj Hnin). rewrite length_app.
        change (List.length (elements nexts)) with (size nexts). simpl in Hfuel. lia.
      * intros a c Ha Hac. apply elem_of_union in Ha as [Ha|Ha].
        -- destruct (Hcl _ _ Ha Hac) as [?|Hq]; [left; set_solver|].
           apply elem_of_cons in Hq as [->|?]; [left; set_solver|].
           right. apply elem_of_app. by left.
        -- apply elem_of_singleton in Ha as ->. destruct Hac as (d & Hd & Hc).
           rewrite Hadj in Hd. inversion Hd; subst d.
           right. apply elem_of_app. right. by apply elem_of_elements.
      * set_solver.
      * exists b. split; [done|]. rewrite Hiff. split.
        -- intros (x & Hx & Hr). apply elem_of_app in Hx as [Hx|Hx].
           ++ exists x. split; [by right|done].
           ++ exists cur. split; [left|].
              eapply rtc_l; [|exact Hr]. exists nexts. split; [done|].
              by apply elem_of_elements.
        -- intros (x & Hx & Hr). apply elem_of_cons in Hx as [->|Hx].
           ++ destruct Hr as [|x y z Hxy Hyz]; [done|].
              exists y. split; [|done]. destruct Hxy as (d & Hd & Hy).
              rewrite Hadj in Hd. inversion Hd; subst d.
              apply elem_of_app. right. by apply elem_of_elements.
           ++ exists x. split; [|done]. apply elem_of_app. by left.
    + destruct (IH (visited ∪ {[cur]}) q') as (b & Hb & Hiff).
      * pose proof (weight_visit_le (adj_ g) visited cur). simpl in Hfuel. lia.
      * intros a c Ha Hac. apply elem_of_union in Ha as [Ha|Ha].
        -- destruct (Hcl _ _ Ha Hac) as [?|Hq]; [left; set_solver|].
           apply elem_of_cons in Hq as [->|?]; [left; set_solver|by right].
        -- apply elem_of_singleton in Ha as ->. destruct Hac as (d & Hd & Hc).
           rewrite Hadj in Hd. done.
      * set_solver.
      * exists b. split; [done|]. rewrite Hiff. split.
        -- intros (x & Hx & Hr). exists x. split; [by right|done].
        -- intros (x & Hx & Hr). apply elem_of_cons in Hx as [->|Hx]; [|by exists x].
           destruct Hr as [|x y z Hxy Hyz]; [done|].
           destruct Hxy as (d & Hd & Hy). rewrite Hadj in Hd. done.
Qed.

Lemma has_path_loop_total g from to :
  ∃ b, has_path_loop (has_path_fuel (adj_ g)) (adj_ g) to ∅ [from] = Some b.
Proof.
  destruct (has_path_loop_spec g to (has_path_fuel (adj_ g)) ∅ [from]) as (b & Hb & _).
  - unfold has_path_fuel. simpl. lia.
  - set_solver.
  - set_solver.
  - by exists b.
Qed.

Lemma has_path_reach g from to :
  has_path g from to = true ↔ rtc (edge g) from to.
Proof.
  unfold has_path.
  destruct (has_path_loop_spec g to (has_path_fuel (adj_ g)) ∅ [from]) as (b & Hb & Hiff).
  - unfold has_path_fuel. simpl. lia.
  - set_solver.
  - set_solver.
  - rewrite Hb, Hiff. split.
    + intros (x & Hx & Hr). apply list_elem_of_singleton in Hx as ->. done.
    + intros Hr. exists from. split; [left|done].
Qed.

Lemma edge_add_node node g a b : edge (add_node node g) a b ↔ edge g a b.
Proof.
  unfold add_node, edge. destruct (adj_ g !! node) eqn:Hn; [done|]. simpl.
  split; intros (dests & Hd & Hb).
  - destruct (decide (node = a)) as [->|Hne].
    + rewrite lookup_insert_eq in Hd. inversion Hd; subst dests. set_solver.
    + rewrite lookup_insert_ne in Hd by done. by exists dests.
  - exists dests. split; [|done]. rewrite lookup_insert_ne; [done|]. congruence.
Qed.

Lemma add_node_has_node node g : is_Some (adj_ (add_node node g) !! node).
Proof.
  unfold add_node. destruct (adj_ g !! node) eqn:Hn; [by rewrite Hn|]. simpl.
  rewrite lookup_insert_eq. by eexists.
Qed.

Lemma rtc_edge_add_node node g a b :
  rtc (edge (add_node node g)) a b ↔ rtc (edge g) a b.
Proof.
  split; induction 1 as [|x y z Hxy _ IH]; try done.
  - eapply rtc_l; [|exact IH]. by apply (proj1 (edge_add_node node g x y)).
  - eapply rtc_l; [|exact IH]. by apply (proj2 (edge_add_node node g x y)).
Qed.

Lemma add_edge_result from to g :
  let g1 := add_node to (add_node from g) in
  (from = to ∨ rtc (edge g) to from) ∧ add_edge from to g = (false, g1)
  ∨ from ≠ to ∧ ¬ rtc (edge g) to from ∧ (add_edge from to g).1 = true ∧
    ∀ a b, edge (add_edge from to g).2 a b ↔ edge g a b ∨ (a = from ∧ b = to).
Proof.
  intros g1. unfold add_edge. fold g1.
  destruct (decide (from = to)) as [Heq|Hne]; [left; by split; [left|]|].
  destruct (has_path g1 to from) eqn:Hp.
  - left. split; [|done]. right. apply (proj1 (has_path_reach g1 to from)) in Hp.
    apply (proj1 (rtc_edge_add_node _ _ _ _)) in Hp.
    by apply (proj1 (rtc_edge_add_node _ _ _ _)) in Hp.
  - right. split; [done|]. split.
    { intros Hr. apply (proj2 (rtc_edge_add_node from g _ _)) in Hr.
      apply (proj2 (rtc_edge_add_node to _ _ _)) in Hr.
      apply (proj2 (has_path_reach _ _ _)) in Hr.
      fold g1 in Hr. by rewrite Hr in Hp. }
    split; [done|]. intros a b. simpl.
    assert (edge g a b ↔ edge g1 a b) as ->.
    { unfold g1. by rewrite !edge_add_node. }
    unfold edge at 1. simpl. split.
    + intros (dests & Hd & Hb). destruct (decide (from = a)) as [->|Hfa].
      * rewrite lookup_insert_eq in Hd. inversion Hd; subst dests.
        apply elem_of_union in Hb as [Hb|Hb]; [|right; set_solver].
        left. destruct (adj_ g1 !! a) as [d|] eqn:Ha; simpl in Hb; [|set_solver].
        by exists d.
      * rewrite lookup_insert_ne in Hd by done. left. by exists dests.
    + intros [(dests & Hd & Hb)|[-> ->]].
      * destruct (decide (from = a)) as [->|Hfa].
        -- eexists. rewrite lookup_insert_eq. split; [done|]. rewrite Hd. set_solver.
        -- exists dests. by rewrite lookup_insert_ne.
      * eexists. rewrite lookup_insert_eq. split; [done|]. set_solver.
Qed.

Lemma edge_remove_edge from to g a b :
  edge (remove_edge from to g).2 a b → edge g a b.
Proof.
  unfold remove_edge. destruct (adj_ g !! from) as [dests|] eqn:Hf; [|done].
  case_decide; [|done]. intros (d & Hd & Hb). simpl in Hd.
  destruct (decide (from = a)) as [->|Hne].
  - rewrite lookup_insert_eq in Hd. inversion Hd; subst d. exists dests. set_solver.
  - rewrite lookup_insert_ne in Hd by done. by exists d.
Qed.

Lemma edge_remove_node node g a b :
  edge (remove_node node g) a b → edge g a b.
Proof.
  unfold remove_node, edge. intros (d & Hd & Hb). simpl in Hd.
  apply lookup_delete_Some in Hd as [_ Hd]. rewrite lookup_fmap in Hd.
  destruct (adj_ g !! a) as [d0|]; simpl in Hd; [|done].
  inversion Hd; subst d. exists d0. set_solver.
Qed.

Lemma tc_mono_edge (g g' : DAG.t) :
  (∀ a b, edge g' a b → edge g a b) → ∀ a b, tc (edge g') a b → tc (edge g) a b.
Proof.
  intros Hsub a b. induction 1 as [x y Hxy|x y z Hxy _ IH].
  - apply tc_once. by apply Hsub.
  - eapply tc_l; [by apply Hsub|done].
Qed.

Lemma acyclic_mono (g g' : DAG.t) :
  (∀ a b, edge g' a b → edge g a b) → acyclic g → acyclic g'.
Proof. intros Hsub Hg a Ha. apply (Hg a). by apply (tc_mono_edge g g'). Qed.

(** A path that uses a new edge [from → to] either exists without it, or
    passes through it, or closes a cycle through it. *)
Lemma tc_new_edge (g g' : DAG.t) from to :
  (∀ a b, edge g' a b → edge g a b ∨ (a = from ∧ b = to)) →
  ∀ a b, tc (edge g') a b →
    tc (edge g) a b ∨ (rtc (edge g) a from ∧ rtc (edge g) to b) ∨ rtc (edge g) to from.
Proof.
  intros Hnew a b. induction 1 as [x y Hxy|x y z Hxy _ IH].
  - destruct (Hnew _ _ Hxy) as [?|[-> ->]]; [left; by apply tc_once|].
    right; left. by split.
  - destruct (Hnew _ _ Hxy) as [Hold|[-> ->]].
    + destruct IH as [IH|[[IH1 IH2]|IH]].
      * left. by eapply tc_l.
      * right; left. split; [by eapply rtc_l|done].
      * by right; right.
    + destruct IH as [IH|[[IH1 IH2]|IH]].
      * right; left. split; [done|]. by apply tc_rtc.
      * by right; right.
      * by right; right.
Qed.

Lemma acyclic_apply_op g o : acyclic g → acyclic (apply_op g o).
Proof.
  intros Hg. destruct o as [n|f t|f t|n]; simpl.
  - apply (acyclic_mono g); [|done]. intros a b. by rewrite edge_add_node.
  - destruct (add_edge_result f t g) as [[_ Heq]|(Hne & Hnp & _ & Hedge)].
    + rewrite Heq. simpl. apply (acyclic_mono g); [|done].
      intros a b. by rewrite !edge_add_node.
    + intros a Ha.
      destruct (tc_new_edge g (add_edge f t g).2 f t (λ a b, proj1 (Hedge a b)) a a Ha)
        as [Hc|[[H1 H2]|Hc]].
      * by apply (Hg a).
      * apply Hnp. by etrans.
      * done.
  - apply (acyclic_mono g); [|done]. apply edge_remove_edge.
  - apply (acyclic_mono g); [|done]. apply edge_remove_node.
Qed.

Lemma acyclic_empty : acyclic empty_graph.
Proof.
  intros a Ha.
  destruct Ha as [x y Hxy|x y z Hxy _]; destruct Hxy as (d & Hd & _);
    simpl in Hd; by rewrite lookup_empty in Hd.
Qed.

Lemma acyclic_run ops : acyclic (run ops).
Proof.
  unfold run. induction ops as [|o ops IH] using rev_ind; [apply acyclic_empty|].
  rewrite foldl_snoc. by apply acyclic_apply_op.
Qed.

(** C6, as stated: a rejected [add_edge] would leave the graph unchanged.
    Already on the empty graph the rejected self-loop registers its node. *)
Lemma add_edge_rejected_changes_graph :
  (add_edge 1 1 empty_graph).1 = false ∧
  (add_edge 1 1 empty_graph).2 ≠ empty_graph ∧
  has_node 1 (add_edge 1 1 empty_graph).2 = true ∧
  has_node 1 empty_graph = false.
Proof.
  split; [reflexivity|]. split; [|split; reflexivity].
  intros Heq. assert (has_node 1 (add_edge 1 1 empty_graph).2 = has_node 1 empty_graph) as Hn
    by (by rewrite Heq).
  vm_compute in Hn. discriminate.
Qed.

(** C6, amended.  Starting from the empty graph, no sequence of [add_node],
    [add_edge], [remove_edge] and [remove_node] produces a directed cycle.
    [add_edge from to] returns false exactly when [from = to] or a path
    from [to] back to [from] already exists; a rejected edge leaves every
    edge of the graph as it was, but both endpoints have been registered as
    nodes by then: the graph is that of [add_node to (add_node from g)]. *)
Theorem dag_acyclic_and_add_edge_rejection :
  (∀ ops, acyclic (run ops)) ∧
  (∀ g from to,
     (add_edge from to g).1 = false ↔ from = to ∨ rtc (edge g) to from) ∧
  (∀ g from to,
     (add_edge from to g).1 = false →
     (add_edge from to g).2 = add_node to (add_node from g) ∧
     ∀ a b, edge (add_edge from to g).2 a b ↔ edge g a b).
Proof.
  split; [apply acyclic_run|]. split.
  - intros g from to.
    destruct (add_edge_result from to g) as [[Hc Heq]|(Hne & Hnp & Hok & _)].
    + rewrite Heq. by split.
    + rewrite Hok. split; [done|]. by intros [?|?].
  - intros g from to Hrej.
    destruct (add_edge_result from to g) as [[Hc Heq]|(Hne & Hnp & Hok & _)].
    + rewrite Heq. simpl. split; [done|]. intros a b. by rewrite !edge_add_node.
    + by rewrite Hok in Hrej.
Qed.

End dag_facts.

(** * Reading a stream in fixed-size windows *)

Section stream_windows.
Context {A : Type}.

Lemma take_drop_N (n : N) (s : list A) : take_N n s ++ drop_N n s = s.
Proof.
  revert n. induction s as [|x s IH]; intros n; simpl; [done|].
  destruct (n =? 0)%N; [done|]. simpl. by rewrite IH.
Qed.

Lemma length_take_N (n : N) (s : list A) :
  N.of_nat (List.length (take_N n s)) = N.min n (N.of_nat (List.length s)).
Proof.
  revert n. induction s as [|x s IH]; intros n; simpl List.length.
  - lia.
  - cbn [take_N]. destruct (N.eqb_spec n 0) as [->|Hn]; simpl List.length; [lia|].
    rewrite !Nat2N.inj_succ, IH. lia.
Qed.

Lemma length_drop_N (n : N) (s : list A) :
  (List.length (drop_N n s) = List.length s - List.length (take_N n s))%nat.
Proof.
  rewrite <- (take_drop_N n s) at 2. rewrite length_app. lia.
Qed.

Lemma drop_N_0 (s : list A) : drop_N 0 s = s.
Proof. by destruct s. Qed.

Lemma drop_N_add (a b : N) (s : list A) : drop_N (a + b) s = drop_N b (drop_N a s).
Proof.
  revert a. induction s as [|x s IH]; intros a; [done|].
  cbn [drop_N]. destruct (N.eqb_spec a 0) as [->|Ha].
  - rewrite N.add_0_l. done.
  - destruct (N.eqb_spec (a + b) 0) as [Hab|_]; [lia|].
    replace (N.pred (a + b)) with (N.pred a + b)%N by lia. apply IH.
Qed.

Lemma drop_N_all (n : N) (s : list A) :
  (N.of_nat (List.length s) ≤ n)%N → drop_N n s = [].
Proof.
  intros Hlen. apply nil_length_inv. rewrite length_drop_N.
  pose proof (length_take_N n s). lia.
Qed.

(** Moving on by the number of bytes a read delivered is moving on by
    the number of bytes it asked for. *)
Lemma drop_N_read (n : N) (s : list A) :
  drop_N (N.of_nat (List.length (take_N n s))) s = drop_N n s.
Proof.
  rewrite length_take_N.
  destruct (decide (n ≤ N.of_nat (List.length s))%N) as [Hle|Hgt].
  - by rewrite N.min_l.
  - rewrite N.min_r by lia. rewrite !drop_N_all; [done|lia..].
Qed.
End stream_windows.

Section split_every_facts.
Variable size : N.
Hypothesis size_pos : (0 < size)%N.

Lemma take_N_nonempty (s : list byte) : s ≠ [] → take_N size s ≠ [].
Proof.
  destruct s as [|b s]; [done|]. intros _. simpl.
  destruct (N.eqb_spec size 0); [lia|done].
Qed.

Lemma drop_N_shorter (s : list byte) :
  s ≠ [] → (List.length (drop_N size s) < List.length s)%nat.
Proof.
  intros Hne. rewrite length_drop_N.
  pose proof (take_N_nonempty s Hne) as Ht.
  pose proof (length_take_N size s).
  destruct (take_N size s); [done|]. simpl in *. lia.
Qed.

Lemma split_every_enough n data :
  (List.length data ≤ n)%nat →
  split_every size n data = split_every size (List.length data) data.
Proof.
  revert data. induction n as [n IH] using lt_wf_ind. intros data Hn.
  destruct data as [|b data]; [by destruct n|].
  destruct n as [|n']; [simpl in Hn; lia|].
  assert (List.length (drop_N size (b :: data)) < List.length (b :: data))%nat as Hd
    by (by apply drop_N_shorter).
  change (List.length (b :: data)) with (S (List.length data)) in *.
  cbn [split_every]. f_equal.
  rewrite (IH n'); [|lia|lia].
  rewrite (IH (List.length data)); [done|lia|lia].
Qed.

Lemma split_every_cons data :
  data ≠ [] →
  split_every size (List.length data) data =
    take_N size data :: split_every size (List.length (drop_N size data)) (drop_N size data).
Proof.
  intros Hne. pose proof (drop_N_shorter data Hne) as Hd.
  destruct data as [|b data]; [done|].
  change (List.length (b :: data)) with (S (List.length data)) in *.
  cbn [split_every]. f_equal. apply split_every_enough. lia.
Qed.

(** Induction along the windows of a stream. *)
Lemma windows_ind (P : list byte → Prop) :
  P [] →
  (∀ data, data ≠ [] → P (drop_N size data) → P data) →
  ∀ data, P data.
Proof.
  intros Hnil Hstep data.
  induction data as [data IH] using (induction_ltof1 _ (@List.length byte)).
  destruct (decide (data = [])) as [->|Hne]; [done|].
  apply Hstep; [done|]. apply IH. unfold ltof. by apply drop_N_shorter.
Qed.

Lemma split_every_concat data :
  List.concat (split_every size (List.length data) data) = data.
Proof.
  induction data as [|data Hne IH] using windows_ind; [done|].
  rewrite split_every_cons by done. simpl. rewrite IH. apply take_drop_N.
Qed.

Lemma split_every_bounds data c :
  c ∈ split_every size (List.length data) data →
  c ≠ [] ∧ (N.of_nat (List.length c) ≤ size)%N ∧ (List.length c ≤ List.length data)%nat.
Proof.
  induction data as [|data Hne IH] using windows_ind.
  - intros Hin. by apply elem_of_nil in Hin.
  - rewrite split_every_cons by done. intros [->|Hin]%elem_of_cons.
    + split; [by apply take_N_nonempty|]. pose proof (length_take_N size data). lia.
    + destruct (IH Hin) as (?&?&?). pose proof (drop_N_shorter data Hne). repeat split; [done..|lia].
Qed.

Lemma ceil_div_0 : ceil_div 0 (Z.of_N size) = 0.
Proof. unfold ceil_div. apply Z.div_small. lia. Qed.

Lemma ceil_div_small n : 0 < n ≤ Z.of_N size → ceil_div n (Z.of_N size) = 1.
Proof.
  intros Hn. unfold ceil_div. symmetry. apply (Z.div_unique _ _ 1 (n - 1)); lia.
Qed.

Lemma ceil_div_step n :
  Z.of_N size < n →
  ceil_div n (Z.of_N size) = ceil_div (n - Z.of_N size) (Z.of_N size) + 1 ∧
  1 ≤ ceil_div (n - Z.of_N size) (Z.of_N size).
Proof.
  intros Hn. unfold ceil_div. split.
  - rewrite <- Z.div_add by lia.
    replace (n - Z.of_N size + (Z.of_N size - 1) + 1 * Z.of_N size)
      with (n + (Z.of_N size - 1)) by lia.
    reflexivity.
  - apply Z.div_le_lower_bound; lia.
Qed.

(** All windows but the last are full; the last holds the remainder. *)
Lemma split_every_sizes data :
  Z.of_nat ∘ List.length <$> split_every size (List.length data) data =
    replicate (Z.to_nat (ceil_div (Z.of_nat (List.length data)) (Z.of_N size) - 1))
              (Z.of_N size)
    ++ (if decide (data = []) then []
        else [Z.of_nat (List.length data)
              - Z.of_N size * (ceil_div (Z.of_nat (List.length data)) (Z.of_N size) - 1)]).
Proof.
  induction data as [|data Hne IH] using windows_ind.
  - rewrite decide_True by done.
    change (Z.of_nat (List.length (@nil byte))) with 0.
    rewrite ceil_div_0. reflexivity.
  - rewrite split_every_cons by done. rewrite fmap_cons, IH. clear IH.
    rewrite (decide_False (P := data = [])) by done. unfold compose at 1.
    pose proof (length_take_N size data) as Htake.
    pose proof (length_drop_N size data) as Hdrop.
    assert (0 < List.length data)%nat as Hlen by (destruct data; [done|simpl; lia]).
    destruct (decide (N.of_nat (List.length data) ≤ size)%N) as [Hle|Hgt].
    + (* the last window *)
      assert (drop_N size data = []) as ->.
      { apply nil_length_inv. lia. }
      rewrite (decide_True (P := [] = [])) by done.
      change (Z.of_nat (List.length (@nil byte))) with 0.
      rewrite ceil_div_0, ceil_div_small by lia.
      change (Z.to_nat (0 - 1)) with 0%nat. change (Z.to_nat (1 - 1)) with 0%nat.
      simpl. f_equal. lia.
    + assert (drop_N size data ≠ []) as Hd.
      { intros Hnil. rewrite Hnil in Hdrop. simpl in Hdrop. lia. }
      rewrite (decide_False (P := drop_N size data = [])) by done.
      destruct (ceil_div_step (Z.of_nat (List.length data))) as [Hstep Hk]; [lia|].
      replace (Z.of_nat (List.length (drop_N size data)))
        with (Z.of_nat (List.length data) - Z.of_N size) by lia.
      rewrite Hstep.
      set (k := ceil_div (Z.of_nat (List.length data) - Z.of_N size) (Z.of_N size)) in *.
      replace (Z.to_nat (k + 1 - 1)) with (S (Z.to_nat (k - 1))) by lia.
      rewrite replicate_S. rewrite <- app_comm_cons. clearbody k.
      f_equal; [clear - Htake Hgt; lia|]. f_equal. f_equal. lia.
Qed.

Lemma split_every_length data :
  Z.of_nat (List.length (split_every size (List.length data) data)) =
    ceil_div (Z.of_nat (List.length data)) (Z.of_N size).
Proof.
  pose proof (f_equal List.length (split_every_sizes data)) as Hl.
  rewrite length_fmap, length_app, length_replicate in Hl. rewrite Hl. clear Hl.
  destruct (decide (data = [])) as [->|Hne].
  - change (Z.of_nat (List.length (@nil byte))) with 0.
    rewrite ceil_div_0. reflexivity.
  - assert (0 < List.length data)%nat by (destruct data; [done|simpl; lia]).
    destruct (decide (N.of_nat (List.length data) ≤ size)%N).
    + rewrite ceil_div_small by lia. reflexivity.
    + destruct (ceil_div_step (Z.of_nat (List.length data))) as [Hstep Hk]; [lia|].
      simpl List.length. lia.
Qed.
End split_every_facts.

Lemma CHUNK_SIZE_pos : (0 < CHUNK_SIZE)%N.
Proof. reflexivity. Qed.

Lemma CHUNK_SIZE_eq : Z.of_N CHUNK_SIZE = 65536.
Proof. reflexivity. Qed.

Section store_loop_facts.
Context `{Primitives}.

Lemma foldl_cons_eq {A B} (f : A → B → A) (a : A) (x : B) (l : list B) :
  foldl f a (x :: l) = foldl f (f a x) l.
Proof. reflexivity. Qed.

Lemma store_loop_good comp enc key fuel path pos st :
  ChunkStore.store_loop (S fuel) comp enc key path pos true st =
    let c := ChunkStore.stream_read path pos (ChunkStore.l_world st) in
    if decide (N.of_nat (List.length c) = 0%N) then Some st
    else ChunkStore.store_loop fuel comp enc key path (pos + N.of_nat (List.length c))
           (bool_decide (N.of_nat (List.length c) = CHUNK_SIZE))
           (store_step comp enc key st c).
Proof. reflexivity. Qed.

Lemma store_loop_bad comp enc key fuel path pos st :
  ChunkStore.store_loop (S fuel) comp enc key path pos false st = Some st.
Proof. reflexivity. Qed.

Lemma split_chunks_nil : split_chunks [] = [].
Proof. reflexivity. Qed.

Lemma split_chunks_cons data :
  data ≠ [] →
  split_chunks data = take_N CHUNK_SIZE data :: split_chunks (drop_N CHUNK_SIZE data).
Proof. apply split_every_cons, CHUNK_SIZE_pos. Qed.

Lemma stream_read_bounds path pos w :
  (N.of_nat (List.length (ChunkStore.stream_read path pos w)) ≤ CHUNK_SIZE)%N.
Proof. unfold ChunkStore.stream_read. rewrite length_take_N. lia. Qed.

(** Whatever the loop reads, a property that every turn keeps holds when
    the loop ends. *)
Lemma store_loop_invariant (P : ChunkStore.Loop → Prop) comp enc key path :
  (∀ st c, P st → c ≠ [] → (N.of_nat (List.length c) ≤ CHUNK_SIZE)%N →
           P (store_step comp enc key st c)) →
  ∀ fuel pos good st st',
    P st → ChunkStore.store_loop fuel comp enc key path pos good st = Some st' → P st'.
Proof.
  intros Hstep. induction fuel as [|fuel IH]; intros pos good st st' HP Hrun; [done|].
  destruct good; [|by injection Hrun as <-].
  rewrite store_loop_good in Hrun. cbv zeta in Hrun.
  destruct (decide _) as [_|Hnz]; [by injection Hrun as <-|].
  eapply IH; [|exact Hrun]. apply Hstep; [done| |apply stream_read_bounds].
  intros Hnil. by rewrite Hnil in Hnz.
Qed.

Lemma encrypt_inv plaintext key w :
  let out := AES256.encrypt plaintext key w in
  tables out.2 = tables w ∧ files out.2 = files w ∧
  unreadable out.2 = unreadable w ∧ unwritable out.2 = unwritable w ∧
  ((out.1 = [] ∧ ∃ iv, EVP_aes_256_cbc_encrypt key iv plaintext = None) ∨
   ∃ iv ciphertext, List.length iv = AES_IV_LEN ∧
     EVP_aes_256_cbc_encrypt key iv plaintext = Some ciphertext ∧
     out.1 = iv ++ ciphertext).
Proof.
  unfold AES256.encrypt, AES256.generate_iv.
  destruct (decide (AES_IV_LEN ≤ List.length (rand w))%nat) as [Hlen|Hlen].
  - destruct (EVP_aes_256_cbc_encrypt key (take AES_IV_LEN (rand w)) plaintext)
      as [ct|] eqn:Henc; simpl; repeat split; try done.
    + right. exists (take AES_IV_LEN (rand w)), ct. rewrite length_take. repeat split; [lia|done].
    + left. split; [done|]. by eexists.
  - destruct (EVP_aes_256_cbc_encrypt key (replicate AES_IV_LEN x00) plaintext)
      as [ct|] eqn:Henc; simpl; repeat split; try done.
    + right. exists (replicate AES_IV_LEN x00), ct. by rewrite length_replicate.
    + left. split; [done|]. by eexists.
Qed.

Lemma store_chunk_inv hash_hex path osize ssize comp enc refs w :
  chunks (tables w) !! hash_hex = None →
  let out := Database.store_chunk hash_hex path osize ssize comp enc refs w in
  same_outside_db w out.2 ∧
  (tables out.2 = tables w ∨
   tables out.2 =
     set_chunks (<[hash_hex := ChunkMeta.mk hash_hex path osize ssize comp enc refs]>)
                (tables w)).
Proof.
  intros Hnone. unfold Database.store_chunk.
  pose proof (begin_inv w) as (Hsnap & Hcom & Ht0 & Hs0).
  destruct (Transaction.begin w) as [txn w0]. simpl in Hsnap, Hcom, Ht0, Hs0.
  unfold Transaction.is_active. rewrite Hcom, andb_true_r.
  destruct (Transaction.active_ txn) eqn:Hact; simpl.
  2: { pose proof (drop_inv txn w0) as [Hsd Hd]. rewrite Hact in Hd. simpl in Hd.
       split; [by eapply same_outside_db_trans|]. left. congruence. }
  rewrite Ht0, Hnone. rewrite bool_decide_eq_false_2 by (by intros [? ?]).
  match goal with |- context [Database.step_write ?e w0] =>
    pose proof (step_write_inv e w0) as [Hs1 Hd1];
    destruct (Database.step_write e w0) as [done w1] end.
  simpl in Hs1, Hd1. destruct done; simpl.
  2: { pose proof (drop_inv txn w1) as [Hsd Hd]. rewrite Hact, Hcom in Hd. simpl in Hd.
       split; [eauto using same_outside_db_trans|]. left. congruence. }
  apply (inj Some) in Hd1.
  pose proof (commit_inv txn w1 Hact Hcom) as (Ht3 & Hs3 & Hsnap3 & Hact3 & Hcom3).
  destruct (Transaction.commit txn w1) as [[ok3 txn3] w3]. simpl in *.
  pose proof (drop_inv txn3 w3) as [Hsd Hd]. rewrite Hact3, Hcom3 in Hd.
  split; [eauto using same_outside_db_trans|].
  rewrite Hd. destruct ok3; simpl.
  - right. rewrite Ht3, <- Hd1, Ht0. done.
  - left. congruence.
Qed.

(** [store_chunk_data] with its stages named. *)
Lemma store_step_unfold comp (enc : bool) key c st :
  let h := SHA256.hash_hex c in
  let cs := ChunkStore.l_store st in
  let w := ChunkStore.l_world st in
  let path := ChunkStore.get_chunk_path cs h in
  let staged : list byte * World :=
    if enc then AES256.encrypt (compressed_or_raw comp c) key w
    else (compressed_or_raw comp c, w) in
  store_step comp enc key st c =
    if Database.chunk_exists h w then pushed true c st cs w
    else if enc && bool_decide (staged.1 = []) then ChunkStore.loop_set_world staged.2 st
    else match FS.open_trunc path staged.2 with
         | None => ChunkStore.loop_set_world staged.2 st
         | Some w0 =>
             pushed false c st (stored_store cs h)
               (Database.store_chunk h path (wrap32 (Z.of_nat (List.length c)))
                  (wrap32 (Z.of_nat (List.length staged.1)))
                  (CompressionType_to_int comp) enc 1
                  (FS.append path staged.1 w0)).2
         end.
Proof.
  intros h cs w path staged.
  unfold store_step, ChunkStore.store_chunk_data. fold cs w.
  change (SHA256.to_hex (SHA256.hash c)) with h. fold path.
  destruct (Database.chunk_exists h w); [reflexivity|].
  change (if decide (comp ≠ NONE) then
            match Compressor.compress c comp with
            | [] => c | _ :: _ => Compressor.compress c comp end
          else c) with (compressed_or_raw comp c).
  subst staged. destruct enc.
  - destruct (AES256.encrypt (compressed_or_raw comp c) key w) as [processed w1].
    destruct processed as [|b processed]; [reflexivity|].
    cbn [fst snd andb]. rewrite bool_decide_eq_false_2 by done.
    destruct (FS.open_trunc path w1) as [w0|]; [|reflexivity].
    by destruct (Database.store_chunk _ _ _ _ _ _ _ _).
  - cbn [fst snd andb].
    destruct (FS.open_trunc path w) as [w0|]; [|reflexivity].
    by destruct (Database.store_chunk _ _ _ _ _ _ _ _).
Qed.

Lemma staged_inv comp (enc : bool) key c w :
  let staged : list byte * World :=
    if enc then AES256.encrypt (compressed_or_raw comp c) key w
    else (compressed_or_raw comp c, w) in
  tables staged.2 = tables w ∧ files staged.2 = files w ∧
  unreadable staged.2 = unreadable w ∧ unwritable staged.2 = unwritable w ∧
  if enc && bool_decide (staged.1 = [])
  then ∃ iv plaintext, EVP_aes_256_cbc_encrypt key iv plaintext = None
  else encodes comp enc key c staged.1.
Proof.
  destruct enc; cbn [andb].
  - pose proof (encrypt_inv (compressed_or_raw comp c) key w) as (?&?&?&?&Hout).
    destruct (AES256.encrypt (compressed_or_raw comp c) key w) as [processed w1].
    simpl in *. repeat split; try done.
    destruct Hout as [[-> [iv Hiv]]|(iv & ct & Hlen & Henc & ->)].
    + rewrite bool_decide_eq_true_2 by done. by exists iv, (compressed_or_raw comp c).
    + rewrite bool_decide_eq_false_2.
      * by exists iv, ct.
      * intros Hnil. apply (f_equal List.length) in Hnil.
        rewrite length_app, Hlen in Hnil. unfold AES_IV_LEN in Hnil. simpl in Hnil. lia.
  - simpl. by repeat split.
Qed.

(** The three ways one turn of the chunking loop can go: the chunk is
    deduplicated, skipped, or written and recorded. *)
Lemma store_step_cases comp (enc : bool) key c st :
  let h := SHA256.hash_hex c in
  let cs := ChunkStore.l_store st in
  let w := ChunkStore.l_world st in
  let path := ChunkStore.get_chunk_path cs h in
  let st' := store_step comp enc key st c in
  (Database.chunk_exists h w = true ∧ st' = pushed true c st cs w)
  ∨ (Database.chunk_exists h w = false ∧
     (∃ w', st' = ChunkStore.loop_set_world w' st ∧
        tables w' = tables w ∧ files w' = files w ∧
        unreadable w' = unreadable w ∧ unwritable w' = unwritable w) ∧
     ((enc = true ∧ ∃ iv plaintext, EVP_aes_256_cbc_encrypt key iv plaintext = None)
      ∨ path ∈ unwritable w))
  ∨ (Database.chunk_exists h w = false ∧
     ∃ blob w',
       st' = pushed false c st (stored_store cs h) w' ∧
       encodes comp enc key c blob ∧
       files w' = <[path := blob]> (files w) ∧
       unreadable w' = unreadable w ∧ unwritable w' = unwritable w ∧
       (path ∉ unwritable w) ∧
       (chunks (tables w') = chunks (tables w) ∨
        ∃ meta, ChunkMeta.storage_path meta = path ∧
                chunks (tables w') = <[h := meta]> (chunks (tables w)))).
Proof.
  intros h cs w path st'. subst st'. rewrite store_step_unfold.
  fold h cs w path.
  destruct (Database.chunk_exists h w) eqn:Hex; [left; by split|]. right.
  pose proof (staged_inv comp enc key c w) as (Ht & Hf & Hr & Hw & Hstage).
  cbv zeta in Ht, Hf, Hr, Hw, Hstage.
  set (staged := if enc then AES256.encrypt (compressed_or_raw comp c) key w
                 else (compressed_or_raw comp c, w)) in *.
  destruct (enc && bool_decide (staged.1 = [])) eqn:Hfail.
  { left. split; [done|]. split; [by exists staged.2|]. left.
    apply andb_true_iff in Hfail as [-> _]. by split. }
  unfold FS.open_trunc. rewrite Hw.
  destruct (decide (path ∈ unwritable w)) as [Hden|Hok].
  { left. split; [done|]. split; [by exists staged.2|]. by right. }
  right. split; [done|].
  assert (chunks (tables w) !! h = None) as Hnone.
  { unfold Database.chunk_exists in Hex. apply bool_decide_eq_false in Hex.
    destruct (chunks (tables w) !! h); [|done]. exfalso. apply Hex. by eexists. }
  match goal with |- context [Database.store_chunk ?a ?b ?c0 ?d ?e ?f ?g ?v] =>
    pose proof (store_chunk_inv a b c0 d e f g v) as Hsc;
    set (out := Database.store_chunk a b c0 d e f g v) in * end.
  destruct Hsc as [(Hsf & _ & Hsr & Hsw & _) Hst].
  { simpl. by rewrite Ht. }
  exists staged.1, out.2. split; [done|]. split; [done|].
  simpl in Hsf, Hsr, Hsw, Hst.
  rewrite Hsf, Hsr, Hsw, Hr, Hw, Hf. repeat split; try done.
  - rewrite lookup_insert_eq. simpl. rewrite insert_insert_eq. done.
  - destruct Hst as [Hst|Hst]; rewrite Hst; simpl; rewrite ?Ht; [by left|]. right.
    eexists. split; [|reflexivity]. done.
Qed.
(** *** An SQLite that does not fail *)

Lemma store_chunk_accepted hash_hex path osize ssize comp enc refs w :
  sqlite_faults w = [] → chunks (tables w) !! hash_hex = None →
  Database.store_chunk hash_hex path osize ssize comp enc refs w =
    (true, set_tables
             (set_chunks (<[hash_hex := ChunkMeta.mk hash_hex path osize ssize comp enc
                                                     refs]>) (tables w)) w).
Proof.
  intros Hf Hnone.
  unfold Database.store_chunk, Transaction.begin, Transaction.next_fault.
  rewrite Hf. cbn [Transaction.is_active Transaction.active_ Transaction.committed_
                   negb andb].
  rewrite Hnone, bool_decide_eq_false_2 by (by intros [? ?]).
  unfold Database.step_write, Transaction.next_fault. rewrite Hf.
  cbn [negb]. unfold Transaction.commit, Transaction.next_fault.
  cbn [Transaction.active_ Transaction.committed_ negb orb sqlite_faults set_tables].
  rewrite Hf. unfold Transaction.drop.
  cbn [Transaction.active_ Transaction.committed_ negb andb]. done.
Qed.

Lemma staged_faults comp (enc : bool) key c w :
  sqlite_faults
    (if enc then AES256.encrypt (compressed_or_raw comp c) key w
     else (compressed_or_raw comp c, w)).2 = sqlite_faults w.
Proof.
  destruct enc; [|done]. unfold AES256.encrypt, AES256.generate_iv.
  case_decide; by destruct (EVP_aes_256_cbc_encrypt _ _ _).
Qed.

(** With an SQLite that does not fail, a turn of the loop that appends a
    chunk reference leaves the chunk recorded, under the record it had or
    under a new one that names its storage path. *)
Lemma store_step_recorded comp (enc : bool) key c st :
  let h := SHA256.hash_hex c in
  let w := ChunkStore.l_world st in
  let st' := store_step comp enc key st c in
  sqlite_faults w = [] →
  sqlite_faults (ChunkStore.l_world st') = [] ∧
  (ChunkStore.l_chunks st' = ChunkStore.l_chunks st ∨
   ∃ meta, chunks (tables (ChunkStore.l_world st')) !! h = Some meta ∧
     (chunks (tables w) !! h = Some meta ∨
      ChunkMeta.storage_path meta = ChunkStore.get_chunk_path (ChunkStore.l_store st) h)) ∧
  (∀ h', h' ≠ h →
     chunks (tables (ChunkStore.l_world st')) !! h' = chunks (tables w) !! h').
Proof.
  intros h w st' Hf. subst st'. rewrite store_step_unfold. fold h w.
  pose proof (staged_inv comp enc key c w) as (Ht & _ & _ & Huw & _).
  pose proof (staged_faults comp enc key c w) as Hsf.
  cbv zeta in Ht, Huw.
  set (staged := if enc then AES256.encrypt (compressed_or_raw comp c) key w
                 else (compressed_or_raw comp c, w)) in *.
  destruct (Database.chunk_exists h w) eqn:Hex.
  { simpl. split_and!; [done| |done]. right.
    unfold Database.chunk_exists in Hex. apply bool_decide_eq_true in Hex as [meta Hmeta].
    exists meta. auto. }
  assert (chunks (tables w) !! h = None) as Hnone.
  { unfold Database.chunk_exists in Hex. apply bool_decide_eq_false in Hex.
    destruct (chunks (tables w) !! h); [|done]. exfalso. apply Hex. by eexists. }
  destruct (enc && bool_decide (staged.1 = [])).
  { simpl. rewrite Hsf, Ht. split_and!; auto. }
  unfold FS.open_trunc. case_decide.
  { simpl. rewrite Hsf, Ht. split_and!; auto. }
  rewrite store_chunk_accepted by (simpl; congruence).
  simpl. rewrite Ht. split_and!; [congruence| |].
  - right. eexists. rewrite lookup_insert_eq. split; [done|]. by right.
  - intros h' Hh'. by rewrite lookup_insert_ne.
Qed.

(** What one turn of the loop leaves alone. *)
Lemma store_step_frame comp (enc : bool) key c st :
  let w := ChunkStore.l_world st in
  let st' := store_step comp enc key st c in
  ChunkStore.storage_dir_ (ChunkStore.l_store st') =
    ChunkStore.storage_dir_ (ChunkStore.l_store st) ∧
  unreadable (ChunkStore.l_world st') = unreadable w ∧
  unwritable (ChunkStore.l_world st') = unwritable w ∧
  (∀ h, Database.chunk_exists h w = true →
     chunks (tables (ChunkStore.l_world st')) !! h = chunks (tables w) !! h) ∧
  (∀ p, files (ChunkStore.l_world st') !! p ≠ files w !! p →
     p = ChunkStore.get_chunk_path (ChunkStore.l_store st) (SHA256.hash_hex c) ∧
     Database.chunk_exists (SHA256.hash_hex c) w = false).
Proof.
  intros w st'. subst st'.
  pose proof (store_step_cases comp enc key c st) as Hcases. cbv zeta in Hcases.
  fold w in Hcases.
  destruct Hcases as [[Hex ->] | [(Hex & (w' & -> & Ht & Hf & Hr & Hw') & _)
    | (Hex & blob & w' & -> & _ & Hf & Hr & Hw' & _ & Htab)]]; simpl.
  - by split_and!.
  - rewrite Ht, Hf. by split_and!.
  - split_and!; [done..| |].
    + intros h Hh. destruct Htab as [->|(meta & _ & ->)]; [done|].
      apply lookup_insert_ne. intros <-. congruence.
    + intros p Hp. split; [|done].
      destruct (decide (p = ChunkStore.get_chunk_path (ChunkStore.l_store st)
                               (SHA256.hash_hex c))) as [->|Hne]; [done|].
      by rewrite Hf, lookup_insert_ne in Hp.
Qed.

Lemma chunk_exists_lookup h w w' :
  chunks (tables w') !! h = chunks (tables w) !! h →
  Database.chunk_exists h w' = Database.chunk_exists h w.
Proof. unfold Database.chunk_exists. by intros ->. Qed.

(** The loop on a source file that it does not overwrite: with fuel
    beyond the number of windows it ends, having handled the windows of
    the file from left to right. *)
Lemma store_loop_spec comp (enc : bool) key path content fuel : ∀ pos good st,
  files (ChunkStore.l_world st) !! path = Some content →
  (List.length (split_chunks (drop_N pos content)) < fuel)%nat →
  (good = false → drop_N pos content = []) →
  (∀ c, c ∈ split_chunks (drop_N pos content) →
     Database.chunk_exists (SHA256.hash_hex c) (ChunkStore.l_world st) = false →
     ChunkStore.get_chunk_path (ChunkStore.l_store st) (SHA256.hash_hex c) ≠ path) →
  ChunkStore.store_loop fuel comp enc key path pos good st =
    Some (foldl (store_step comp enc key) st (split_chunks (drop_N pos content))).
Proof.
  pose proof CHUNK_SIZE_pos as Hpos.
  induction fuel as [|fuel IH]; intros pos good st Hfile Hfuel Hgood Hapart; [lia|].
  destruct good.
  2: { rewrite store_loop_bad, (Hgood eq_refl), split_chunks_nil. done. }
  rewrite store_loop_good. cbv zeta. unfold ChunkStore.stream_read. rewrite Hfile.
  change (default [] (Some content)) with content.
  remember (drop_N pos content) as rest eqn:Hrest.
  pose proof (length_take_N CHUNK_SIZE rest) as Htake.
  destruct (decide (N.of_nat (List.length (take_N CHUNK_SIZE rest)) = 0%N)) as [Hz|Hnz].
  { assert (rest = []) as ->
      by (destruct rest; [done|rewrite Htake in Hz; simpl List.length in Hz; lia]).
    by rewrite split_chunks_nil. }
  assert (rest ≠ []) as Hne by (by intros Heq; rewrite Heq in Hnz).
  rewrite split_chunks_cons in Hfuel, Hapart |- * by done.
  assert (drop_N (pos + N.of_nat (List.length (take_N CHUNK_SIZE rest))) content =
          drop_N CHUNK_SIZE rest) as Hnext.
  { rewrite Hrest. by rewrite drop_N_add, drop_N_read. }
  pose proof (store_step_frame comp enc key (take_N CHUNK_SIZE rest) st)
    as (Hdir & _ & _ & Hknown & Hfiles). cbv zeta in Hdir, Hknown, Hfiles.
  rewrite IH; rewrite ?Hnext.
  - apply (f_equal Some). symmetry. apply foldl_cons_eq.
  - destruct (decide (files (ChunkStore.l_world
                               (store_step comp enc key st (take_N CHUNK_SIZE rest)))
                        !! path = files (ChunkStore.l_world st) !! path)) as [->|Hchg];
      [done|].
    destruct (Hfiles path Hchg) as [Hp Hnew]. exfalso.
    apply (Hapart (take_N CHUNK_SIZE rest)); [by left|done|done].
  - simpl in Hfuel. lia.
  - intros Hshort. apply bool_decide_eq_false in Hshort.
    apply drop_N_all. lia.
  - intros c Hc Hnew. unfold ChunkStore.get_chunk_path. rewrite Hdir.
    apply Hapart; [by right|].
    destruct (Database.chunk_exists (SHA256.hash_hex c) (ChunkStore.l_world st)) eqn:Hex;
      [|done].
    rewrite (chunk_exists_lookup _ _ _ (Hknown _ Hex)) in Hnew. congruence.
Qed.
End store_loop_facts.

(** * The manifest built by [store_file] *)

Section manifest_shape.
Context `{Primitives}.

Lemma prefix_sums_snoc start sizes s :
  prefix_sums start (sizes ++ [s]) = prefix_sums start sizes ++ [start + sum_sizes sizes].
Proof.
  revert start. induction sizes as [|x sizes IH]; intros start; simpl.
  - f_equal. unfold sum_sizes. simpl. lia.
  - rewrite IH. do 3 f_equal. unfold sum_sizes. simpl. lia.
Qed.

Lemma sum_sizes_snoc sizes s : sum_sizes (sizes ++ [s]) = sum_sizes sizes + s.
Proof.
  unfold sum_sizes. induction sizes as [|x sizes IH]; simpl; [lia|]. rewrite IH. lia.
Qed.

Lemma shape_inv_pushed kept st d c cs w :
  shape_inv kept st → shape_inv (kept ++ [c]) (pushed d c st cs w).
Proof.
  intros (Hh & Hs & Hi & Ho & Hidx & Hoff). unfold shape_inv, pushed. simpl.
  rewrite !fmap_app, Hh, Hs, Hi, Ho, Hidx, Hoff. simpl.
  rewrite length_app. simpl. rewrite seq_app, fmap_app. simpl.
  rewrite prefix_sums_snoc, fmap_app, sum_sizes_snoc. simpl.
  repeat split; try done.
  - unfold wrap32. rewrite Zplus_mod_idemp_l. f_equal. lia.
  - unfold wrap64. by rewrite Zplus_mod_idemp_l.
Qed.

Lemma shape_inv_set_world kept st w :
  shape_inv kept st → shape_inv kept (ChunkStore.loop_set_world w st).
Proof. done. Qed.

(** One turn of the loop appends the chunk it handled to the manifest,
    or skips it for one of the two reasons of the [continue]s. *)
Lemma store_step_shape comp (enc : bool) key c st kept :
  shape_inv kept st →
  ∃ keep : bool,
    shape_inv (kept ++ (if keep then [c] else [])) (store_step comp enc key st c) ∧
    ChunkStore.storage_dir_ (ChunkStore.l_store (store_step comp enc key st c)) =
      ChunkStore.storage_dir_ (ChunkStore.l_store st) ∧
    unwritable (ChunkStore.l_world (store_step comp enc key st c)) =
      unwritable (ChunkStore.l_world st) ∧
    (keep = false →
     (enc = true ∧ ∃ iv plaintext, EVP_aes_256_cbc_encrypt key iv plaintext = None)
     ∨ ChunkStore.get_chunk_path (ChunkStore.l_store st) (SHA256.hash_hex c)
         ∈ unwritable (ChunkStore.l_world st)).
Proof.
  intros Hinv.
  pose proof (store_step_cases comp enc key c st) as Hcases. cbv zeta in Hcases.
  destruct Hcases as [[_ ->]|[(_ & (w' & -> & _ & _ & _ & Hw) & Hwhy)|
                              (_ & blob & w' & -> & _ & _ & _ & Hw & _)]].
  - exists true. split; [by apply shape_inv_pushed|].
    simpl. repeat split; try done.
  - exists false. rewrite app_nil_r. split; [by apply shape_inv_set_world|].
    simpl. repeat split; try done.
  - exists true. split; [by apply shape_inv_pushed|].
    simpl. repeat split; try done.
Qed.

(** Along the loop the manifest describes a subsequence of the windows
    handled, and all of them when nothing makes the loop skip a chunk. *)
Lemma store_fold_shape comp (enc : bool) key windows : ∀ st kept,
  shape_inv kept st →
  let st' := foldl (store_step comp enc key) st windows in
  ∃ sub, sublist sub windows ∧ shape_inv (kept ++ sub) st' ∧
    ((enc = true → ∀ iv plaintext, is_Some (EVP_aes_256_cbc_encrypt key iv plaintext)) →
     (∀ c, c ∈ windows →
        ChunkStore.get_chunk_path (ChunkStore.l_store st) (SHA256.hash_hex c)
          ∉ unwritable (ChunkStore.l_world st)) →
     sub = windows).
Proof.
  induction windows as [|c windows IH]; intros st kept Hinv.
  - exists []. rewrite app_nil_r. simpl. split; [constructor|]. by split.
  - rewrite foldl_cons_eq.
    destruct (store_step_shape comp enc key c st kept Hinv)
      as (keep & Hinv' & Hdir & Hunw & Hskip).
    destruct (IH _ _ Hinv') as (sub & Hsub & Hshape & Hall).
    exists ((if keep then [c] else []) ++ sub). split; [|split].
    + destruct keep; simpl; [by apply sublist_skip|by apply sublist_cons].
    + by rewrite app_assoc.
    + intros Henc Hwr. rewrite Hall.
      * destruct keep; [done|]. exfalso.
        destruct (Hskip eq_refl) as [[-> (iv & p & Hnone)]|Hden].
        -- destruct (Henc eq_refl iv p) as [? Hsome]. congruence.
        -- apply (Hwr c); [left|done].
      * done.
      * intros c' Hc'. unfold ChunkStore.get_chunk_path. rewrite Hdir, Hunw.
        apply Hwr. by right.
Qed.


(** The three ways [store_file] returns. *)
Lemma store_file_cases fuel cs path comp (enc : bool) key job_id rel w out :
  ChunkStore.store_file fuel cs path comp enc key job_id rel w = Some out →
  (FileManifest.chunks out.1.1 = [] ∧ out.1.2 = cs ∧ out.2 = w ∧
   (files w !! path = None ∨ path ∈ unreadable w) ∧
   (files w !! path = None → FileManifest.file_size out.1.1 = 0)) ∨
  (∃ content st,
     files w !! path = Some content ∧ path ∉ unreadable w ∧
     ChunkStore.store_loop fuel comp enc key path 0 true (ChunkStore.mkLoop [] 0 0 cs w)
       = Some st ∧
     out = (manifest_of path rel content w st, ChunkStore.l_store st,
            (Database.store_file_manifest job_id (manifest_of path rel content w st)
               (ChunkStore.l_world st)).2)).
Proof.
  unfold ChunkStore.store_file, FS.stat, SHA256.hash_file, FS.read_file.
  destruct (files w !! path) as [content|] eqn:Hfile.
  2: { intros [= <-]. left. simpl. split_and!; auto. }
  destruct (decide (path ∈ unreadable w)) as [Hun|Hread].
  { intros [= <-]. left. simpl. split_and!; auto. done. }
  cbn [FS.st_size FS.st_mtime].
  destruct (ChunkStore.store_loop _ _ _ _ _ _ _ _) as [st|] eqn:Hloop; [|done].
  intros Hout. right. exists content, st. split_and!; [done..|].
  unfold manifest_of. destruct (Database.store_file_manifest _ _ _).
  by injection Hout as <-.
Qed.

(** [store_file] on a file that exists, can be read and is not
    overwritten while it is read. *)
Lemma store_file_readable fuel cs path comp (enc : bool) key job_id rel w content :
  files w !! path = Some content → path ∉ unreadable w →
  source_apart cs path content w →
  (List.length (split_chunks content) < fuel)%nat →
  let st := foldl (store_step comp enc key) (ChunkStore.mkLoop [] 0 0 cs w)
                  (split_chunks content) in
  ChunkStore.store_file fuel cs path comp enc key job_id rel w =
    Some (manifest_of path rel content w st, ChunkStore.l_store st,
          (Database.store_file_manifest job_id (manifest_of path rel content w st)
             (ChunkStore.l_world st)).2).
Proof.
  intros Hfile Hread Hapart Hfuel.
  unfold ChunkStore.store_file, FS.stat, SHA256.hash_file, FS.read_file.
  rewrite Hfile, decide_False by done. cbn [FS.st_size FS.st_mtime].
  rewrite (store_loop_spec comp enc key path content); rewrite ?drop_N_0; try done.
  cbv zeta. unfold manifest_of. by destruct (Database.store_file_manifest _ _ _).
Qed.


Lemma fuel_enough fuel (content : list byte) :
  chunk_count (Z.of_nat (List.length content)) < Z.of_nat fuel →
  (List.length (split_chunks content) < fuel)%nat.
Proof.
  pose proof (split_every_length CHUNK_SIZE CHUNK_SIZE_pos content) as Hl.
  fold (split_chunks content) in Hl.
  fold (chunk_count (Z.of_nat (List.length content))) in Hl. lia.
Qed.
End manifest_shape.

Section manifest_theorems.
Context `{Primitives}.

Lemma wrap32_small z : 0 ≤ z < 2 ^ 32 → wrap32 z = z.
Proof. intros Hz. unfold wrap32. by apply Z.mod_small. Qed.











End manifest_theorems.

(** * Store then restore *)

Section string_facts.
Lemma append_inv_head (p x y : string) : p +:+ x = p +:+ y → x = y.
Proof. induction p as [|a p IH]; simpl; [done|]. intros [= Heq]. by apply IH. Qed.

Lemma append_nonempty (p x : string) : x ≠ EmptyString → p +:+ x ≠ EmptyString.
Proof. by destruct p. Qed.

Lemma length_string_of_list_ascii (l : list ascii) :
  String.length (string_of_list_ascii l) = List.length l.
Proof. induction l as [|a l IH]; simpl; [done|]. by rewrite IH. Qed.

Lemma to_hex_length (digest : list byte) :
  String.length (SHA256.to_hex digest) = (2 * List.length digest)%nat.
Proof.
  unfold SHA256.to_hex. rewrite length_string_of_list_ascii.
  induction digest as [|b digest IH]; [done|].
  rewrite bind_cons, length_app, IH. simpl. lia.
Qed.

Lemma hash_hex_length `{Primitives} (data : list byte) :
  String.length (SHA256.hash_hex data) = SHA256_HEX_LEN.
Proof.
  unfold SHA256.hash_hex, SHA256.hash. rewrite to_hex_length, EVP_sha256_length. done.
Qed.

Lemma get_chunk_path_nonempty cs h : ChunkStore.get_chunk_path cs h ≠ EmptyString.
Proof. unfold ChunkStore.get_chunk_path. by apply append_nonempty. Qed.

(** Content addressing: different hashes live at different paths. *)
Lemma get_chunk_path_inj cs h h' :
  String.length h = SHA256_HEX_LEN → String.length h' = SHA256_HEX_LEN →
  ChunkStore.get_chunk_path cs h = ChunkStore.get_chunk_path cs h' → h = h'.
Proof.
  intros Hl Hl' Heq. unfold ChunkStore.get_chunk_path in Heq.
  apply append_inv_head in Heq.
  destruct h as [|a [|b [|c [|d r]]]]; try discriminate Hl.
  destruct h' as [|a' [|b' [|c' [|d' r']]]]; try discriminate Hl'.
  assert (Hsub : ∀ s, substring 0 0 s = EmptyString) by (by intros []).
  cbn in Heq. rewrite !Hsub in Heq. cbv [String.append] in Heq.
  congruence.
Qed.

(** *** Strings without a NUL *)

Lemma c_str_cons (c : ascii) (s : string) :
  c ≠ Ascii.zero → c_str (String c s) = String c (c_str s).
Proof. intros Hc. simpl. by rewrite (proj2 (Ascii.eqb_neq c Ascii.zero) Hc). Qed.

Lemma c_str_cons_inv (c : ascii) (s : string) :
  c_str (String c s) = String c s → c ≠ Ascii.zero ∧ c_str s = s.
Proof.
  simpl. destruct (Ascii.eqb_spec c Ascii.zero) as [->|Hc]; [done|].
  intros [= Heq]. done.
Qed.

Lemma c_str_idemp (s : string) : c_str (c_str s) = c_str s.
Proof.
  induction s as [|c s IH]; [done|].
  destruct (Ascii.eqb_spec c Ascii.zero) as [->|Hc]; [done|].
  by rewrite !c_str_cons, IH.
Qed.

Lemma c_str_append (a b : string) :
  c_str a = a → c_str (a +:+ b) = a +:+ c_str b.
Proof.
  induction a as [|c a IH]; [done|]. intros [Hc Ha]%c_str_cons_inv.
  change (String c a +:+ b) with (String c (a +:+ b)).
  rewrite c_str_cons by done. exact (f_equal (String c) (IH Ha)).
Qed.

Lemma c_str_append_id (a b : string) :
  c_str a = a → c_str b = b → c_str (a +:+ b) = a +:+ b.
Proof. intros Ha Hb. by rewrite c_str_append, Hb. Qed.

Lemma c_str_substring (n m : nat) (s : string) :
  c_str s = s → c_str (substring n m s) = substring n m s.
Proof.
  revert n m. induction s as [|c s IH]; intros n m Hs; [by destruct n, m|].
  apply c_str_cons_inv in Hs as [Hc Hs].
  destruct n as [|n]; [destruct m as [|m]|]; cbn [substring]; [done| |by apply IH].
  rewrite c_str_cons by done. by rewrite IH.
Qed.

Lemma c_str_of_list (l : list ascii) :
  Forall (λ c, c ≠ Ascii.zero) l →
  c_str (string_of_list_ascii l) = string_of_list_ascii l.
Proof.
  induction 1 as [|c l Hc _ IH]; [done|].
  cbn [string_of_list_ascii]. by rewrite c_str_cons, IH.
Qed.

Lemma hex_digit_not_zero (n : N) : SHA256.hex_digit n ≠ Ascii.zero.
Proof.
  unfold SHA256.hex_digit. generalize (N.to_nat n). intros k.
  do 16 (destruct k as [|k]; [cbn; discriminate|]). destruct k; cbn; discriminate.
Qed.

(** A hexadecimal rendering holds no NUL. *)
Lemma c_str_to_hex (digest : list byte) :
  c_str (SHA256.to_hex digest) = SHA256.to_hex digest.
Proof.
  unfold SHA256.to_hex. apply c_str_of_list.
  induction digest as [|b digest IH]; [constructor|].
  rewrite bind_cons. apply Forall_app. split; [|done].
  repeat constructor; apply hex_digit_not_zero.
Qed.

Lemma c_str_get_chunk_path cs (digest : list byte) :
  c_str (ChunkStore.storage_dir_ cs) = ChunkStore.storage_dir_ cs →
  c_str (ChunkStore.get_chunk_path cs (SHA256.to_hex digest)) =
    ChunkStore.get_chunk_path cs (SHA256.to_hex digest).
Proof.
  intros Hdir. unfold ChunkStore.get_chunk_path.
  pose proof (c_str_to_hex digest) as Hhex.
  repeat (apply c_str_append_id; [done || by apply c_str_substring|]).
  done.
Qed.
End string_facts.

Section round_trip.
Context `{Primitives}.
Variables (comp : CompressionType) (key : list byte).

(** [restore_chunk] reads the hash and the size of the chunk reference,
    one path of the chunk index or the metadata store, and the file at
    that path. *)
Lemma restore_chunk_stable (enc : bool) cs cs' w w' (a b : ChunkInfo.t) :
  ChunkInfo.hash a = ChunkInfo.hash b → ChunkInfo.size a = ChunkInfo.size b →
  chunk_path_of cs' w' (ChunkInfo.hash a) = chunk_path_of cs w (ChunkInfo.hash a) →
  FS.read_file (chunk_path_of cs w (ChunkInfo.hash a)) w' =
    FS.read_file (chunk_path_of cs w (ChunkInfo.hash a)) w →
  ChunkStore.restore_chunk cs' comp enc key b w' =
  ChunkStore.restore_chunk cs comp enc key a w.
Proof.
  intros Hh Hs Hp Hf. unfold ChunkStore.restore_chunk.
  rewrite <- Hh, <- Hs. fold (chunk_path_of cs' w' (ChunkInfo.hash a)).
  fold (chunk_path_of cs w (ChunkInfo.hash a)). by rewrite Hp, Hf.
Qed.

Lemma compressed_or_raw_nonempty c :
  c ≠ [] → codec_inverts comp c → compressed_or_raw comp c ≠ [].
Proof.
  intros Hne Hcodec. unfold compressed_or_raw.
  destruct (decide (comp ≠ NONE)) as [Hc|_]; [|done].
  destruct (Hcodec Hc) as [Hz _]. by destruct (Compressor.compress c comp).
Qed.

Lemma decompress_compressed_or_raw c :
  codec_inverts comp c → comp ≠ NONE →
  Compressor.decompress (compressed_or_raw comp c) (List.length c) comp = c.
Proof.
  intros Hcodec Hc. destruct (Hcodec Hc) as [Hz Hinv]. unfold compressed_or_raw.
  rewrite decide_True by done. cbv zeta.
  by destruct (Compressor.compress c comp).
Qed.

Lemma decrypt_encoded enc c blob :
  enc = true → decrypt_inverts key → encodes comp enc key c blob →
  AES256.decrypt blob key = compressed_or_raw comp c.
Proof.
  intros -> Hinv (iv & ct & Hiv & Henc & ->). unfold AES256.decrypt.
  rewrite decide_False by (rewrite length_app; lia).
  rewrite take_app_length' , drop_app_length' by done.
  by rewrite (Hinv _ _ _ Hiv Henc).
Qed.

(** A chunk file written by [store_file] decodes to the chunk. *)
Lemma restore_chunk_encoded (enc : bool) cs w c blob (ci : ChunkInfo.t) :
  c ≠ [] → codec_inverts comp c → (enc = true → decrypt_inverts key) →
  ChunkInfo.hash ci = SHA256.hash_hex c →
  ChunkInfo.size ci = Z.of_nat (List.length c) →
  FS.read_file (chunk_path_of cs w (SHA256.hash_hex c)) w = Some blob →
  chunk_path_of cs w (SHA256.hash_hex c) ≠ EmptyString →
  encodes comp enc key c blob →
  ChunkStore.restore_chunk cs comp enc key ci w = Some c.
Proof.
  intros Hne Hcodec Hcrypto Hh Hs Hread Hpath Hblob. unfold ChunkStore.restore_chunk.
  rewrite Hh, Hs, Nat2Z.id. fold (chunk_path_of cs w (SHA256.hash_hex c)).
  rewrite decide_False, Hread by done.
  assert ((if enc then AES256.decrypt blob key else blob) = compressed_or_raw comp c)
    as ->.
  { destruct enc eqn:He; [|done]. apply (decrypt_encoded true); auto. }
  pose proof (compressed_or_raw_nonempty c Hne Hcodec) as Hraw.
  assert ((if decide (comp ≠ NONE)
           then Compressor.decompress (compressed_or_raw comp c) (List.length c) comp
           else compressed_or_raw comp c) = c) as Hdec.
  { destruct (decide (comp ≠ NONE)) as [Hc|Hc]; [by apply decompress_compressed_or_raw|].
    unfold compressed_or_raw. by rewrite decide_False. }
  assert (∀ body : option (list byte),
    match enc, compressed_or_raw comp c with
    | true, [] => None
    | _, _ => body
    end = body) as ->.
  { intros body. destruct enc; [|done]. by destruct (compressed_or_raw comp c). }
  rewrite Hdec. rewrite decide_False by (by intros [_ ?]).
  by rewrite decide_False by (intros Hx; by apply Hx).
Qed.

Lemma get_chunk_path_dir cs cs' h :
  ChunkStore.storage_dir_ cs' = ChunkStore.storage_dir_ cs →
  ChunkStore.get_chunk_path cs' h = ChunkStore.get_chunk_path cs h.
Proof. unfold ChunkStore.get_chunk_path. by intros ->. Qed.

Lemma read_file_stable p w w' :
  files w' !! p = files w !! p → unreadable w' = unreadable w →
  FS.read_file p w' = FS.read_file p w.
Proof. unfold FS.read_file. by intros -> ->. Qed.

(** What is held stays held as long as the path of the chunk and the
    file at that path stay as they are. *)
Lemma store_holds_stable (enc : bool) cs cs' w w' c :
  store_holds cs comp enc key w c →
  ChunkStore.storage_dir_ cs' = ChunkStore.storage_dir_ cs →
  chunk_path_of cs' w' (SHA256.hash_hex c) = chunk_path_of cs w (SHA256.hash_hex c) →
  files w' !! ChunkStore.get_chunk_path cs (SHA256.hash_hex c) =
    files w !! ChunkStore.get_chunk_path cs (SHA256.hash_hex c) →
  unreadable w' = unreadable w →
  store_holds cs' comp enc key w' c.
Proof.
  intros [Hp Hr] Hdir Hp' Hf Hu. split.
  - by rewrite Hp', Hp, (get_chunk_path_dir cs cs').
  - rewrite <- Hr. apply restore_chunk_stable; [done..|].
    simpl. rewrite Hp. by apply read_file_stable.
Qed.
End round_trip.

Section round_trip_loop.
Context `{Primitives}.
Variables (comp : CompressionType) (key : list byte).
Variables (cs0 : ChunkStore.t) (w0 : World) (windows : list (list byte)).

Lemma chunk_exists_insert_ne h h' path w w' :
  h' ≠ h →
  chunks (tables w') = chunks (tables w) ∨
    (∃ meta, ChunkMeta.storage_path meta = path ∧
             chunks (tables w') = <[h := meta]> (chunks (tables w))) →
  Database.chunk_exists h' w' = Database.chunk_exists h' w ∧
  Database.get_chunk_path h' w' = Database.get_chunk_path h' w.
Proof.
  intros Hne Ht. unfold Database.chunk_exists, Database.get_chunk_path.
  destruct Ht as [-> | (meta & _ & ->)]; [done|]. by rewrite lookup_insert_ne.
Qed.

Lemma holds_all_step (enc : bool) gathered st c :
  windows_ok cs0 w0 comp enc key windows → c ∈ windows → (∀ c', c' ∈ gathered → c' ∈ windows) →
  holds_all cs0 w0 comp enc key windows gathered st →
  holds_all cs0 w0 comp enc key windows (gathered ++ [c]) (store_step comp enc key st c).
Proof.
  unfold windows_ok, holds_all.
  intros (Hcrypto & Hnofail & Hwin & Hcoll) Hc Hsub (Hgath & Hknown & Hur & Huw & Hdir).
  destruct (Hwin c Hc) as (Hne & Hcodec & Hread & Hwrite).
  pose proof (store_step_cases comp enc key c st) as Hcases. cbv zeta in Hcases.
  rewrite (get_chunk_path_dir cs0 _ _ Hdir) in Hcases.
  destruct Hcases as [[Hex ->] | [(Hex & _ & Hwhy) | (Hex & blob & w' & -> & Henc & Hfiles & Hur' & Huw' & _ & Htab)]].
  - (* deduplicated *)
    split_and!; try done. simpl. intros c' [Hc'|Hc']%elem_of_app; [by apply Hgath|].
    apply list_elem_of_singleton in Hc' as ->. by apply Hknown.
  - (* skipped: excluded *)
    exfalso. destruct Hwhy as [[He (iv & p & Hnone)] | Hden].
    + destruct (Hnofail He iv p) as [? Hsome]. congruence.
    + by rewrite Huw in Hden.
  - (* stored *)
    set (h := SHA256.hash_hex c) in *. set (cs := ChunkStore.l_store st) in *.
    set (w := ChunkStore.l_world st) in *.
    assert (store_holds (stored_store cs h) comp enc key w' c) as Hnew.
    { assert (chunk_path_of (stored_store cs h) w' h = ChunkStore.get_chunk_path cs0 h) as Hp.
      { unfold chunk_path_of, stored_store. simpl. rewrite lookup_insert_eq.
        by apply get_chunk_path_dir. }
      split; fold h; [rewrite Hp; symmetry; by apply get_chunk_path_dir|].
      apply (restore_chunk_encoded comp key enc _ _ c blob); try done.
      - fold h. rewrite Hp. unfold FS.read_file. rewrite Hur', Hur, decide_False by done.
        rewrite Hfiles. by rewrite lookup_insert_eq.
      - fold h. rewrite Hp. apply get_chunk_path_nonempty. }
    assert (∀ c', c' ∈ windows → store_holds cs comp enc key w c' →
              store_holds (stored_store cs h) comp enc key w' c') as Hkeep.
    { intros c' Hc' Hheld. destruct (decide (SHA256.hash_hex c' = h)) as [Heq|Hneq].
      { by rewrite (Hcoll c' c Hc' Hc Heq). }
      destruct (chunk_exists_insert_ne h (SHA256.hash_hex c') _ w w' Hneq Htab) as [_ Hgp].
      apply (store_holds_stable comp key enc cs _ w); try done.
      - unfold chunk_path_of, stored_store. simpl. by rewrite lookup_insert_ne, Hgp.
      - rewrite Hfiles, lookup_insert_ne; [done|].
        rewrite <- (get_chunk_path_dir cs0 cs h Hdir). intros Heq. apply Hneq. symmetry.
        apply (get_chunk_path_inj cs); [apply hash_hex_length..|done]. }
    split_and!; simpl; try congruence.
    + intros c' [Hc'|Hc']%elem_of_app; [by apply Hkeep; auto|].
      by apply list_elem_of_singleton in Hc' as ->.
    + intros c' Hc' Hex'. destruct (decide (SHA256.hash_hex c' = h)) as [Heq|Hneq].
      { by rewrite (Hcoll c' c Hc' Hc Heq). }
      apply Hkeep; [done|]. apply Hknown; [done|].
      destruct (chunk_exists_insert_ne h (SHA256.hash_hex c') _ w w' Hneq Htab) as [Hce _].
      by rewrite <- Hce.
Qed.
End round_trip_loop.

Section round_trip_theorem.
Context `{Primitives}.
Variables (comp : CompressionType) (key : list byte).

Lemma holds_all_fold cs0 w0 windows (enc : bool) todo : ∀ gathered st,
  windows_ok cs0 w0 comp enc key windows →
  (∀ c, c ∈ todo → c ∈ windows) → (∀ c, c ∈ gathered → c ∈ windows) →
  holds_all cs0 w0 comp enc key windows gathered st →
  holds_all cs0 w0 comp enc key windows (gathered ++ todo)
            (foldl (store_step comp enc key) st todo).
Proof.
  induction todo as [|c todo IH]; intros gathered st Hok Htodo Hgath Hinv.
  - by rewrite app_nil_r.
  - rewrite foldl_cons_eq. replace (gathered ++ c :: todo) with ((gathered ++ [c]) ++ todo)
      by (by rewrite <- app_assoc).
    apply IH; [done| |  |].
    + intros c' Hc'. apply Htodo. by right.
    + intros c' [Hc'|Hc']%elem_of_app; [by apply Hgath|].
      apply list_elem_of_singleton in Hc' as ->. apply Htodo. by left.
    + apply holds_all_step; [done| |done..]. apply Htodo. by left.
Qed.

Lemma append_files dest data w :
  files (FS.append dest data w) = <[dest := default [] (files w !! dest) ++ data]> (files w) ∧
  tables (FS.append dest data w) = tables w ∧
  unreadable (FS.append dest data w) = unreadable w.
Proof. done. Qed.

(** The restore loop over chunks the store holds: every chunk is decoded
    and appended to the destination. *)
Lemma restore_chunks_held (enc : bool) cs dest : ∀ (l : list (list byte)) infos w old,
  ChunkInfo.hash <$> infos = SHA256.hash_hex <$> l →
  ChunkInfo.size <$> infos = (λ c, Z.of_nat (List.length c)) <$> l →
  (∀ c, c ∈ l → store_holds cs comp enc key w c ∧
                ChunkStore.get_chunk_path cs (SHA256.hash_hex c) ≠ dest) →
  files w !! dest = Some old →
  let out := ChunkStore.restore_chunks cs comp enc key dest infos w in
  out.1 = true ∧
  files out.2 !! dest = Some (old ++ List.concat l) ∧
  unreadable out.2 = unreadable w.
Proof.
  induction l as [|c l IH]; intros infos w old Hh Hs Hheld Hold.
  - apply fmap_nil_inv in Hh as ->. simpl. by rewrite app_nil_r.
  - destruct infos as [|ci infos]; [done|]. csimpl in Hh; csimpl in Hs.
    injection Hh as Hh1 Hh. injection Hs as Hs1 Hs.
    destruct (Hheld c ltac:(by left)) as [[Hp Hr] Hapart].
    cbn [ChunkStore.restore_chunks].
    assert (ChunkStore.restore_chunk cs comp enc key ci w = Some c) as ->.
    { rewrite <- Hr. by apply restore_chunk_stable. }
    destruct (append_files dest c w) as (Hf & Ht & Hu).
    destruct (IH infos (FS.append dest c w) (old ++ c) Hh Hs) as (Hok & Hdest & Hun).
    + intros c' Hc'. destruct (Hheld c' ltac:(by right)) as [Hheld' Hapart'].
      split; [|done]. apply (store_holds_stable comp key enc cs cs w); try done.
      rewrite Hf. by rewrite lookup_insert_ne.
    + rewrite Hf, lookup_insert_eq, Hold. done.
    + cbv zeta. rewrite Hok, Hdest, Hun, Hu. simpl. by rewrite <- app_assoc.
Qed.

(** The store and the world [store_file] leaves hold every chunk of the
    file, and the manifest names them in order. *)
Lemma store_file_holds fuel cs file_path dest_path (enc : bool) job_id relative_path w
    content :
  files w !! file_path = Some content →
  (List.length (split_chunks content) < fuel)%nat →
  round_trip_ready cs comp enc key file_path dest_path content w →
  ∃ stored,
    ChunkStore.store_file fuel cs file_path comp enc key job_id relative_path w
      = Some stored ∧
    ChunkInfo.hash <$> FileManifest.chunks stored.1.1 =
      SHA256.hash_hex <$> split_chunks content ∧
    ChunkInfo.size <$> FileManifest.chunks stored.1.1 =
      (λ c, Z.of_nat (List.length c)) <$> split_chunks content ∧
    FileManifest.file_hash stored.1.1 = SHA256.hash_hex content ∧
    (∀ c, c ∈ split_chunks content → store_holds stored.1.2 comp enc key stored.2 c) ∧
    unreadable stored.2 = unreadable w ∧ unwritable stored.2 = unwritable w ∧
    ChunkStore.storage_dir_ stored.1.2 = ChunkStore.storage_dir_ cs.
Proof.
  intros Hfile Hfuel
    [Hsrc (Hread & Hnofail & Hwrite) Hcrypto Hcodec Hcoll Hcread Hdw Hdr Hapart Hknown].
  pose proof (store_file_readable fuel cs file_path comp enc key job_id relative_path w
                content Hfile Hread Hsrc Hfuel) as Hrun. cbv zeta in Hrun.
  eexists. split; [exact Hrun|]. cbn [fst snd]. clear Hrun.
  set (windows := split_chunks content) in *.
  set (st0 := ChunkStore.mkLoop [] 0 0 cs w).
  set (st := foldl (store_step comp enc key) st0 windows).
  assert (∀ c, c ∈ windows → c ≠ [] ∧ Z.of_nat (List.length c) ≤ 65536) as Hbounds.
  { intros c Hc.
    destruct (split_every_bounds CHUNK_SIZE CHUNK_SIZE_pos content c Hc) as (Hne & Hle & _).
    split; [done|]. pose proof CHUNK_SIZE_eq. lia. }
  assert (windows_ok cs w comp enc key windows) as Hok.
  { split_and!; try done. intros c Hc. split_and!; auto. by apply Hbounds. }
  (* the store holds every chunk of the file after the loop *)
  pose proof (holds_all_fold cs w windows enc windows [] st0 Hok) as Hinv.
  rewrite app_nil_l in Hinv. fold st in Hinv.
  destruct Hinv as (Hheld & _ & Hur & Huw & Hdir); [done|by intros ? ?%elem_of_nil| |].
  { split_and!; try done. by intros ? ?%elem_of_nil. }
  (* the manifest names the chunks of the file, in order *)
  destruct (store_fold_shape comp enc key windows st0 [])
    as (kept & _ & (Hh & Hs & _) & Hall). { by repeat split. }
  cbv zeta in Hall. rewrite (Hall Hnofail Hwrite) in *. clear Hall kept.
  rewrite app_nil_l in *. fold st in Hh, Hs.
  set (manifest := manifest_of _ _ _ _ _).
  (* storing the manifest touches no chunk *)
  destruct (store_file_manifest_chunks job_id manifest (ChunkStore.l_world st))
    as [(Hf1 & _ & Hur1 & Huw1 & _) Hc1].
  set (w1 := (Database.store_file_manifest job_id manifest (ChunkStore.l_world st)).2) in *.
  split_and!; [done| |done| |congruence..|done].
  - simpl. rewrite Hs. apply list_fmap_ext. intros i c Hc. apply wrap32_small.
    apply list_elem_of_lookup_2 in Hc. destruct (Hbounds c Hc). lia.
  - intros c Hc.
    apply (store_holds_stable comp key enc (ChunkStore.l_store st) _ (ChunkStore.l_world st));
      [by apply Hheld|done| |by rewrite Hf1|done].
    unfold chunk_path_of, Database.get_chunk_path. by rewrite Hc1.
Qed.

(** [restore_file] through a store that holds the chunks a manifest
    names: the destination gets their bytes, in order. *)
Lemma restore_file_held (enc : bool) rs manifest dest_path w (l : list (list byte)) :
  ChunkInfo.hash <$> FileManifest.chunks manifest = SHA256.hash_hex <$> l →
  ChunkInfo.size <$> FileManifest.chunks manifest = (λ c, Z.of_nat (List.length c)) <$> l →
  FileManifest.file_hash manifest = SHA256.hash_hex (List.concat l) →
  (∀ c, c ∈ l → store_holds rs comp enc key w c ∧
                ChunkStore.get_chunk_path rs (SHA256.hash_hex c) ≠ dest_path) →
  dest_path ∉ unwritable w → dest_path ∉ unreadable w →
  let restored := ChunkStore.restore_file rs manifest dest_path comp enc key w in
  restored.1 = true ∧ FS.read_file dest_path restored.2 = Some (List.concat l).
Proof.
  intros Hh Hs Hfh Hheld Hdw Hdr.
  unfold ChunkStore.restore_file, FS.open_trunc.
  rewrite decide_False by done.
  set (w2 := set_files _ w).
  destruct (restore_chunks_held enc rs dest_path l (FileManifest.chunks manifest) w2 [])
    as (Hrok & Hrdest & Hrun); [done|done| | |].
  - intros c Hc. destruct (Hheld c Hc) as [Hc1 Hc2]. split; [|done].
    apply (store_holds_stable comp key enc rs rs w); [done..| |done].
    simpl. by rewrite lookup_insert_ne.
  - simpl. by rewrite lookup_insert_eq.
  - cbv zeta in Hrok, Hrdest, Hrun.
    destruct (ChunkStore.restore_chunks _ _ _ _ _ _ w2) as [ok w3]. simpl in *. subst ok.
    simpl.
    assert (FS.read_file dest_path w3 = Some (List.concat l)) as Hfinal.
    { unfold FS.read_file. rewrite Hrun. by rewrite decide_False. }
    unfold SHA256.hash_file. rewrite Hfinal, Hfh.
    rewrite decide_False; [done|]. intros Hx. by apply Hx.
Qed.

(** X29.  The round trip through the chunk store object that stored the
    file.  A file that [store_file] stores is restored by [restore_file],
    by the store [store_file] leaves and under the same compression,
    encryption flag and key, to a destination with the bytes of the file,
    and [restore_file] returns true, provided that [store_file] does not
    overwrite the file while reading it and skips no chunk, decryption
    inverts encryption under the key, decompression inverts compression
    on the chunks of the file, no two different chunks of the file have
    the same hash, the chunk files and the destination can be opened and
    the destination is none of the chunk files, and every chunk of the
    file that the metadata store already records can be decoded under
    the same settings. *)
Theorem store_then_restore_round_trip fuel cs file_path dest_path (enc : bool) job_id
    relative_path w content :
  files w !! file_path = Some content →
  chunk_count (Z.of_nat (List.length content)) < Z.of_nat fuel →
  round_trip_ready cs comp enc key file_path dest_path content w →
  ∃ stored,
    ChunkStore.store_file fuel cs file_path comp enc key job_id relative_path w
      = Some stored ∧
    let restored :=
      ChunkStore.restore_file stored.1.2 stored.1.1 dest_path comp enc key stored.2 in
    restored.1 = true ∧ FS.read_file dest_path restored.2 = Some content.
Proof.
  intros Hfile Hfuel Hready.
  destruct (store_file_holds fuel cs file_path dest_path enc job_id relative_path w
              content Hfile (fuel_enough _ _ Hfuel) Hready)
    as (stored & Hrun & Hh & Hs & Hfh & Hheld & Hur & Huw & Hdir).
  exists stored. split; [done|].
  destruct Hready as [_ _ _ _ _ _ Hdw Hdr Hapart _].
  assert (List.concat (split_chunks content) = content) as Hcat
    by apply (split_every_concat CHUNK_SIZE CHUNK_SIZE_pos).
  pose proof (restore_file_held enc stored.1.2 stored.1.1 dest_path stored.2
                (split_chunks content) Hh Hs) as Hback.
  rewrite Hcat in Hback. apply Hback; [done| |by rewrite Huw|by rewrite Hur].
  intros c Hc. split; [by apply Hheld|].
  rewrite (get_chunk_path_dir cs _ _ Hdir). by apply Hapart.
Qed.
End round_trip_theorem.

(** * Store, then restore through another chunk store object *)

Section round_trip_by_another_store.
Context `{Primitives}.
Variables (comp : CompressionType) (key : list byte).

Lemma pushed_grows d c st cs w :
  ChunkStore.l_chunks (pushed d c st cs w) ≠ ChunkStore.l_chunks st.
Proof.
  unfold pushed. simpl. intros Heq. apply (f_equal List.length) in Heq.
  rewrite length_app in Heq. simpl in Heq. lia.
Qed.

(** With an SQLite that does not fail and when no chunk is skipped, the
    metadata store records every chunk the loop handles, the new ones at
    their content-addressed path. *)
Lemma recorded_fold cs0 w0 windows (enc : bool) : ∀ todo st,
  windows_ok cs0 w0 comp enc key windows →
  c_str (ChunkStore.storage_dir_ cs0) = ChunkStore.storage_dir_ cs0 →
  (∀ c, c ∈ todo → c ∈ windows) →
  sqlite_faults (ChunkStore.l_world st) = [] →
  unwritable (ChunkStore.l_world st) = unwritable w0 →
  ChunkStore.storage_dir_ (ChunkStore.l_store st) = ChunkStore.storage_dir_ cs0 →
  (∀ c, c ∈ windows →
     Database.chunk_exists (SHA256.hash_hex c) (ChunkStore.l_world st) = true →
     Database.get_chunk_path (SHA256.hash_hex c) (ChunkStore.l_world st) =
       ChunkStore.get_chunk_path cs0 (SHA256.hash_hex c)) →
  let st' := foldl (store_step comp enc key) st todo in
  (∀ c, c ∈ windows →
     Database.chunk_exists (SHA256.hash_hex c) (ChunkStore.l_world st') = true →
     Database.get_chunk_path (SHA256.hash_hex c) (ChunkStore.l_world st') =
       ChunkStore.get_chunk_path cs0 (SHA256.hash_hex c)) ∧
  (∀ c, c ∈ todo →
     Database.chunk_exists (SHA256.hash_hex c) (ChunkStore.l_world st') = true) ∧
  (∀ h, Database.chunk_exists h (ChunkStore.l_world st) = true →
     Database.chunk_exists h (ChunkStore.l_world st') = true).
Proof.
  induction todo as [|c todo IH]; intros st Hok Hnul Htodo Hf Huw Hdir Hrec.
  - simpl. split_and!; [done| |done]. by intros c ?%elem_of_nil.
  - cbv zeta. rewrite foldl_cons_eq.
    assert (c ∈ windows) as Hc by (apply Htodo; by left).
    pose proof (store_step_recorded comp enc key c st) as Hstep.
    cbv zeta in Hstep. destruct (Hstep Hf) as (Hf' & Hnew & Hother). clear Hstep.
    pose proof (store_step_frame comp enc key c st) as (Hdir' & _ & Huw' & Hknown & _).
    cbv zeta in Hdir', Huw', Hknown.
    (* the turn appends a chunk reference *)
    assert (ChunkStore.l_chunks (store_step comp enc key st c) ≠ ChunkStore.l_chunks st)
      as Hgrows.
    { pose proof (store_step_cases comp enc key c st) as Hcases. cbv zeta in Hcases.
      destruct Hok as (_ & Hnofail & Hwin & _).
      destruct (Hwin c Hc) as (_ & _ & _ & Hwrite).
      destruct Hcases as [[_ ->]|[(_ & _ & Hwhy)|(_ & blob & w' & -> & _)]];
        [apply pushed_grows| |apply pushed_grows].
      exfalso. destruct Hwhy as [[He (iv & p & Hnone)]|Hden].
      - destruct (Hnofail He iv p) as [? Hsome]. congruence.
      - rewrite (get_chunk_path_dir cs0 _ _ Hdir), Huw in Hden. done. }
    destruct Hnew as [Hsame|(meta & Hmeta & Hwhere)]; [done|].
    set (st1 := store_step comp enc key st c) in *.
    assert (∀ c', c' ∈ windows →
              Database.chunk_exists (SHA256.hash_hex c') (ChunkStore.l_world st1) = true →
              Database.get_chunk_path (SHA256.hash_hex c') (ChunkStore.l_world st1) =
                ChunkStore.get_chunk_path cs0 (SHA256.hash_hex c')) as Hrec1.
    { intros c' Hc' Hex'.
      destruct (decide (SHA256.hash_hex c' = SHA256.hash_hex c)) as [Heq|Hne].
      - rewrite Heq in *. unfold Database.get_chunk_path. rewrite Hmeta.
        destruct Hwhere as [Hold|Hpath].
        + specialize (Hrec c Hc). unfold Database.get_chunk_path, Database.chunk_exists in Hrec.
          rewrite Hold in Hrec. apply Hrec. apply bool_decide_eq_true. by eexists.
        + rewrite Hpath, (get_chunk_path_dir cs0 _ _ Hdir).
          unfold Database.column_text, SHA256.hash_hex. by apply c_str_get_chunk_path.
      - unfold Database.get_chunk_path, Database.chunk_exists in *.
        rewrite (Hother _ Hne) in *. by apply Hrec. }
    destruct (IH st1 Hok Hnul) as (IH1 & IH2 & IH3); [|done|congruence|congruence|done|].
    { intros c' Hc'. apply Htodo. by right. }
    assert (∀ h, Database.chunk_exists h (ChunkStore.l_world st) = true →
                 Database.chunk_exists h (ChunkStore.l_world st1) = true) as Hmono.
    { intros h Hh. by rewrite (chunk_exists_lookup _ _ _ (Hknown h Hh)). }
    split_and!; [done| |by auto].
    intros c' [->|Hc']%elem_of_cons; [|by apply IH2].
    apply IH3. unfold Database.chunk_exists. rewrite Hmeta.
    apply bool_decide_eq_true. by eexists.
Qed.

(** X30.  The round trip through another chunk store object, as a
    restore in a later run makes it.  A file that [store_file] stores is
    restored by [restore_file], by any chunk store object on the same
    storage directory whose index names content-addressed paths only (a
    new object among them) and under the same compression, encryption
    flag and key, to a destination with the bytes of the file, and
    [restore_file] returns true.  This holds under the conditions of the
    round trip through the storing object, when in addition SQLite
    carries out every step, the storage directory holds no NUL, and the
    metadata store records the chunks of the file that it already knows
    at their content-addressed paths. *)
Theorem store_then_restore_by_another_store fuel cs rs file_path dest_path (enc : bool)
    job_id relative_path w content :
  files w !! file_path = Some content →
  chunk_count (Z.of_nat (List.length content)) < Z.of_nat fuel →
  round_trip_ready cs comp enc key file_path dest_path content w →
  sqlite_faults w = [] →
  c_str (ChunkStore.storage_dir_ cs) = ChunkStore.storage_dir_ cs →
  (∀ c, c ∈ split_chunks content →
     Database.chunk_exists (SHA256.hash_hex c) w = true →
     Database.get_chunk_path (SHA256.hash_hex c) w =
       ChunkStore.get_chunk_path cs (SHA256.hash_hex c)) →
  ChunkStore.storage_dir_ rs = ChunkStore.storage_dir_ cs →
  (∀ h p, ChunkStore.chunk_index_ rs !! h = Some p → p = ChunkStore.get_chunk_path rs h) →
  ∃ stored,
    ChunkStore.store_file fuel cs file_path comp enc key job_id relative_path w
      = Some stored ∧
    let restored :=
      ChunkStore.restore_file rs stored.1.1 dest_path comp enc key stored.2 in
    restored.1 = true ∧ FS.read_file dest_path restored.2 = Some content.
Proof.
  intros Hfile Hfuel Hready Hf Hnul Hrec Hrs Hindex.
  destruct (store_file_holds comp key fuel cs file_path dest_path enc job_id relative_path
              w content Hfile (fuel_enough _ _ Hfuel) Hready)
    as (stored & Hrun & Hh & Hs & Hfh & Hheld & Hur & Huw & Hdir).
  exists stored. split; [done|].
  destruct Hready
    as [Hsrc (Hread & Hnofail & Hwrite) Hcrypto Hcodec Hcoll Hcread Hdw Hdr Hapart Hknown].
  (* the metadata store records every chunk of the file at its path *)
  pose proof (store_file_readable fuel cs file_path comp enc key job_id relative_path w
                content Hfile Hread Hsrc (fuel_enough _ _ Hfuel)) as Hrun'.
  cbv zeta in Hrun'. rewrite Hrun in Hrun'. injection Hrun' as Hstored.
  set (windows := split_chunks content) in *.
  set (st0 := ChunkStore.mkLoop [] 0 0 cs w) in *.
  assert (windows_ok cs w comp enc key windows) as Hok.
  { split_and!; try done. intros c Hc. split_and!; auto.
    by destruct (split_every_bounds CHUNK_SIZE CHUNK_SIZE_pos content c Hc). }
  destruct (recorded_fold cs w windows enc windows st0 Hok Hnul) as (Hpaths & Hall & _);
    [done..|].
  cbv zeta in Hpaths, Hall. set (st := foldl _ st0 windows) in *.
  destruct (store_file_manifest_chunks job_id (manifest_of file_path relative_path content
                                                 w st) (ChunkStore.l_world st))
    as [_ Hc1].
  assert (∀ c, c ∈ windows →
            Database.get_chunk_path (SHA256.hash_hex c) stored.2 =
              ChunkStore.get_chunk_path cs (SHA256.hash_hex c)) as Hdb.
  { intros c Hc. rewrite Hstored. cbn [snd].
    rewrite <- (Hpaths c Hc (Hall c Hc)). unfold Database.get_chunk_path. by rewrite Hc1. }
  assert (List.concat windows = content) as Hcat
    by apply (split_every_concat CHUNK_SIZE CHUNK_SIZE_pos).
  pose proof (restore_file_held comp key enc rs stored.1.1 dest_path stored.2 windows
                Hh Hs) as Hback.
  rewrite Hcat in Hback. apply Hback; [done| |by rewrite Huw|by rewrite Hur].
  intros c Hc. rewrite (get_chunk_path_dir cs rs _ Hrs). split; [|by apply Hapart].
  destruct (Hheld c Hc) as [Hp Hr].
  apply (store_holds_stable comp key enc stored.1.2 rs stored.2 stored.2);
    [by split|congruence| |done|done].
  rewrite Hp, (get_chunk_path_dir cs _ _ Hdir). unfold chunk_path_of.
  destruct (ChunkStore.chunk_index_ rs !! SHA256.hash_hex c) as [p|] eqn:Hidx.
  - rewrite (Hindex _ _ Hidx). by apply get_chunk_path_dir.
  - by apply Hdb.
Qed.
End round_trip_by_another_store.

(** * Failure cascade of the scheduler, at a concrete schedule *)

(** C5, at the schedule [J1; J2 depending on J1; J3]: [mark_failed J1] sets
    [J1] to FAILED and its dependent [J2] to CANCELLED, leaves [J3] PENDING
    and removes [J1] from the graph, but the message "Dependency job 1
    failed" handed to [update_job_status] is not persisted: the statement
    for CANCELLED updates the status column only. *)
Theorem mark_failed_drops_cancel_message :
  let w := CascadeExample.after_failure.2 in
  DAG.get_dependents 1 (JobScheduler.dep_graph_ CascadeExample.submitted.1) = [2] ∧
  CascadeExample.status_of 1 w = Some FAILED ∧
  CascadeExample.error_of 1 w = Some "Worker process failed" ∧
  CascadeExample.status_of 2 w = Some CANCELLED ∧
  CascadeExample.error_of 2 w = Some EmptyString ∧
  CascadeExample.error_of 2 w ≠ Some "Dependency job 1 failed" ∧
  CascadeExample.status_of 3 w = Some PENDING ∧
  DAG.has_node 1 (JobScheduler.dep_graph_ CascadeExample.after_failure.1) = false.
Proof. vm_compute. repeat split; discriminate. Qed.

(** * Reference counts under deduplication, at a concrete backup *)

Lemma ended_some (run : option (FileManifest.t * ChunkStore.t * World)) :
  match run with Some _ => true | None => false end = true → run = Some (ended run).
Proof. by destruct run. Qed.

(** C2, at a backup of two files with the same content: both calls of
    [store_file] return, the second file is deduplicated against the chunk
    of the first, two chunk references name the hash, and the chunk record
    still has [ref_count = 1]: the deduplicated branch of [store_file]
    never reaches [store_chunk]. *)
Theorem dedup_leaves_ref_count_behind :
  let w := RefCountExample.second_file.2 in
  RefCountExample.first_run = Some RefCountExample.first_file ∧
  RefCountExample.second_run = Some RefCountExample.second_file ∧
  ChunkInfo.deduplicated <$> FileManifest.chunks RefCountExample.first_file.1.1 = [false] ∧
  ChunkInfo.deduplicated <$> FileManifest.chunks RefCountExample.second_file.1.1 = [true] ∧
  chunk_ref_rows RefCountExample.the_hash w = 2 ∧
  ChunkMeta.ref_count <$> Database.get_chunk_meta RefCountExample.the_hash w = Some 1.
Proof.
  split_and!; try (apply ended_some); vm_compute; reflexivity.
Qed.

(** * More of the dependency graph *)

Section dag_operations.
Import DAG.

(** X1. [has_path] is a terminating breadth-first search that decides
    reachability: it answers true exactly when [to] can be reached from
    [from] along zero or more edges. *)
Theorem has_path_decides_reachability g from to :
  (∃ b, has_path_loop (has_path_fuel (adj_ g)) (adj_ g) to ∅ [from] = Some b) ∧
  (has_path g from to = true ↔ rtc (edge g) from to).
Proof. split; [apply has_path_loop_total|apply has_path_reach]. Qed.

(** X2. An accepted [add_edge] adds the edge [from -> to] and nothing
    else: both ends are nodes afterwards, and the edges are those of
    before together with the new one. *)
Theorem add_edge_accepted from to g :
  (add_edge from to g).1 = true →
  let g' := (add_edge from to g).2 in
  from ≠ to ∧ edge g' from to ∧
  has_node from g' = true ∧ has_node to g' = true ∧
  ∀ a b, edge g' a b ↔ edge g a b ∨ (a = from ∧ b = to).
Proof.
  intros Hok g'. subst g'.
  destruct (add_edge_result from to g) as [[_ Heq]|(Hne & _ & _ & Hedges)].
  { rewrite Heq in Hok. done. }
  split; [done|]. split; [apply Hedges; by right|].
  split_and!; [| |done].
  - unfold add_edge in *. rewrite decide_False in * by done.
    destruct (has_path _ to from); [done|]. unfold has_node. simpl.
    apply bool_decide_eq_true. rewrite lookup_insert_eq. by eexists.
  - unfold add_edge in *. rewrite decide_False in * by done.
    destruct (has_path _ to from); [done|]. unfold has_node. simpl.
    apply bool_decide_eq_true. rewrite lookup_insert_ne by done.
    apply add_node_has_node.
Qed.

Lemma remove_node_spec node g :
  let g' := remove_node node g in
  has_node node g' = false ∧
  (∀ n, n ≠ node → has_node n g' = has_node n g) ∧
  (∀ a b, edge g' a b ↔ edge g a b ∧ a ≠ node ∧ b ≠ node).
Proof.
  intros g'. subst g'. unfold remove_node, has_node, edge. simpl. split_and!.
  - apply bool_decide_eq_false. rewrite lookup_delete_eq. by intros [? ?].
  - intros n Hn. rewrite lookup_delete_ne, lookup_fmap by done.
    apply bool_decide_ext. by rewrite fmap_is_Some.
  - intros a b. split.
    + intros (d & Hd & Hb). apply lookup_delete_Some in Hd as [Hne Hd].
      rewrite lookup_fmap in Hd. destruct (adj_ g !! a) as [d0|]; simpl in Hd; [|done].
      apply (inj Some) in Hd as <-. split; [exists d0; set_solver|]. set_solver.
    + intros ((d & Hd & Hb) & Ha & Hbn). exists (d ∖ {[node]}).
      rewrite lookup_delete_ne, lookup_fmap, Hd by done. split; [done|set_solver].
Qed.

Lemma remove_edge_spec from to g :
  let out := remove_edge from to g in
  (out.1 = true ↔ edge g from to) ∧
  (∀ n, has_node n out.2 = has_node n g) ∧
  (∀ a b, edge out.2 a b ↔ edge g a b ∧ ¬ (a = from ∧ b = to)).
Proof.
  intros out. subst out. unfold remove_edge, has_node, edge.
  destruct (adj_ g !! from) as [dests|] eqn:Hf.
  2: { simpl. split_and!; [|done|].
       - split; [done|]. intros (d & Hd & _). congruence.
       - intros a b. split; [|by intros [? _]]. intros (d & Hd & Hb).
         split; [by exists d|]. intros [-> ->]. congruence. }
  destruct (decide (to ∈ dests)) as [Hin|Hout]; simpl.
  - split_and!.
    + split; [|done]. intros _. by exists dests.
    + intros n. apply bool_decide_ext. destruct (decide (n = from)) as [->|Hn].
      * rewrite lookup_insert_eq, Hf. split; by eexists.
      * by rewrite lookup_insert_ne.
    + intros a b. destruct (decide (a = from)) as [->|Ha].
      * rewrite lookup_insert_eq, Hf. split.
        -- intros (d & [= <-] & Hb). split; [exists dests; set_solver|]. set_solver.
        -- intros ((d & [= <-] & Hb) & Hne). eexists. split; [done|].
           apply elem_of_difference. split; [done|]. set_solver.
      * rewrite lookup_insert_ne by done. split; [|by intros [? _]].
        intros Hed. split; [done|]. by intros [? _].
  - split_and!; [|done|].
    + split; [done|]. intros (d & Hd & Hb). congruence.
    + intros a b. split; [|by intros [? _]]. intros (d & Hd & Hb).
      split; [by exists d|]. intros [-> ->]. congruence.
Qed.

Lemma dependencies_spec g a b :
  (b ∈ get_dependents a g ↔ edge g a b) ∧
  (a ∈ get_dependencies b g ↔ edge g a b) ∧
  NoDup (get_dependents a g) ∧ NoDup (get_dependencies b g).
Proof.
  unfold get_dependents, get_dependencies, edge. split_and!.
  - destruct (adj_ g !! a) as [dests|].
    + rewrite elem_of_elements. split; [by exists dests|]. by intros (d & [= <-] & Hb).
    + split; [by intros ?%elem_of_nil|]. by intros (d & ? & _).
  - rewrite list_elem_of_fmap. split.
    + intros ([a' d] & -> & Hin). apply list_elem_of_filter in Hin as [Hb Hin].
      apply elem_of_map_to_list in Hin. by exists d.
    + intros (d & Hd & Hb). exists (a, d). split; [done|].
      apply list_elem_of_filter. split; [done|]. by apply elem_of_map_to_list.
  - destruct (adj_ g !! a); [apply NoDup_elements|constructor].
  - eapply NoDup_fmap_fst; [|apply NoDup_filter, NoDup_map_to_list].
    intros k d1 d2 [_ H1]%list_elem_of_filter [_ H2]%list_elem_of_filter.
    apply elem_of_map_to_list in H1, H2. congruence.
Qed.

(** X3. [remove_node] removes the node with every edge from it and to
    it, and leaves the other nodes and edges alone. *)
Theorem remove_node_effect node g :
  let g' := remove_node node g in
  has_node node g' = false ∧
  (∀ n, n ≠ node → has_node n g' = has_node n g) ∧
  (∀ a b, edge g' a b ↔ edge g a b ∧ a ≠ node ∧ b ≠ node).
Proof. apply remove_node_spec. Qed.

(** X4. [remove_edge] returns true exactly when the edge was there, and
    then removes that edge only; the set of nodes never changes. *)
Theorem remove_edge_effect from to g :
  let out := remove_edge from to g in
  (out.1 = true ↔ edge g from to) ∧
  (∀ n, has_node n out.2 = has_node n g) ∧
  (∀ a b, edge out.2 a b ↔ edge g a b ∧ ¬ (a = from ∧ b = to)).
Proof. apply remove_edge_spec. Qed.

(** X5. [get_dependents] lists the targets of the edges from a node and
    [get_dependencies] the sources of the edges to it, each once. *)
Theorem dependents_and_dependencies g a b :
  (b ∈ get_dependents a g ↔ edge g a b) ∧
  (a ∈ get_dependencies b g ↔ edge g a b) ∧
  NoDup (get_dependents a g) ∧ NoDup (get_dependencies b g).
Proof. apply dependencies_spec. Qed.
End dag_operations.

(** * The in-degree counters *)

Section dag_degrees.
Import DAG.

Lemma elem_of_incoming g n a : a ∈ incoming g n ↔ edge g a n.
Proof.
  unfold incoming, edge. rewrite elem_of_dom. split.
  - intros [d Hd]. apply map_lookup_filter_Some in Hd as [Hd Hn]. by exists d.
  - intros (d & Hd & Hn). exists d. by apply map_lookup_filter_Some.
Qed.

Lemma incoming_ext g g' n :
  (∀ a, edge g' a n ↔ edge g a n) → incoming g' n = incoming g n.
Proof. intros He. apply set_eq. intros a. by rewrite !elem_of_incoming. Qed.

Lemma size_union_singleton_le (X : gset Z) (x : Z) :
  (size (X ∪ {[x]}) ≤ S (size X))%nat.
Proof.
  rewrite size_union_alt.
  assert (size (({[x]} : gset Z) ∖ X) ≤ 1)%nat; [|lia].
  rewrite <- (size_singleton (C := gset Z) x). apply subseteq_size. set_solver.
Qed.

Lemma size_elem_pos (X : gset Z) (x : Z) : x ∈ X → (0 < size X)%nat.
Proof.
  intros Hx. destruct (size X) eqn:Hs; [|lia].
  apply size_empty_iff in Hs. set_solver.
Qed.

Lemma bump_lookup d k deg m :
  bump d k deg !! m = if decide (m = k) then Some (default 0 (deg !! k) + d) else deg !! m.
Proof.
  unfold bump. case_decide as Hm; [subst; by rewrite lookup_insert_eq|].
  by rewrite lookup_insert_ne.
Qed.

Lemma foldr_bump_lookup deg (l : list Z) m :
  NoDup l →
  foldr (bump (-1)) deg l !! m =
    if decide (m ∈ l) then Some (default 0 (deg !! m) - 1) else deg !! m.
Proof.
  induction 1 as [|k l Hk _ IH]; cbn [foldr].
  - case_decide as Hin; [by apply elem_of_nil in Hin|done].
  - rewrite bump_lookup. destruct (decide (m = k)) as [->|Hne].
    + rewrite decide_True by (by left). by rewrite IH, decide_False.
    + rewrite IH. destruct (decide (m ∈ l)) as [Hin|Hin].
      * by rewrite decide_True by (by right).
      * rewrite decide_False; [done|]. by intros [?|?]%elem_of_cons.
Qed.

Lemma degrees_sound_add_node node g : degrees_sound g → degrees_sound (add_node node g).
Proof.
  intros (Hdom & Htgt & Hdeg). unfold add_node.
  destruct (adj_ g !! node) as [d|] eqn:Hn; [done|].
  assert (∀ a b, edge {| adj_ := <[node:=∅]> (adj_ g);
                         in_degree_ := <[node:=0]> (in_degree_ g) |} a b ↔ edge g a b)
    as Hedge.
  { intros a b. pose proof (edge_add_node node g a b) as He.
    unfold add_node in He. by rewrite Hn in He. }
  split_and!; simpl.
  - by rewrite !dom_insert_L, Hdom.
  - intros a b Hab%Hedge. apply lookup_insert_is_Some'. right. by eapply Htgt.
  - intros n d Hd. rewrite (incoming_ext g _ n) by (intros; apply Hedge).
    destruct (decide (n = node)) as [->|Hne].
    + rewrite lookup_insert_eq in Hd. apply (inj Some) in Hd as <-.
      assert (incoming g node = ∅) as ->; [|done].
      apply set_eq. intros a. rewrite elem_of_incoming. split; [|set_solver].
      intros Hed. destruct (Htgt _ _ Hed) as [? ?]. congruence.
    + rewrite lookup_insert_ne in Hd by done. by apply Hdeg.
Qed.

Lemma degrees_sound_add_edge from to g :
  degrees_sound g → degrees_sound (add_edge from to g).2.
Proof.
  intros Hg.
  pose proof (degrees_sound_add_node to _ (degrees_sound_add_node from g Hg)) as Hg1.
  destruct (add_edge_result from to g) as [[_ ->]|(Hne & _ & Hok & Hedges)]; [done|].
  assert (∀ a b, edge (add_edge from to g).2 a b ↔
                 edge (add_node to (add_node from g)) a b ∨ (a = from ∧ b = to)) as Hed1.
  { intros a b. rewrite Hedges, !edge_add_node. done. }
  revert Hok Hed1. unfold add_edge. rewrite decide_False by done.
  set (g1 := add_node to (add_node from g)) in *.
  destruct (has_path g1 to from); [done|]. simpl. intros _ Hed1.
  destruct Hg1 as (Hdom & Htgt & Hdeg).
  assert (is_Some (adj_ g1 !! to)) as Hto by apply add_node_has_node.
  assert (is_Some (adj_ g1 !! from)) as Hfrom.
  { unfold g1, add_node at 1. destruct (adj_ (add_node from g) !! to) eqn:Hx; simpl.
    - apply add_node_has_node.
    - apply lookup_insert_is_Some'. right. apply add_node_has_node. }
  split_and!; simpl.
  - unfold bump. rewrite !dom_insert_L, Hdom.
    apply elem_of_dom in Hto, Hfrom. set_solver.
  - intros a b [Hab| [-> ->]]%Hed1; apply lookup_insert_is_Some'; right; [|done].
    by eapply Htgt.
  - intros n d. rewrite bump_lookup. destruct (decide (n = to)) as [->|Hn].
    + intros [= <-]. destruct (in_degree_ g1 !! to) as [d1|] eqn:Hd1.
      2: { apply elem_of_dom in Hto. rewrite <- Hdom in Hto.
           apply elem_of_dom in Hto as [? ?]. congruence. }
      simpl. specialize (Hdeg to d1 Hd1).
      assert (incoming {| adj_ := <[from:=default ∅ (adj_ g1 !! from) ∪ {[to]}]> (adj_ g1);
                          in_degree_ := bump 1 to (in_degree_ g1) |} to
                ⊆ incoming g1 to ∪ {[from]}) as Hsub.
      { intros a. rewrite elem_of_union, !elem_of_incoming, Hed1. set_solver. }
      apply subseteq_size in Hsub.
      pose proof (size_union_singleton_le (incoming g1 to) from). lia.
    + intros Hd. rewrite (incoming_ext g1 _ n); [by apply Hdeg|].
      intros a. rewrite Hed1. split; [|by left]. by intros [?|[_ ?]].
Qed.

Lemma degrees_sound_remove_edge from to g :
  degrees_sound g → degrees_sound (remove_edge from to g).2.
Proof.
  intros (Hdom & Htgt & Hdeg).
  pose proof (remove_edge_spec from to g) as (Hret & Hnodes & Hedges).
  cbv zeta in Hret, Hnodes, Hedges. revert Hret Hnodes Hedges. unfold remove_edge.
  destruct (adj_ g !! from) as [dests|] eqn:Hf; [|done].
  destruct (decide (to ∈ dests)) as [Hin|Hout]; [|done]. simpl.
  intros _ _ Hedges.
  assert (edge g from to) as Hft by (by exists dests).
  destruct (Htgt _ _ Hft) as [dt Hdt].
  split_and!; simpl.
  - unfold bump. rewrite !dom_insert_L, Hdom.
    apply elem_of_dom_2 in Hf, Hdt. set_solver.
  - intros a b [Hab _]%Hedges. apply lookup_insert_is_Some'. right. by eapply Htgt.
  - intros n d. rewrite bump_lookup. destruct (decide (n = to)) as [->|Hn].
    + intros [= <-]. destruct (in_degree_ g !! to) as [d1|] eqn:Hd1.
      2: { apply elem_of_dom_2 in Hdt. rewrite <- Hdom in Hdt.
           apply elem_of_dom in Hdt as [? ?]. congruence. }
      simpl. specialize (Hdeg to d1 Hd1).
      match goal with |- context [incoming ?g' to] =>
        assert (incoming g' to = incoming g to ∖ {[from]}) as -> end.
      { apply set_eq. intros a.
        rewrite elem_of_difference, !elem_of_incoming, Hedges. set_solver. }
      rewrite size_difference by (apply singleton_subseteq_l; by apply elem_of_incoming).
      rewrite size_singleton.
      pose proof (size_elem_pos (incoming g to) from (proj2 (elem_of_incoming _ _ _) Hft)).
      lia.
    + intros Hd. rewrite (incoming_ext g _ n); [by apply Hdeg|].
      intros a. rewrite Hedges. split; [by intros [? _]|]. intros Hed. split; [done|].
      by intros [_ ?].
Qed.

Lemma degrees_sound_remove_node node g :
  degrees_sound g → degrees_sound (remove_node node g).
Proof.
  intros (Hdom & Htgt & Hdeg).
  pose proof (remove_node_spec node g) as (_ & _ & Hedges). cbv zeta in Hedges.
  set (dests := default ∅ (((λ d : gset Z, d ∖ {[node]}) <$> adj_ g) !! node)).
  assert (in_degree_ (remove_node node g) =
            delete node (foldr (bump (-1)) (in_degree_ g) (elements dests))) as Hdegs.
  { unfold remove_node, dests. simpl.
    destruct (((λ d : gset Z, d ∖ {[node]}) <$> adj_ g) !! node); simpl; [done|].
    by rewrite elements_empty. }
  assert (∀ m, m ∈ dests ↔ edge g node m ∧ m ≠ node) as Hdests.
  { intros m. unfold dests, edge. rewrite lookup_fmap.
    destruct (adj_ g !! node) as [d|]; simpl; [|set_solver].
    split; [intros Hm; split; [exists d|]; set_solver|].
    intros [(d' & [= <-] & Hm) Hne]. set_solver. }
  assert (∀ m, in_degree_ (remove_node node g) !! m =
               if decide (m = node) then None
               else if decide (m ∈ dests) then Some (default 0 (in_degree_ g !! m) - 1)
               else in_degree_ g !! m) as Hlook.
  { intros m. rewrite Hdegs. destruct (decide (m = node)) as [->|Hm].
    - by rewrite lookup_delete_eq.
    - rewrite lookup_delete_ne by done.
      rewrite foldr_bump_lookup by apply NoDup_elements.
      destruct (decide (m ∈ dests)) as [Hin|Hin].
      + rewrite decide_True; [done|]. by apply elem_of_elements.
      + rewrite decide_False; [done|]. by rewrite elem_of_elements. }
  split_and!.
  - apply set_eq. intros m. rewrite !elem_of_dom, Hlook. unfold remove_node. simpl.
    destruct (decide (m = node)) as [->|Hm].
    { rewrite lookup_delete_eq. split; by intros [? ?]. }
    rewrite lookup_delete_ne by (by intros ->).
    rewrite lookup_fmap, fmap_is_Some, <- !elem_of_dom, <- Hdom.
    destruct (decide (m ∈ dests)) as [Hin|Hin]; [|by rewrite elem_of_dom].
    split; [intros _|by eexists]. rewrite Hdom. apply elem_of_dom.
    apply Hdests in Hin as [Hed _]. by eapply Htgt.
  - intros a b (Hab & Ha & Hb)%Hedges. unfold remove_node. simpl.
    rewrite lookup_delete_ne by (by intros ->).
    rewrite lookup_fmap, fmap_is_Some. by eapply Htgt.
  - intros n d. rewrite Hlook. destruct (decide (n = node)) as [->|Hn]; [done|].
    assert (incoming (remove_node node g) n = incoming g n ∖ {[node]}) as ->.
    { apply set_eq. intros a.
      rewrite elem_of_difference, !elem_of_incoming, Hedges. set_solver. }
    destruct (decide (n ∈ dests)) as [Hin|Hin].
    + intros [= <-]. apply Hdests in Hin as [Hed _].
      destruct (Htgt _ _ Hed) as [dn Hdn]. apply elem_of_dom_2 in Hdn.
      rewrite <- Hdom in Hdn. apply elem_of_dom in Hdn as [d1 Hd1]. rewrite Hd1. simpl.
      specialize (Hdeg n d1 Hd1).
      rewrite size_difference by (apply singleton_subseteq_l; by apply elem_of_incoming).
      rewrite size_singleton.
      pose proof (size_elem_pos (incoming g n) node (proj2 (elem_of_incoming _ _ _) Hed)).
      lia.
    + intros Hd. specialize (Hdeg n d Hd).
      pose proof (subseteq_size (incoming g n ∖ {[node]}) (incoming g n)) as Hle.
      assert (incoming g n ∖ {[node]} ⊆ incoming g n) as Hsub by set_solver.
      specialize (Hle Hsub). lia.
Qed.

Lemma degrees_sound_run ops : degrees_sound (run ops).
Proof.
  unfold run. induction ops as [|o ops IH] using rev_ind.
  - split_and!; [done| |].
    + intros a b (d & Hd & _). done.
    + intros n d Hd. done.
  - rewrite foldl_snoc. destruct o; simpl.
    + by apply degrees_sound_add_node.
    + by apply degrees_sound_add_edge.
    + by apply degrees_sound_remove_edge.
    + by apply degrees_sound_remove_node.
Qed.

Lemma degrees_sound_ready g n :
  degrees_sound g → n ∈ get_ready_nodes g →
  has_node n g = true ∧ get_dependencies n g = [] ∧ ∀ a, ¬ edge g a n.
Proof.
  intros (Hdom & _ & Hdeg). unfold get_ready_nodes. intros Hin.
  apply list_elem_of_fmap in Hin as ([n' d] & -> & Hin).
  apply list_elem_of_filter in Hin as [Hz Hin]. simpl in Hz. subst d.
  apply elem_of_map_to_list in Hin. simpl.
  assert (∀ a, ¬ edge g a n') as Hnone.
  { intros a Hed%elem_of_incoming. specialize (Hdeg n' 0 Hin).
    assert (size (incoming g n') = 0%nat) as Hsz by lia.
    apply size_empty_iff in Hsz. set_solver. }
  split_and!; [| |done].
  - apply bool_decide_eq_true. apply elem_of_dom. rewrite <- Hdom.
    by apply elem_of_dom_2 in Hin.
  - destruct (get_dependencies n' g) as [|a l] eqn:Hdeps; [done|].
    exfalso. apply (Hnone a).
    apply (proj1 (proj1 (proj2 (dependencies_spec g a n')))).
    rewrite Hdeps. by left.
Qed.

(** X6. In every graph built by the four operations, a node that
    [get_ready_nodes] reports is a node of the graph without any edge into
    it: a job is never reported ready while a dependency of it is still
    in the graph. *)
Theorem ready_nodes_have_no_dependency ops n :
  n ∈ get_ready_nodes (run ops) →
  has_node n (run ops) = true ∧ get_dependencies n (run ops) = [] ∧
  ∀ a, ¬ edge (run ops) a n.
Proof. apply degrees_sound_ready, degrees_sound_run. Qed.
End dag_degrees.

(** * More of the metadata store *)

Section database_operations.

Lemma now_epoch_ms_inv w :
  tables (now_epoch_ms w).2 = tables w ∧ same_outside_db w (now_epoch_ms w).2.
Proof. unfold now_epoch_ms. destruct (clock w); by repeat split. Qed.

(** X7. [create_job] either fails with [-1] and writes nothing, or
    returns the next row id, under which [get_job] finds the submitted
    fields with fresh counters and an empty error message, the source
    path and the backup name up to their first NUL; the rows of the other
    jobs are not touched. *)
Theorem create_job_then_get_job job w :
  let out := Database.create_job job w in
  (out.1 = -1 ∧ tables out.2 = tables w) ∨
  (out.1 = jobs_seq (tables w) + 1 ∧
   (∃ row, Database.get_job out.1 out.2 = Some row ∧
      BackupJob.job_id row = out.1 ∧
      BackupJob.source_path row = c_str (BackupJob.source_path job) ∧
      BackupJob.backup_name row = c_str (BackupJob.backup_name job) ∧
      BackupJob.status row = BackupJob.status job ∧
      BackupJob.priority row = BackupJob.priority job ∧
      BackupJob.compression row = BackupJob.compression job ∧
      BackupJob.encrypt row = BackupJob.encrypt job ∧
      BackupJob.incremental row = BackupJob.incremental job ∧
      BackupJob.parent_job_id row = BackupJob.parent_job_id job ∧
      BackupJob.started_at row = 0 ∧ BackupJob.completed_at row = 0 ∧
      BackupJob.error_message row = EmptyString) ∧
   (∀ j, j ≠ out.1 → Database.get_job j out.2 = Database.get_job j w)).
Proof.
  intros out. subst out. unfold Database.create_job.
  destruct (now_epoch_ms_inv w) as [Ht0 _].
  destruct (now_epoch_ms w) as [now w0]. simpl in Ht0.
  match goal with |- context [Database.step_write ?e w0] =>
    pose proof (step_write_inv e w0) as [_ Hd];
    destruct (Database.step_write e w0) as [done w1] end.
  simpl in Hd. destruct done; simpl.
  - right. apply (inj Some) in Hd. unfold Database.get_job. rewrite <- Hd, Ht0. simpl.
    split; [done|]. split.
    + eexists. rewrite lookup_insert_eq. split; [done|]. by repeat split.
    + intros j Hj. by rewrite lookup_insert_ne.
  - left. split; [done|]. congruence.
Qed.

(** X8. [store_chunk] is an insert-or-increment that takes effect as a
    whole: on success the table [chunks] holds the given record for a new
    hash and, for a known hash, its record with [ref_count] one higher,
    the other records stay as they are; on failure the tables are what
    they were. *)
Theorem store_chunk_insert_or_increment hash_hex path osize ssize comp enc refs w :
  let out := Database.store_chunk hash_hex path osize ssize comp enc refs w in
  same_outside_db w out.2 ∧
  if out.1 then
    chunks (tables out.2) !! hash_hex =
      Some (match chunks (tables w) !! hash_hex with
            | Some meta => ChunkMeta.incr_ref meta
            | None => ChunkMeta.mk hash_hex path osize ssize comp enc refs
            end) ∧
    (∀ h, h ≠ hash_hex → chunks (tables out.2) !! h = chunks (tables w) !! h) ∧
    (∀ h, h ≠ hash_hex → Database.get_chunk_meta h out.2 = Database.get_chunk_meta h w) ∧
    jobs (tables out.2) = jobs (tables w) ∧
    file_manifests (tables out.2) = file_manifests (tables w) ∧
    file_chunks (tables out.2) = file_chunks (tables w)
  else tables out.2 = tables w.
Proof.
  intros out. subst out. unfold Database.store_chunk, Database.get_chunk_meta.
  pose proof (begin_inv w) as (Hsnap & Hcom & Ht0 & Hs0).
  destruct (Transaction.begin w) as [txn w0]. simpl in Hsnap, Hcom, Ht0, Hs0.
  unfold Transaction.is_active. rewrite Hcom, andb_true_r.
  destruct (Transaction.active_ txn) eqn:Hact; simpl.
  2: { pose proof (drop_inv txn w0) as [Hsd Hd]. rewrite Hact in Hd. simpl in Hd.
       split; [by eapply same_outside_db_trans|]. congruence. }
  rewrite Ht0.
  match goal with |- context [Database.step_write ?e w0] =>
    pose proof (step_write_inv e w0) as [Hs1 Hd1];
    destruct (Database.step_write e w0) as [done w1] end.
  simpl in Hs1, Hd1. destruct done; simpl.
  2: { pose proof (drop_inv txn w1) as [Hsd Hd]. rewrite Hact, Hcom in Hd. simpl in Hd.
       split; [eauto using same_outside_db_trans|]. congruence. }
  apply (inj Some) in Hd1. rewrite Ht0 in Hd1.
  assert (∃ w2 ok2, (if bool_decide (is_Some (chunks (tables w) !! hash_hex))
                     then Database.increment_chunk_ref hash_hex w1 else (true, w1))
                    = (ok2, w2) ∧ same_outside_db w1 w2 ∧
            if ok2 then
              tables w2 =
                set_chunks (λ cs, match cs !! hash_hex with
                                  | Some meta => <[hash_hex := ChunkMeta.incr_ref meta]> cs
                                  | None => <[hash_hex := ChunkMeta.mk hash_hex path osize
                                                            ssize comp enc refs]> cs
                                  end) (tables w)
            else True) as (w2 & ok2 & -> & Hs2 & Ht2).
  { destruct (chunks (tables w) !! hash_hex) as [meta|] eqn:Hmeta.
    - rewrite bool_decide_eq_true_2 in * by (by eexists).
      unfold Database.increment_chunk_ref.
      match goal with |- context [Database.step_write ?e w1] =>
        pose proof (step_write_inv e w1) as [Hs2 Hd2];
        destruct (Database.step_write e w1) as [ok2 w2] end.
      simpl in Hs2, Hd2. exists w2, ok2. split; [done|]. split; [done|].
      destruct ok2; [|done]. apply (inj Some) in Hd2. rewrite <- Hd2, <- Hd1.
      unfold set_chunks. simpl. rewrite Hmeta. f_equal.
      apply map_eq. intros h. destruct (decide (h = hash_hex)) as [->|Hne].
      + by rewrite lookup_alter_eq, lookup_insert_eq, Hmeta.
      + by rewrite lookup_alter_ne, lookup_insert_ne.
    - rewrite bool_decide_eq_false_2 in * by (by intros [? ?]).
      exists w1, true. split; [done|]. split; [apply same_outside_db_refl|].
      rewrite <- Hd1. unfold set_chunks. simpl. by rewrite Hmeta. }
  destruct ok2; simpl.
  2: { pose proof (drop_inv txn w2) as [Hsd Hd]. rewrite Hact, Hcom in Hd. simpl in Hd.
       split; [eauto using same_outside_db_trans|]. congruence. }
  pose proof (commit_inv txn w2 Hact Hcom) as (Ht3 & Hs3 & Hsnap3 & Hact3 & Hcom3).
  destruct (Transaction.commit txn w2) as [[ok3 txn3] w3]. simpl in *.
  pose proof (drop_inv txn3 w3) as [Hsd Hd]. rewrite Hact3, Hcom3 in Hd.
  split; [eauto 6 using same_outside_db_trans|].
  rewrite Hd. destruct ok3; simpl; [|congruence].
  rewrite Ht3, Ht2. simpl.
  destruct (chunks (tables w) !! hash_hex) as [meta|] eqn:Hmeta;
    (split_and!; [by rewrite lookup_insert_eq| | |done..]);
    intros h Hh; by rewrite lookup_insert_ne.
Qed.

(** X9. A successful [update_job_status] sets the status in the row of
    the one job it names and leaves every other row of [jobs] and every
    other table alone; the error message is written for COMPLETED and
    FAILED only, and keeps its old value for every other status.  For an
    id without a row it succeeds without any effect; a failed update
    changes nothing. *)
Theorem update_job_status_effect job_id status error w :
  let out := Database.update_job_status job_id status error w in
  same_outside_db w out.2 ∧
  if out.1 then
    (∀ j, j ≠ job_id → jobs (tables out.2) !! j = jobs (tables w) !! j) ∧
    (∀ j, j ≠ job_id → Database.get_job j out.2 = Database.get_job j w) ∧
    match jobs (tables w) !! job_id with
    | None => jobs (tables out.2) !! job_id = None
    | Some job =>
        ∃ job', jobs (tables out.2) !! job_id = Some job' ∧
          BackupJob.status job' = status ∧
          BackupJob.error_message job' =
            (if decide (status = COMPLETED ∨ status = FAILED) then error
             else BackupJob.error_message job) ∧
          BackupJob.job_id job' = BackupJob.job_id job ∧
          BackupJob.source_path job' = BackupJob.source_path job ∧
          BackupJob.compression job' = BackupJob.compression job ∧
          BackupJob.encrypt job' = BackupJob.encrypt job
    end ∧
    chunks (tables out.2) = chunks (tables w) ∧
    file_manifests (tables out.2) = file_manifests (tables w) ∧
    file_chunks (tables out.2) = file_chunks (tables w) ∧
    encryption_keys (tables out.2) = encryption_keys (tables w)
  else tables out.2 = tables w.
Proof.
  intros out. subst out. unfold Database.update_job_status, Database.get_job.
  destruct (now_epoch_ms_inv w) as [Ht0 Hs0].
  destruct status;
    try (destruct (now_epoch_ms w) as [now w0]; simpl in Ht0, Hs0);
    match goal with |- context [Database.step_write ?e ?v] =>
      pose proof (step_write_inv e v) as [Hs1 Hd1];
      destruct (Database.step_write e v) as [done w1] end;
    simpl in Hs1, Hd1;
    (split; [eauto using same_outside_db_trans|]);
    (destruct done; simpl; [|congruence]);
    apply (inj Some) in Hd1; rewrite <- Hd1, ?Ht0; simpl;
    (split_and!; [intros j Hj; by rewrite lookup_alter_ne|
                  intros j Hj; by rewrite lookup_alter_ne| |done..]);
    rewrite lookup_alter_eq;
    (destruct (jobs (tables w) !! job_id) as [job|]; [|done]);
    simpl; eexists; (split; [done|]); by repeat split.
Qed.

(** X10. The key stored for a job is the key read back, up to its first
    NUL: a successful [store_encryption_key] needs the job to exist,
    replaces the key of that job and touches no other key;
    [get_encryption_key] then returns the characters of the key before
    its first NUL, so the whole key when it is one that [key_to_hex]
    makes.  A failed call changes nothing. *)
Theorem encryption_key_round_trip job_id key_hex w :
  let out := Database.store_encryption_key job_id key_hex w in
  if out.1 then
    is_Some (Database.get_job job_id w) ∧
    encryption_keys (tables out.2) !! job_id = Some key_hex ∧
    Database.get_encryption_key job_id out.2 = c_str key_hex ∧
    (∀ key, key_hex = AES256.key_to_hex key →
       Database.get_encryption_key job_id out.2 = key_hex) ∧
    (∀ j, j ≠ job_id →
       Database.get_encryption_key j out.2 = Database.get_encryption_key j w) ∧
    jobs (tables out.2) = jobs (tables w)
  else tables out.2 = tables w.
Proof.
  intros out. subst out.
  unfold Database.store_encryption_key, Database.get_encryption_key, Database.get_job.
  match goal with |- context [Database.step_write ?e w] =>
    pose proof (step_write_inv e w) as [_ Hd];
    destruct (Database.step_write e w) as [done w1] end.
  simpl in Hd. destruct done; simpl; [|done].
  destruct (jobs (tables w) !! job_id) as [job|]; [|done].
  apply (inj Some) in Hd. rewrite <- Hd. simpl.
  split_and!; [by eexists| | | | |done].
  - by rewrite lookup_insert_eq.
  - by rewrite lookup_insert_eq.
  - intros key ->. rewrite lookup_insert_eq. apply c_str_to_hex.
  - intros j Hj. by rewrite lookup_insert_ne.
Qed.

(** X11. A dependency recorded by [add_dependency] is listed by
    [get_dependencies] of that job and of no other; recording needs both
    jobs to exist, recording twice lists it once, and a failed call
    changes nothing. *)
Theorem add_dependency_then_get_dependencies job_id depends_on w :
  let out := Database.add_dependency job_id depends_on w in
  if out.1 then
    is_Some (Database.get_job job_id w) ∧ is_Some (Database.get_job depends_on w) ∧
    (∀ j d, d ∈ Database.get_dependencies j out.2 ↔
            d ∈ Database.get_dependencies j w ∨ (j = job_id ∧ d = depends_on)) ∧
    NoDup (Database.get_dependencies job_id out.2)
  else tables out.2 = tables w.
Proof.
  intros out. subst out.
  unfold Database.add_dependency, Database.get_job.
  match goal with |- context [Database.step_write ?e w] =>
    pose proof (step_write_inv e w) as [_ Hd];
    destruct (Database.step_write e w) as [done w1] end.
  simpl in Hd. destruct done; simpl; [|done].
  destruct (jobs (tables w) !! job_id) as [job|]; [|done].
  destruct (jobs (tables w) !! depends_on) as [dep|]; [|done].
  apply (inj Some) in Hd.
  assert (∀ v j d, d ∈ Database.get_dependencies j v ↔ (j, d) ∈ job_dependencies (tables v))
    as Hmem.
  { intros v j d. unfold Database.get_dependencies. rewrite list_elem_of_fmap. split.
    - intros ([j' d'] & -> & Hin). apply list_elem_of_filter in Hin as [Hj Hin].
      simpl in Hj. subst j'. by apply elem_of_elements in Hin.
    - intros Hin. exists (j, d). split; [done|]. apply list_elem_of_filter.
      split; [done|]. by apply elem_of_elements. }
  split_and!; [by eexists..| |].
  - intros j d. rewrite !Hmem, <- Hd. simpl. set_solver.
  - unfold Database.get_dependencies. apply NoDup_fmap_2_strong.
    + intros [j1 d1] [j2 d2] [Hj1 _]%list_elem_of_filter [Hj2 _]%list_elem_of_filter Heq.
      simpl in *. congruence.
    + apply NoDup_filter, NoDup_elements.
Qed.
End database_operations.

(** * Stored manifests are read back *)

Section manifest_round_trip.

Lemma of_string_full (s : string) :
  hash_well_formed s → HashHex.of_string (Database.column_text s) = s.
Proof.
  intros [Hlen Hnul]. unfold HashHex.of_string, Database.column_text.
  rewrite c_str_idemp, Hnul.
  assert (List.length (list_ascii_of_string s) = SHA256_HEX_LEN) as Hl.
  { rewrite <- Hlen. clear. induction s as [|c s IH]; [done|]. simpl. by rewrite IH. }
  rewrite take_ge by lia. rewrite Hl, Nat.sub_diag. simpl. rewrite app_nil_r.
  apply string_of_list_ascii_of_string.
Qed.

Lemma chunk_rows_manifest_id manifest_id : ∀ refs next,
  Forall (λ r, FileChunkRow.manifest_id r = manifest_id) (chunk_rows manifest_id next refs).
Proof. induction refs as [|c refs IH]; intros next; constructor; [done|apply IH]. Qed.

Lemma to_int32_small z : 0 ≤ z < 2 ^ 31 → to_int32 z = z.
Proof. intros Hz. unfold to_int32. rewrite Z.mod_small; lia. Qed.

(** Below 2^31 the index column holds the index itself. *)
Lemma chunk_rows_index manifest_id : ∀ refs next,
  Forall (λ c, hash_well_formed (ChunkInfo.hash c) ∧ 0 ≤ ChunkInfo.chunk_index c < 2 ^ 31)
         refs →
  FileChunkRow.chunk_index <$> chunk_rows manifest_id next refs =
    ChunkInfo.chunk_index <$> refs.
Proof.
  induction refs as [|c refs IH]; intros next Hall; [done|].
  apply Forall_cons in Hall as [[_ Hc] Hall]. csimpl.
  by rewrite IH, to_int32_small.
Qed.

Lemma row_to_chunk_rows manifest_id : ∀ refs next,
  Forall (λ c, hash_well_formed (ChunkInfo.hash c) ∧ 0 ≤ ChunkInfo.chunk_index c < 2 ^ 31)
         refs →
  Database.row_to_chunk <$> chunk_rows manifest_id next refs = refs.
Proof.
  induction refs as [|c refs IH]; intros next Hall; [done|].
  apply Forall_cons in Hall as [[Hc Hi] Hall]. csimpl. rewrite IH by done. f_equal.
  unfold Database.row_to_chunk. simpl. rewrite of_string_full by done.
  rewrite to_int32_small by done. unfold wrap32. rewrite Z.mod_small by lia.
  by destruct c.
Qed.

Lemma filter_all {A} (P : A → Prop) `{∀ x, Decision (P x)} (l : list A) :
  Forall P l → filter P l = l.
Proof.
  induction 1 as [|x l Hx _ IH]; [done|]. by rewrite filter_cons_True, IH.
Qed.

Lemma filter_none {A} (P : A → Prop) `{∀ x, Decision (P x)} (l : list A) :
  Forall (λ x, ¬ P x) l → filter P l = [].
Proof.
  induction 1 as [|x l Hx _ IH]; [done|]. by rewrite filter_cons_False.
Qed.

Lemma StronglySorted_weaken {A} (R1 R2 : relation A) (l : list A) :
  (∀ x y, R1 x y → R2 x y) → StronglySorted R1 l → StronglySorted R2 l.
Proof.
  intros Himp. induction 1 as [|x l _ IH Hhd]; constructor; [done|].
  eapply Forall_impl; [exact Hhd|]. apply Himp.
Qed.

Lemma merge_sort_sorted_rows (rows : list FileChunkRow.t) :
  StronglySorted Z.lt (FileChunkRow.chunk_index <$> rows) →
  merge_sort Database.chunk_index_le rows = rows.
Proof.
  intros Hsorted.
  assert (Transitive Database.chunk_index_le) as Htrans.
  { intros a b c. unfold Database.chunk_index_le. lia. }
  assert (Total Database.chunk_index_le) as Htotal.
  { intros a b. unfold Database.chunk_index_le. lia. }
  assert (StronglySorted (λ a b, FileChunkRow.chunk_index a < FileChunkRow.chunk_index b)
                         rows) as Hstrict.
  { clear -Hsorted. induction rows as [|r rows IH]; [constructor|].
    csimpl in Hsorted. apply StronglySorted_inv in Hsorted as [Hs Hhd].
    constructor; [by apply IH|]. rewrite Forall_fmap in Hhd.
    eapply Forall_impl; [exact Hhd|]. by intros b Hb. }
  apply (Sorted_unique_strong Database.chunk_index_le).
  - intros x1 x2 Hx1 Hx2 H12 H21. unfold Database.chunk_index_le in *.
    rewrite merge_sort_Permutation in Hx1.
    assert (FileChunkRow.chunk_index x1 = FileChunkRow.chunk_index x2) as Heq by lia.
    clear -Hstrict Hx1 Hx2 Heq. induction Hstrict as [|r rows _ IH Hhd]; [by inv Hx1|].
    rewrite Forall_forall in Hhd.
    inv Hx1; inv Hx2; [done| | |by apply IH].
    + match goal with Hin : _ ∈ rows |- _ => specialize (Hhd _ Hin) end. lia.
    + match goal with Hin : _ ∈ rows |- _ => specialize (Hhd _ Hin) end. lia.
  - by apply Sorted_merge_sort.
  - apply StronglySorted_Sorted. eapply StronglySorted_weaken; [|exact Hstrict].
    intros a b. unfold Database.chunk_index_le. simpl. lia.
  - apply merge_sort_Permutation.
Qed.

Lemma chunks_of_manifest_eq manifest_id w w' :
  filter (λ r, FileChunkRow.manifest_id r = manifest_id) (file_chunks (tables w')) =
    filter (λ r, FileChunkRow.manifest_id r = manifest_id) (file_chunks (tables w)) →
  Database.chunks_of_manifest manifest_id w' = Database.chunks_of_manifest manifest_id w.
Proof. unfold Database.chunks_of_manifest. by intros ->. Qed.

(** X12. What [store_file_manifest] stores, [get_file_manifests] reads
    back: after a successful call the manifests of the job are those of
    before followed by the stored one, with its chunk references in
    order, and the manifests of other jobs are as before.  This holds for
    manifests as [store_file] builds them for files of fewer than 2^31
    chunks (a path and a name without NUL, hashes of 64 characters
    without NUL, increasing chunk indexes below 2^31) in a store whose
    row ids were handed out in order, which the call preserves. *)
Theorem stored_manifest_is_read_back job_id manifest w :
  (Database.store_file_manifest job_id manifest w).1 = true →
  manifest_ids_fresh (tables w) → manifest_well_formed manifest →
  let w' := (Database.store_file_manifest job_id manifest w).2 in
  Database.get_file_manifests job_id w' =
    Database.get_file_manifests job_id w ++ [manifest] ∧
  (∀ j, j ≠ job_id → Database.get_file_manifests j w' = Database.get_file_manifests j w) ∧
  manifest_ids_fresh (tables w').
Proof.
  intros Hok [Hfm Hfc] (Hpath & Hname & Hhash & Hhashes & Hsorted) w'. subst w'.
  destruct (store_file_manifest_effect job_id manifest w) as [_ Ht].
  cbv zeta in Ht. rewrite Hok in Ht.
  set (w' := (Database.store_file_manifest job_id manifest w).2) in *.
  set (t := tables w) in *. set (new_id := file_manifests_seq t + 1) in *.
  set (rows := chunk_rows new_id (file_chunks_seq t + 1) (FileManifest.chunks manifest)) in *.
  assert (∀ mid, mid ≤ file_manifests_seq t →
            Database.chunks_of_manifest mid w' = Database.chunks_of_manifest mid w) as Hold.
  { intros mid Hmid. apply chunks_of_manifest_eq. rewrite Ht. simpl.
    rewrite filter_app, (filter_none _ rows), app_nil_r; [done|].
    eapply Forall_impl; [apply chunk_rows_manifest_id|]. simpl. intros r ->. lia. }
  assert (Database.chunks_of_manifest new_id w' = FileManifest.chunks manifest) as Hnew.
  { unfold Database.chunks_of_manifest. rewrite Ht. simpl.
    rewrite filter_app, (filter_none _ (file_chunks t)), app_nil_l.
    2: { eapply Forall_impl; [exact Hfc|]. simpl. intros r Hr. lia. }
    rewrite filter_all by apply chunk_rows_manifest_id.
    rewrite merge_sort_sorted_rows by (unfold rows; by rewrite chunk_rows_index).
    by apply row_to_chunk_rows. }
  assert (∀ j, Database.get_file_manifests j w' =
               Database.get_file_manifests j w ++
               (if decide (job_id = j) then [manifest] else [])) as Hget.
  { intros j. unfold Database.get_file_manifests. rewrite Ht. simpl.
    rewrite filter_app, fmap_app. f_equal.
    - apply list_fmap_ext. intros i r Hr.
      apply list_elem_of_lookup_2, list_elem_of_filter in Hr as [_ Hr].
      rewrite Forall_forall in Hfm. rewrite Hold by (by apply Hfm). done.
    - unfold manifest_row. destruct (decide (job_id = j)) as [->|Hne].
      + rewrite filter_cons_True by done. csimpl. rewrite Hnew.
        rewrite of_string_full by done. unfold Database.column_text.
        rewrite Hpath, Hname. by destruct manifest.
      + by rewrite filter_cons_False. }
  split_and!.
  - by rewrite Hget, decide_True.
  - intros j Hj. by rewrite Hget, decide_False, app_nil_r.
  - rewrite Ht. split; simpl.
    + apply Forall_app. split; [|by repeat constructor].
      eapply Forall_impl; [exact Hfm|]. simpl. intros r Hr. lia.
    + apply Forall_app. split.
      * eapply Forall_impl; [exact Hfc|]. simpl. intros r Hr. lia.
      * eapply Forall_impl; [apply chunk_rows_manifest_id|]. simpl. intros r ->. lia.
Qed.
End manifest_round_trip.

(** * More of the chunk store *)

Section chunk_store_operations.
Context `{Primitives}.

(** X13. Content addressing: the storage path of a chunk is never empty
    and two 64-character hashes have the same storage path only when
    they are the same hash. *)
Theorem chunk_paths_are_distinct cs h h' :
  String.length h = SHA256_HEX_LEN → String.length h' = SHA256_HEX_LEN →
  ChunkStore.get_chunk_path cs h ≠ EmptyString ∧
  (ChunkStore.get_chunk_path cs h = ChunkStore.get_chunk_path cs h' ↔ h = h').
Proof.
  intros Hh Hh'. split; [apply get_chunk_path_nonempty|].
  split; [by apply get_chunk_path_inj|by intros ->].
Qed.

Lemma restore_chunk_hash cs comp (enc : bool) key chunk w data :
  ChunkStore.restore_chunk cs comp enc key chunk w = Some data →
  SHA256.hash_hex data = ChunkInfo.hash chunk.
Proof.
  unfold ChunkStore.restore_chunk. case_decide; [done|].
  destruct (FS.read_file _ w) as [blob|]; [|done].
  set (decrypted := if enc then AES256.decrypt blob key else blob).
  set (decompressed := if decide (comp ≠ NONE) then _ else decrypted).
  assert (∀ body : option (list byte),
            match enc, decrypted with true, [] => None | _, _ => body end = Some data →
            body = Some data) as Hbody.
  { intros body. destruct enc; [|done]. by destruct decrypted. }
  intros Hres%Hbody. case_decide; [done|]. case_decide as Hhash; [done|].
  apply (inj Some) in Hres as <-. done.
Qed.

Lemma restore_chunks_parts cs comp (enc : bool) key dest : ∀ refs w w' old,
  ChunkStore.restore_chunks cs comp enc key dest refs w = (true, w') →
  files w !! dest = Some old →
  unreadable w' = unreadable w ∧
  (∀ p, p ≠ dest → files w' !! p = files w !! p) ∧
  ∃ parts,
    Forall2 (λ chunk data, SHA256.hash_hex data = ChunkInfo.hash chunk) refs parts ∧
    files w' !! dest = Some (old ++ List.concat parts).
Proof.
  induction refs as [|chunk refs IH]; intros w w' old Hrun Hold.
  - simpl in Hrun. injection Hrun as <-. split_and!; [done..|].
    exists []. split; [constructor|]. by rewrite app_nil_r.
  - cbn [ChunkStore.restore_chunks] in Hrun.
    destruct (ChunkStore.restore_chunk cs comp enc key chunk w) as [data|] eqn:Hchunk;
      [|done].
    destruct (IH (FS.append dest data w) w' (old ++ data) Hrun) as (Hun & Hframe & parts & Hall & Hdest).
    { unfold FS.append. simpl. by rewrite lookup_insert_eq, Hold. }
    split_and!; [done| |].
    + intros p Hp. rewrite (Hframe p Hp). unfold FS.append. simpl.
      by rewrite lookup_insert_ne.
    + exists (data :: parts). split.
      * constructor; [by eapply restore_chunk_hash|done].
      * rewrite Hdest. simpl. by rewrite app_assoc.
Qed.

(** X14. What a successful [restore_file] guarantees: the destination
    holds the concatenation of one piece per chunk reference, in order,
    each piece hashing to the hash of its reference, the digest of the
    destination is the [file_hash] of the manifest, and no other file and
    no table was touched. *)
Theorem restore_file_verifies_hashes cs manifest dest comp (enc : bool) key w :
  let out := ChunkStore.restore_file cs manifest dest comp enc key w in
  out.1 = true →
  (∃ parts,
     Forall2 (λ chunk data, SHA256.hash_hex data = ChunkInfo.hash chunk)
             (FileManifest.chunks manifest) parts ∧
     files out.2 !! dest = Some (List.concat parts)) ∧
  SHA256.to_hex (SHA256.hash_file dest out.2) = FileManifest.file_hash manifest ∧
  (∀ p, p ≠ dest → files out.2 !! p = files w !! p) ∧
  tables out.2 = tables w.
Proof.
  intros out Hok. split_and!; [| | |apply restore_file_tables].
  all: subst out; revert Hok; unfold ChunkStore.restore_file, FS.open_trunc.
  all: case_decide as Hw; [done|].
  all: destruct (ChunkStore.restore_chunks _ _ _ _ _ _ _) as [ok w2] eqn:Hrun.
  all: destruct ok; [|done]; simpl.
  all: case_decide as Hhash; [done|]; simpl; intros _.
  all: destruct (restore_chunks_parts _ _ _ _ _ _ _ _ [] Hrun)
         as (Hun & Hframe & parts & Hall & Hdest);
         [simpl; by rewrite lookup_insert_eq|].
  - by exists parts.
  - done.
  - intros p Hp. rewrite (Hframe p Hp). simpl. by rewrite lookup_insert_ne.
Qed.

(** How far the chunking loop has moved away from the world [w] and the
    store [cs] it started in. *)
Lemma store_fold_frame cs w comp (enc : bool) key (windows : list (list byte)) :
  ∀ todo st,
  (∀ c, c ∈ todo → c ∈ windows) →
  ((∀ p, files (ChunkStore.l_world st) !! p ≠ files w !! p →
      ∃ c, c ∈ windows ∧ p = ChunkStore.get_chunk_path cs (SHA256.hash_hex c) ∧
           Database.chunk_exists (SHA256.hash_hex c) w = false) ∧
   (∀ h, Database.chunk_exists h w = true →
      chunks (tables (ChunkStore.l_world st)) !! h = chunks (tables w) !! h) ∧
   unreadable (ChunkStore.l_world st) = unreadable w ∧
   unwritable (ChunkStore.l_world st) = unwritable w ∧
   ChunkStore.storage_dir_ (ChunkStore.l_store st) = ChunkStore.storage_dir_ cs) →
  let st' := foldl (store_step comp enc key) st todo in
  (∀ p, files (ChunkStore.l_world st') !! p ≠ files w !! p →
     ∃ c, c ∈ windows ∧ p = ChunkStore.get_chunk_path cs (SHA256.hash_hex c) ∧
          Database.chunk_exists (SHA256.hash_hex c) w = false) ∧
  (∀ h, Database.chunk_exists h w = true →
     chunks (tables (ChunkStore.l_world st')) !! h = chunks (tables w) !! h) ∧
  unreadable (ChunkStore.l_world st') = unreadable w ∧
  unwritable (ChunkStore.l_world st') = unwritable w ∧
  ChunkStore.storage_dir_ (ChunkStore.l_store st') = ChunkStore.storage_dir_ cs.
Proof.
  induction todo as [|c todo IH]; intros st Hsub Hinv; [done|].
  cbv zeta. rewrite foldl_cons_eq. apply IH; [intros c' Hc'; apply Hsub; by right|].
  destruct Hinv as (Hfiles & Hknown & Hur & Huw & Hdir).
  pose proof (store_step_cases comp enc key c st) as Hcases. cbv zeta in Hcases.
  destruct Hcases as [[Hex ->] | [(Hex & (w' & -> & Ht & Hf & Hr & Hw') & _)
    | (Hex & blob & w' & -> & _ & Hf & Hr & Hw' & _ & Htab)]]; simpl.
  - done.
  - rewrite Ht, Hf, Hr, Hw'. done.
  - assert (Database.chunk_exists (SHA256.hash_hex c) w = false) as Hnew.
    { destruct (Database.chunk_exists (SHA256.hash_hex c) w) eqn:Hw0; [|done].
      specialize (Hknown _ Hw0). unfold Database.chunk_exists in Hex, Hw0.
      rewrite Hknown in Hex. congruence. }
    split_and!; [| |congruence..|done].
    + intros p Hp. destruct (decide (p = ChunkStore.get_chunk_path
                                       (ChunkStore.l_store st) (SHA256.hash_hex c)))
        as [->|Hne].
      * exists c. split; [apply Hsub; by left|]. split; [|done].
        by apply get_chunk_path_dir.
      * apply Hfiles. rewrite Hf, lookup_insert_ne in Hp by done. done.
    + intros h Hh. rewrite <- (Hknown h Hh).
      destruct Htab as [->|(meta & _ & ->)]; [done|].
      apply lookup_insert_ne. intros <-. congruence.
Qed.

(** Whatever the loop reads, it writes chunk files only. *)
Lemma store_loop_frame cs w comp (enc : bool) key path fuel pos good st' :
  ChunkStore.store_loop fuel comp enc key path pos good (ChunkStore.mkLoop [] 0 0 cs w)
    = Some st' →
  (∀ p, files (ChunkStore.l_world st') !! p ≠ files w !! p →
     ∃ c, c ≠ [] ∧ Z.of_nat (List.length c) ≤ 65536 ∧
          p = ChunkStore.get_chunk_path cs (SHA256.hash_hex c) ∧
          Database.chunk_exists (SHA256.hash_hex c) w = false) ∧
  (∀ h, Database.chunk_exists h w = true →
     chunks (tables (ChunkStore.l_world st')) !! h = chunks (tables w) !! h) ∧
  unreadable (ChunkStore.l_world st') = unreadable w ∧
  unwritable (ChunkStore.l_world st') = unwritable w ∧
  ChunkStore.storage_dir_ (ChunkStore.l_store st') = ChunkStore.storage_dir_ cs.
Proof.
  intros Hrun.
  refine (store_loop_invariant (λ st,
    (∀ p, files (ChunkStore.l_world st) !! p ≠ files w !! p →
       ∃ c, c ≠ [] ∧ Z.of_nat (List.length c) ≤ 65536 ∧
            p = ChunkStore.get_chunk_path cs (SHA256.hash_hex c) ∧
            Database.chunk_exists (SHA256.hash_hex c) w = false) ∧
    (∀ h, Database.chunk_exists h w = true →
       chunks (tables (ChunkStore.l_world st)) !! h = chunks (tables w) !! h) ∧
    unreadable (ChunkStore.l_world st) = unreadable w ∧
    unwritable (ChunkStore.l_world st) = unwritable w ∧
    ChunkStore.storage_dir_ (ChunkStore.l_store st) = ChunkStore.storage_dir_ cs)
    comp enc key path _ fuel pos good _ st' _ Hrun);
    [|split_and!; [intros p Hp; by destruct Hp|done..]].
  clear. intros st c (Hfiles & Hknown & Hur & Huw & Hdir) Hne Hlen.
  pose proof (store_step_frame comp enc key c st) as (Hdir' & Hur' & Huw' & Hknown' & Hfiles').
  cbv zeta in Hdir', Hur', Huw', Hknown', Hfiles'.
  split_and!; [| |congruence..].
  - intros p Hp.
    destruct (decide (files (ChunkStore.l_world (store_step comp enc key st c)) !! p =
                      files (ChunkStore.l_world st) !! p)) as [Heq|Hchg].
    { apply Hfiles. by rewrite <- Heq. }
    destruct (Hfiles' p Hchg) as [-> Hnew]. exists c.
    split_and!; [done|pose proof CHUNK_SIZE_eq; lia|by apply get_chunk_path_dir|].
    destruct (Database.chunk_exists (SHA256.hash_hex c) w) eqn:Hw0; [|done].
    rewrite (chunk_exists_lookup _ _ _ (Hknown _ Hw0)) in Hnew. congruence.
  - intros h Hh. rewrite <- (Hknown h Hh). apply Hknown'.
    by rewrite (chunk_exists_lookup _ _ _ (Hknown h Hh)).
Qed.

(** X15. [store_file] writes chunk files only.  Whenever it returns, a
    path whose content changed is the storage path of a chunk of at most
    65536 bytes that the metadata store did not know, the records of the
    chunks that were known stay as they are, and the access rights and
    the storage directory do not change.  When the file is not
    overwritten while it is read, the chunk is one of the windows of the
    file. *)
Theorem store_file_writes_only_new_chunks fuel cs path comp (enc : bool) key job_id rel
    w out :
  ChunkStore.store_file fuel cs path comp enc key job_id rel w = Some out →
  (∀ p, files out.2 !! p ≠ files w !! p →
     ∃ c, c ≠ [] ∧ Z.of_nat (List.length c) ≤ 65536 ∧
       p = ChunkStore.get_chunk_path cs (SHA256.hash_hex c) ∧
       Database.chunk_exists (SHA256.hash_hex c) w = false) ∧
  (∀ content, FS.read_file path w = Some content →
     source_apart cs path content w →
     chunk_count (Z.of_nat (List.length content)) < Z.of_nat fuel →
     ∀ p, files out.2 !! p ≠ files w !! p →
       ∃ c, c ∈ split_chunks content ∧
         p = ChunkStore.get_chunk_path cs (SHA256.hash_hex c) ∧
         Database.chunk_exists (SHA256.hash_hex c) w = false) ∧
  (∀ h, Database.chunk_exists h w = true →
     chunks (tables out.2) !! h = chunks (tables w) !! h) ∧
  unreadable out.2 = unreadable w ∧ unwritable out.2 = unwritable w ∧
  ChunkStore.storage_dir_ out.1.2 = ChunkStore.storage_dir_ cs.
Proof.
  intros Hrun.
  destruct (store_file_cases _ _ _ _ _ _ _ _ _ _ Hrun)
    as [(_ & -> & -> & Hwhy & _)|(content & st & Hfile & Hread & Hloop & ->)].
  { by split_and!. }
  destruct (store_loop_frame _ _ _ _ _ _ _ _ _ _ Hloop)
    as (Hfiles & Hknown & Hur & Huw & Hdir).
  cbn [fst snd].
  destruct (store_file_manifest_chunks job_id (manifest_of path rel content w st)
              (ChunkStore.l_world st)) as [(Hf1 & _ & Hur1 & Huw1 & _) Hc1].
  split_and!; [| | |congruence..|done].
  - intros p Hp. rewrite Hf1 in Hp. by apply Hfiles.
  - intros content' Hc' Hapart Hfuel p Hp. unfold FS.read_file in Hc'.
    rewrite decide_False in Hc' by done. assert (content' = content) as -> by congruence.
    rewrite (store_loop_spec comp enc key path content) in Hloop;
      rewrite ?drop_N_0; [|done|by apply fuel_enough|done|done].
    rewrite drop_N_0 in Hloop. injection Hloop as Hst.
    destruct (store_fold_frame cs w comp enc key (split_chunks content)
                (split_chunks content) (ChunkStore.mkLoop [] 0 0 cs w))
      as (Hwin & _); [done|by split_and!|].
    cbv zeta in Hwin. rewrite Hst in Hwin. apply Hwin. by rewrite Hf1 in Hp.
  - intros h Hh. rewrite Hc1. by apply Hknown.
Qed.

Lemma store_fold_known comp (enc : bool) key : ∀ todo st,
  (∀ c, c ∈ todo →
     Database.chunk_exists (SHA256.hash_hex c) (ChunkStore.l_world st) = true) →
  let st' := foldl (store_step comp enc key) st todo in
  ChunkStore.l_world st' = ChunkStore.l_world st ∧
  ChunkStore.l_store st' = ChunkStore.l_store st ∧
  ChunkInfo.deduplicated <$> ChunkStore.l_chunks st' =
    (ChunkInfo.deduplicated <$> ChunkStore.l_chunks st) ++ replicate (List.length todo) true ∧
  ChunkInfo.hash <$> ChunkStore.l_chunks st' =
    (ChunkInfo.hash <$> ChunkStore.l_chunks st) ++ (SHA256.hash_hex <$> todo).
Proof.
  induction todo as [|c todo IH]; intros st Hall.
  - simpl. by rewrite !app_nil_r.
  - cbv zeta. rewrite foldl_cons_eq.
    pose proof (store_step_cases comp enc key c st) as Hcases. cbv zeta in Hcases.
    destruct Hcases as [[_ Hst] | [[Hex _] | [Hex _]]];
      [|rewrite (Hall c) in Hex by (by left); done..].
    destruct (IH (store_step comp enc key st c)) as (Hw & Hs & Hd & Hh).
    { intros c' Hc'. rewrite Hst. simpl. apply Hall. by right. }
    cbv zeta in Hw, Hs, Hd, Hh. rewrite Hw, Hs, Hd, Hh, Hst. simpl.
    rewrite !fmap_app, <- !app_assoc. done.
Qed.

(** X16. Deduplication: when the metadata store knows every chunk of a
    readable file, [store_file] returns, with fuel beyond the number of
    windows of the file, writes no file and no chunk record and does not
    change the in-memory indexes; the manifest names the chunks of the
    file in order, all of them flagged [deduplicated]. *)
Theorem store_file_of_known_chunks fuel cs path comp (enc : bool) key job_id rel w
    content :
  FS.read_file path w = Some content →
  (∀ c, c ∈ split_chunks content →
     Database.chunk_exists (SHA256.hash_hex c) w = true) →
  chunk_count (Z.of_nat (List.length content)) < Z.of_nat fuel →
  ∃ out, ChunkStore.store_file fuel cs path comp enc key job_id rel w = Some out ∧
    files out.2 = files w ∧ chunks (tables out.2) = chunks (tables w) ∧ out.1.2 = cs ∧
    ChunkInfo.hash <$> FileManifest.chunks out.1.1 =
      SHA256.hash_hex <$> split_chunks content ∧
    ChunkInfo.deduplicated <$> FileManifest.chunks out.1.1 =
      replicate (List.length (split_chunks content)) true.
Proof.
  intros Hread Hall Hfuel. unfold FS.read_file in Hread.
  case_decide as Hun; [done|].
  assert (source_apart cs path content w) as Hapart.
  { intros c Hc Hnew. rewrite (Hall c Hc) in Hnew. done. }
  eexists. split.
  { apply (store_file_readable fuel cs path comp enc key job_id rel w content Hread Hun
             Hapart (fuel_enough _ _ Hfuel)). }
  destruct (store_fold_known comp enc key (split_chunks content)
              (ChunkStore.mkLoop [] 0 0 cs w) Hall) as (Hw & Hs & Hd & Hh).
  cbv zeta in Hw, Hs, Hd, Hh. simpl in Hw, Hs, Hd, Hh.
  set (st := foldl _ _ _) in *.
  destruct (store_file_manifest_chunks job_id (manifest_of path rel content w st)
              (ChunkStore.l_world st)) as [(Hf1 & _) Hc1].
  cbn [fst snd]. rewrite Hf1, Hc1, Hw. done.
Qed.

Lemma restore_chunks_frame cs comp (enc : bool) key dest : ∀ refs w p,
  p ≠ dest →
  files (ChunkStore.restore_chunks cs comp enc key dest refs w).2 !! p = files w !! p.
Proof.
  induction refs as [|chunk refs IH]; intros w p Hp; [done|].
  cbn [ChunkStore.restore_chunks].
  destruct (ChunkStore.restore_chunk cs comp enc key chunk w) as [data|]; [|done].
  rewrite IH by done. unfold FS.append. simpl. by rewrite lookup_insert_ne.
Qed.

(** X17. Whatever [restore_file] returns, it touches the destination
    file only: every other file and every table is as before, and when
    the destination cannot be opened nothing changes at all. *)
Theorem restore_file_touches_destination_only cs manifest dest comp (enc : bool) key w :
  let out := ChunkStore.restore_file cs manifest dest comp enc key w in
  (∀ p, p ≠ dest → files out.2 !! p = files w !! p) ∧
  tables out.2 = tables w ∧
  (dest ∈ unwritable w → out = (false, w)).
Proof.
  intros out. split_and!; [|apply restore_file_tables|].
  - intros p Hp. subst out. unfold ChunkStore.restore_file, FS.open_trunc.
    case_decide; [done|].
    pose proof (restore_chunks_frame cs comp enc key dest (FileManifest.chunks manifest)
                  (set_files (<[dest:=[]]> (files w)) w) p Hp) as Hframe.
    destruct (ChunkStore.restore_chunks _ _ _ _ _ _ _) as [ok w2]. simpl in Hframe.
    rewrite lookup_insert_ne in Hframe by done.
    destruct ok; simpl; [|done]. by case_decide.
  - intros Hden. subst out. unfold ChunkStore.restore_file, FS.open_trunc.
    by rewrite decide_True.
Qed.

(** X18. The read loop of [store_file] on a file that it does not
    overwrite: with fuel beyond the number of windows of the file it
    ends, having handled the successive windows of the file, which are
    non-empty, at most 65536 bytes long, all but the last exactly 65536
    bytes long, and concatenate to the file. *)
Theorem store_loop_handles_windows comp (enc : bool) key fuel path content st :
  files (ChunkStore.l_world st) !! path = Some content →
  source_apart (ChunkStore.l_store st) path content (ChunkStore.l_world st) →
  chunk_count (Z.of_nat (List.length content)) < Z.of_nat fuel →
  ChunkStore.store_loop fuel comp enc key path 0 true st =
    Some (foldl (store_step comp enc key) st (split_chunks content)) ∧
  List.concat (split_chunks content) = content ∧
  (∀ c, c ∈ split_chunks content → c ≠ [] ∧ Z.of_nat (List.length c) ≤ 65536) ∧
  (∀ i c, split_chunks content !! i = Some c →
     (S i < List.length (split_chunks content))%nat → Z.of_nat (List.length c) = 65536).
Proof.
  intros Hfile Hapart Hfuel. split_and!.
  - rewrite (store_loop_spec comp enc key path content); rewrite ?drop_N_0; try done.
    by apply fuel_enough.
  - apply (split_every_concat CHUNK_SIZE CHUNK_SIZE_pos).
  - intros c Hc.
    destruct (split_every_bounds CHUNK_SIZE CHUNK_SIZE_pos content c Hc) as (Hne & Hle & _).
    split; [done|]. pose proof CHUNK_SIZE_eq. lia.
  - intros i c Hi Hlast.
    pose proof (split_every_sizes CHUNK_SIZE CHUNK_SIZE_pos content) as Hsz.
    pose proof (split_every_length CHUNK_SIZE CHUNK_SIZE_pos content) as Hlen.
    fold (split_chunks content) in Hsz, Hlen. rewrite CHUNK_SIZE_eq in Hsz, Hlen.
    set (k := ceil_div _ 65536) in *. clearbody k.
    apply (f_equal (λ l, l !! i)) in Hsz. rewrite list_lookup_fmap, Hi in Hsz. simpl in Hsz.
    rewrite lookup_app_l in Hsz by (rewrite length_replicate; lia).
    symmetry in Hsz. by apply lookup_replicate in Hsz as [Hsz _].
Qed.
End chunk_store_operations.

Section path_facts.

Lemma substring_whole (s : string) : substring 0 (String.length s) s = s.
Proof. induction s as [|c s IH]; [done|]. simpl. by rewrite IH. Qed.

(** X19. [dirname_of] and [basename_of] split a path at its last slash:
    the base name holds no slash, and a path with a slash is its directory
    name, a slash and its base name; without a slash the base name is the
    path and the directory name is a dot. *)
Theorem dirname_basename_split (path : string) :
  ChunkStore.rfind_slash (ChunkStore.basename_of path) = None ∧
  match ChunkStore.rfind_slash path with
  | Some _ => path = ChunkStore.dirname_of path +:+ "/" +:+ ChunkStore.basename_of path
  | None => ChunkStore.basename_of path = path ∧ ChunkStore.dirname_of path = "."
  end.
Proof.
  unfold ChunkStore.basename_of, ChunkStore.dirname_of.
  induction path as [|c rest [IHb IHd]]; [done|].
  cbn [ChunkStore.rfind_slash String.length].
  destruct (ChunkStore.rfind_slash rest) as [pos|] eqn:Hrest.
  - cbn [substring Nat.sub]. split; [done|]. exact (f_equal (String c) IHd).
  - destruct (Ascii.eqb_spec c "/") as [->|Hc].
    + cbn [substring Nat.sub]. rewrite Nat.sub_0_r, substring_whole.
      split; [done|]. reflexivity.
    + split; [|done]. cbn [ChunkStore.rfind_slash]. rewrite Hrest.
      by rewrite (proj2 (Ascii.eqb_neq c "/") Hc).
Qed.
End path_facts.

(** * Hexadecimal names and the AES wrapper *)

Section hex_facts.

Lemma scan_byte_hex_of_byte b :
  ∃ hi lo, SHA256.hex_of_byte b = [hi; lo] ∧ AES256.scan_byte hi lo = b.
Proof. destruct b; eexists _, _; split; reflexivity. Qed.

Lemma scan_bytes_to_hex (digest : list byte) (rest : list ascii) :
  AES256.scan_bytes (List.length digest) ((digest ≫= SHA256.hex_of_byte) ++ rest) = digest.
Proof.
  induction digest as [|b digest IH]; [done|].
  rewrite bind_cons. destruct (scan_byte_hex_of_byte b) as (hi & lo & -> & Hb).
  cbn [List.length app AES256.scan_bytes]. by rewrite Hb, IH.
Qed.

(** X20. A key written by [key_to_hex] is read back by [key_from_hex]:
    the hexadecimal form under which the orchestrator stores the key of a
    job gives the restore engine the same 32 bytes. *)
Theorem key_from_hex_key_to_hex (key : list byte) :
  List.length key = AES_KEY_LEN →
  AES256.key_from_hex (AES256.key_to_hex key) = key.
Proof.
  intros Hlen. unfold AES256.key_from_hex, AES256.key_to_hex.
  rewrite to_hex_length, Hlen, decide_False by (unfold AES_KEY_LEN; lia).
  unfold SHA256.to_hex. rewrite list_ascii_of_string_of_list_ascii.
  rewrite <- Hlen, <- (app_nil_r (key ≫= _)). apply scan_bytes_to_hex.
Qed.

(** X21. [to_hex] writes two characters per byte and loses nothing: two
    byte strings with the same hexadecimal form are equal. *)
Theorem to_hex_injective (a b : list byte) :
  String.length (SHA256.to_hex a) = (2 * List.length a)%nat ∧
  (SHA256.to_hex a = SHA256.to_hex b → a = b).
Proof.
  split; [apply to_hex_length|]. intros Heq.
  assert (List.length a = List.length b) as Hlen.
  { pose proof (f_equal String.length Heq) as Hl. rewrite !to_hex_length in Hl. lia. }
  unfold SHA256.to_hex in Heq.
  apply (f_equal list_ascii_of_string) in Heq.
  rewrite !list_ascii_of_string_of_list_ascii in Heq.
  rewrite <- (scan_bytes_to_hex a []), <- (scan_bytes_to_hex b []).
  by rewrite Heq, Hlen.
Qed.
End hex_facts.

Section aes_wrapper_facts.
Context `{Primitives}.


End aes_wrapper_facts.

(** * The scheduler and its dependency graph *)

Section scheduler_facts.

Lemma graph_ok_add_edge from to g : graph_ok g → graph_ok (DAG.add_edge from to g).2.
Proof.
  intros [Hac Hdeg]. split; [|by apply degrees_sound_add_edge].
  apply (acyclic_apply_op g (DAG.AddEdge from to) Hac).
Qed.

Lemma graph_ok_add_node node g : graph_ok g → graph_ok (DAG.add_node node g).
Proof.
  intros [Hac Hdeg]. split; [|by apply degrees_sound_add_node].
  apply (acyclic_apply_op g (DAG.AddNode node) Hac).
Qed.

Lemma graph_ok_remove_node node g : graph_ok g → graph_ok (DAG.remove_node node g).
Proof.
  intros [Hac Hdeg]. split; [|by apply degrees_sound_remove_node].
  apply (acyclic_apply_op g (DAG.RemoveNode node) Hac).
Qed.

Lemma add_dependency_internal_graph job_id depends_on s w :
  JobScheduler.dep_graph_ (JobScheduler.add_dependency_internal job_id depends_on s w).1.2 =
    (DAG.add_edge depends_on job_id (JobScheduler.dep_graph_ s)).2 ∧
  JobScheduler.pq_ (JobScheduler.add_dependency_internal job_id depends_on s w).1.2 =
    JobScheduler.pq_ s.
Proof.
  unfold JobScheduler.add_dependency_internal.
  destruct (DAG.add_edge depends_on job_id (JobScheduler.dep_graph_ s)) as [added g].
  destruct added; simpl; [|done].
  by destruct (Database.add_dependency job_id depends_on w).
Qed.

Lemma add_dependencies_graph_ok job_id : ∀ deps s w,
  graph_ok (JobScheduler.dep_graph_ s) →
  graph_ok (JobScheduler.dep_graph_ (JobScheduler.add_dependencies job_id deps s w).1).
Proof.
  induction deps as [|dep deps IH]; intros s w Hok; [done|].
  cbn [JobScheduler.add_dependencies].
  destruct (add_dependency_internal_graph job_id dep s w) as [Hg _].
  destruct (JobScheduler.add_dependency_internal job_id dep s w) as [[added s1] w1].
  simpl in Hg. apply IH. rewrite Hg. by apply graph_ok_add_edge.
Qed.

(** X23. The scheduler refuses a dependency exactly when it would close
    a cycle (the job would depend on itself, directly or through others),
    and a refused dependency is not written to the database; an accepted
    one is an edge of the graph afterwards.  The queue is not touched. *)
Theorem scheduler_add_dependency job_id depends_on s w :
  let out := JobScheduler.add_dependency job_id depends_on s w in
  (out.1.1 = false ↔
     job_id = depends_on ∨ rtc (DAG.edge (JobScheduler.dep_graph_ s)) job_id depends_on) ∧
  (out.1.1 = false → out.2 = w) ∧
  (out.1.1 = true → DAG.edge (JobScheduler.dep_graph_ out.1.2) depends_on job_id) ∧
  JobScheduler.pq_ out.1.2 = JobScheduler.pq_ s.
Proof.
  intros out. subst out.
  unfold JobScheduler.add_dependency, JobScheduler.add_dependency_internal.
  pose proof (add_edge_result depends_on job_id (JobScheduler.dep_graph_ s)) as Hres.
  cbv zeta in Hres.
  destruct (DAG.add_edge depends_on job_id (JobScheduler.dep_graph_ s)) as [added g].
  destruct Hres as [[Hwhy [= -> ->]]|(Hne & Hnp & Hok & Hedges)]; simpl in *.
  - split_and!; try done. split; [intros _|done]. destruct Hwhy as [->|?]; auto.
  - subst added. simpl.
    destruct (Database.add_dependency job_id depends_on w) as [stored w1]. simpl.
    split_and!; try done.
    + split; [done|]. intros [->|Hp]; [done|]. by apply Hnp in Hp.
    + intros _. apply Hedges. by right.
Qed.

(** X24. Every operation of the scheduler keeps its dependency graph
    acyclic and its in-degree counters sound, so that after any of them a
    node reported by [get_ready_nodes] has no dependency left in the
    graph. *)
Theorem scheduler_keeps_graph_ok s w :
  graph_ok (JobScheduler.dep_graph_ s) →
  ∀ s',
    ((∃ job, s' = (JobScheduler.submit_job job s w).1.2) ∨
     (∃ job_id depends_on, s' = (JobScheduler.add_dependency job_id depends_on s w).1.2) ∨
     (∃ job_id, s' = JobScheduler.mark_completed job_id s) ∨
     (∃ job_id, s' = (JobScheduler.mark_failed job_id s w).1)) →
    graph_ok (JobScheduler.dep_graph_ s') ∧
    ∀ n, n ∈ DAG.get_ready_nodes (JobScheduler.dep_graph_ s') →
         DAG.get_dependencies n (JobScheduler.dep_graph_ s') = [].
Proof.
  intros Hok s' Hop.
  assert (graph_ok (JobScheduler.dep_graph_ s')) as Hok'.
  { destruct Hop as [[job ->]|[(job_id & dep & ->)|[[job_id ->]|[job_id ->]]]].
    - unfold JobScheduler.submit_job.
      destruct (Database.create_job job w) as [job_id w1].
      case_decide; [done|]. destruct (now_epoch_ms w1) as [now w2].
      match goal with |- context [JobScheduler.add_dependencies ?j ?d ?s0 ?v] =>
        pose proof (add_dependencies_graph_ok j d s0 v) as Hdeps;
        destruct (JobScheduler.add_dependencies j d s0 v) as [s2 w3] end.
      simpl in *. apply Hdeps. by apply graph_ok_add_node.
    - destruct (add_dependency_internal_graph job_id dep s w) as [Hg _].
      unfold JobScheduler.add_dependency. rewrite Hg. by apply graph_ok_add_edge.
    - simpl. by apply graph_ok_remove_node.
    - unfold JobScheduler.mark_failed.
      destruct (Database.update_job_status job_id FAILED _ w) as [ok w1]. simpl.
      by apply graph_ok_remove_node. }
  split; [done|]. intros n Hn. destruct Hok' as [_ Hdeg].
  by destruct (degrees_sound_ready _ n Hdeg Hn) as (_ & Hnone & _).
Qed.
End scheduler_facts.

(** * Handing out ready jobs *)

Section ready_jobs.

Lemma collect_ready_step w ready inprog n :
  ∃ fresh inprog1, collect_ready w (ready, inprog) n = (ready ++ fresh, inprog1) ∧
    inprog ⊆ inprog1 ∧
    (∀ job, job ∈ fresh →
       Database.get_job n w = Some job ∧ BackupJob.status job = PENDING ∧
       (n ∉ inprog) ∧ n ∈ inprog1) ∧
    (∀ job, Database.get_job n w = Some job → BackupJob.status job = PENDING →
            n ∈ inprog1).
Proof.
  assert (∃ fresh inprog1, (ready, inprog) = (ready ++ fresh, inprog1) ∧
            inprog ⊆ inprog1 ∧
            (∀ job, job ∈ fresh →
               Database.get_job n w = Some job ∧ BackupJob.status job = PENDING ∧
               (n ∉ inprog) ∧ n ∈ inprog1)) as (f0 & i0 & Heq0 & Hsub0 & Hfresh0).
  { exists [], inprog. split_and!; [by rewrite app_nil_r|done|by intros ? ?%elem_of_nil]. }
  unfold collect_ready.
  destruct (Database.get_job n w) as [job|] eqn:Hjob.
  2: { exists f0, i0. by split_and!. }
  destruct (decide (BackupJob.status job ≠ PENDING)) as [Hst|Hst].
  { exists f0, i0. split_and!; [done..|]. intros job' [= <-] Hp. done. }
  apply dec_stable in Hst.
  destruct (decide (n ∈ inprog)) as [Hin|Hin].
  { exists f0, i0. split_and!; [done..|]. intros job' _ _. injection Heq0 as _ <-. done. }
  exists [job], (inprog ∪ {[n]}). split_and!; [done|set_solver| |set_solver].
  intros job' ->%list_elem_of_singleton. split_and!; [done..|set_solver].
Qed.

Lemma collect_ready_fold w : ∀ (nodes : list Z) ready inprog,
  ∃ fresh inprog', foldl (collect_ready w) (ready, inprog) nodes = (ready ++ fresh, inprog') ∧
    inprog ⊆ inprog' ∧
    (∀ job, job ∈ fresh →
       ∃ id, id ∈ nodes ∧ Database.get_job id w = Some job ∧
             BackupJob.status job = PENDING ∧ (id ∉ inprog) ∧ id ∈ inprog') ∧
    (∀ id job, id ∈ nodes → Database.get_job id w = Some job →
               BackupJob.status job = PENDING → id ∈ inprog').
Proof.
  induction nodes as [|n nodes IH]; intros ready inprog.
  - exists [], inprog. simpl. split_and!; [by rewrite app_nil_r|done| |].
    + by intros ? ?%elem_of_nil.
    + by intros ? ? ?%elem_of_nil.
  - cbn [foldl].
    destruct (collect_ready_step w ready inprog n)
      as (fresh1 & inprog1 & -> & Hsub1 & Hfresh1 & Hall1).
    destruct (IH (ready ++ fresh1) inprog1) as (fresh & inprog' & -> & Hsub & Hfresh & Hall).
    exists (fresh1 ++ fresh), inprog'. split_and!.
    + by rewrite app_assoc.
    + set_solver.
    + intros job [Hj|Hj]%elem_of_app.
      * destruct (Hfresh1 job Hj) as (Hjob & Hst & Hnot & Hin).
        exists n. split_and!; [by left|done..|set_solver].
      * destruct (Hfresh job Hj) as (id & Hid & Hjob & Hst & Hnot & Hin).
        exists id. split_and!; [by right|done..|set_solver|done].
    + intros id job [->|Hid]%elem_of_cons Hjob Hst; [|by eapply Hall].
      apply Hsub. by eapply Hall1.
Qed.

(** X28. [get_ready_jobs] hands out a job only when it is PENDING in the
    database, was not handed out before and, in a graph the scheduler
    keeps, has no dependency left; it marks what it hands out as in
    progress and changes neither the graph nor the queue, so that asking
    again hands out nothing. *)
Theorem get_ready_jobs_hands_out_once s w :
  graph_ok (JobScheduler.dep_graph_ s) →
  let out := get_ready_jobs s w in
  (∀ job, job ∈ out.1 →
     ∃ id, Database.get_job id w = Some job ∧ BackupJob.status job = PENDING ∧
           (id ∉ JobScheduler.in_progress_ s) ∧ id ∈ JobScheduler.in_progress_ out.2 ∧
           DAG.has_node id (JobScheduler.dep_graph_ s) = true ∧
           DAG.get_dependencies id (JobScheduler.dep_graph_ s) = []) ∧
  JobScheduler.in_progress_ s ⊆ JobScheduler.in_progress_ out.2 ∧
  JobScheduler.dep_graph_ out.2 = JobScheduler.dep_graph_ s ∧
  JobScheduler.pq_ out.2 = JobScheduler.pq_ s ∧
  (get_ready_jobs out.2 w).1 = [].
Proof.
  intros [_ Hdeg] out. subst out. unfold get_ready_jobs.
  set (nodes := DAG.get_ready_nodes (JobScheduler.dep_graph_ s)).
  destruct (collect_ready_fold w nodes [] (JobScheduler.in_progress_ s))
    as (fresh & inprog & -> & Hsub & Hfresh & Hall).
  cbn [fst snd JobScheduler.dep_graph_ JobScheduler.in_progress_ JobScheduler.pq_].
  split_and!; [|done..|].
  - intros job Hjob. rewrite merge_sort_Permutation in Hjob. simpl in Hjob.
    destruct (Hfresh job Hjob) as (id & Hid & Hget & Hst & Hnot & Hin).
    destruct (degrees_sound_ready _ id Hdeg Hid) as (Hnode & Hdeps & _).
    exists id. by split_and!.
  - fold nodes.
    destruct (collect_ready_fold w nodes [] inprog) as (fresh2 & inprog2 & -> & _ & Hfresh2 & _).
    simpl. destruct fresh2 as [|job rest]; [done|]. exfalso.
    destruct (Hfresh2 job ltac:(by left)) as (id & Hid & Hget & Hst & Hnot & _).
    apply Hnot. by eapply Hall.
Qed.
End ready_jobs.

(** * The binary heap *)

Section priority_queue_facts.
Context {T : Type} (cmp_ : T → T → bool).

Lemma insert_move_perm (x b : T) : ∀ (heap : list T) (j : nat),
  heap !! j = Some b → b :: <[j := x]> heap ≡ₚ x :: heap.
Proof.
  induction heap as [|y heap IH]; intros j Hj; [done|].
  destruct j as [|j]; simpl in *.
  - apply (inj Some) in Hj as ->. apply perm_swap.
  - rewrite (perm_swap y b), (IH j Hj). apply perm_swap.
Qed.

Lemma swap_perm_lt : ∀ (heap : list T) (i j : nat) a b,
  (i < j)%nat → heap !! i = Some a → heap !! j = Some b →
  <[i := b]> (<[j := a]> heap) ≡ₚ heap.
Proof.
  induction heap as [|x heap IH]; intros i j a b Hlt Hi Hj; [done|].
  destruct j as [|j]; [lia|]. destruct i as [|i]; simpl in *.
  - apply (inj Some) in Hi as ->. by apply insert_move_perm.
  - f_equiv. apply (IH i j a b); [lia|done..].
Qed.

Lemma swap_perm i j (heap : list T) : PriorityQueue.swap i j heap ≡ₚ heap.
Proof.
  unfold PriorityQueue.swap.
  destruct (heap !! i) as [a|] eqn:Hi; [|done].
  destruct (heap !! j) as [b|] eqn:Hj; [|done].
  destruct (Nat.lt_trichotomy i j) as [Hlt|[->|Hgt]].
  - by apply swap_perm_lt.
  - rewrite list_insert_insert_eq. rewrite Hi in Hj. apply (inj Some) in Hj as ->.
    by rewrite list_insert_id.
  - rewrite list_insert_insert_ne by lia. by apply swap_perm_lt.
Qed.

Lemma swap_length i j (heap : list T) :
  List.length (PriorityQueue.swap i j heap) = List.length heap.
Proof. apply Permutation_length, swap_perm. Qed.

Lemma sift_up_total fuel : ∀ idx (heap : list T),
  (idx < fuel)%nat →
  ∃ heap', PriorityQueue.sift_up cmp_ fuel idx heap = Some heap' ∧ heap' ≡ₚ heap.
Proof.
  induction fuel as [|fuel IH]; intros idx heap Hfuel; [lia|].
  cbn [PriorityQueue.sift_up]. case_decide as Hidx; [|by eexists].
  destruct (heap !! ((idx - 1) / 2)%nat) as [p|]; [|by eexists].
  destruct (heap !! idx) as [x|]; [|by eexists].
  destruct (cmp_ p x); [|by eexists].
  destruct (IH ((idx - 1) / 2)%nat (PriorityQueue.swap ((idx - 1) / 2) idx heap))
    as (heap' & -> & Hperm).
  { assert ((idx - 1) / 2 ≤ idx - 1)%nat by (apply Nat.Div0.div_le_upper_bound; lia). lia. }
  exists heap'. split; [done|]. by rewrite Hperm, swap_perm.
Qed.

Lemma better_range (heap : list T) best child :
  PriorityQueue.better cmp_ heap best child = best ∨
  (PriorityQueue.better cmp_ heap best child = child ∧ (child < List.length heap)%nat).
Proof.
  unfold PriorityQueue.better. destruct (heap !! best) as [b|]; [|by left].
  destruct (heap !! child) as [c|] eqn:Hc; [|by left].
  destruct (cmp_ b c); [right|by left]. split; [done|]. by eapply lookup_lt_Some.
Qed.

Lemma sift_down_total fuel : ∀ idx (heap : list T),
  (List.length heap ≤ fuel + idx)%nat → (0 < fuel)%nat →
  ∃ heap', PriorityQueue.sift_down cmp_ fuel idx heap = Some heap' ∧ heap' ≡ₚ heap.
Proof.
  induction fuel as [|fuel IH]; intros idx heap Hfuel Hpos; [lia|].
  cbn [PriorityQueue.sift_down]. cbv zeta.
  set (best1 := PriorityQueue.better cmp_ heap idx (2 * idx + 1)).
  set (best2 := PriorityQueue.better cmp_ heap best1 (2 * idx + 2)).
  case_decide as Hbest; [by eexists|].
  assert (idx < best2 ∧ best2 < List.length heap)%nat as [Hgt Hlt].
  { destruct (better_range heap best1 (2 * idx + 2)) as [Hb2|[Hb2 Hr2]];
      destruct (better_range heap idx (2 * idx + 1)) as [Hb1|[Hb1 Hr1]];
      fold best1 in Hb1; fold best1 best2 in Hb2; lia. }
  destruct (IH best2 (PriorityQueue.swap idx best2 heap)) as (heap' & -> & Hperm).
  { rewrite swap_length. lia. }
  { lia. }
  exists heap'. split; [done|]. by rewrite Hperm, swap_perm.
Qed.

Lemma replace_by_back_perm (heap : list T) i x :
  heap !! i = Some x → x :: PriorityQueue.replace_by_back i heap ≡ₚ heap.
Proof.
  intros Hi. unfold PriorityQueue.replace_by_back.
  destruct (last heap) as [back|] eqn:Hlast.
  2: { apply last_None in Hlast. by subst heap. }
  apply last_Some in Hlast as [init ->].
  destruct (decide (i < List.length init)%nat) as [Hlt|Hge].
  - rewrite insert_app_l, removelast_last by done.
    rewrite lookup_app_l in Hi by done.
    rewrite (insert_move_perm back x init i Hi). by rewrite Permutation_cons_append.
  - assert (i = List.length init) as ->.
    { apply lookup_lt_Some in Hi. rewrite length_app in Hi. simpl in Hi. lia. }
    rewrite list_lookup_middle in Hi by done. apply (inj Some) in Hi as ->.
    rewrite list_insert_id by (by apply list_lookup_middle).
    by rewrite removelast_last, Permutation_cons_append.
Qed.

Lemma find_index_Some pred : ∀ (rest : list T) k i,
  PriorityQueue.find_index pred k rest = Some i →
  ∃ j x, i = (k + j)%nat ∧ rest !! j = Some x ∧ pred x = true ∧
    ∀ j' y, (j' < j)%nat → rest !! j' = Some y → pred y = false.
Proof.
  induction rest as [|x rest IH]; intros k i Hfind; [done|].
  cbn [PriorityQueue.find_index] in Hfind. destruct (pred x) eqn:Hx.
  - apply (inj Some) in Hfind as <-. exists 0%nat, x. split_and!; [lia|done..|].
    intros j' y Hlt. lia.
  - destruct (IH _ _ Hfind) as (j & y & -> & Hj & Hy & Hbefore).
    exists (S j), y. split_and!; [lia|done..|].
    intros [|j'] z Hlt Hz; simpl in Hz; [congruence|]. apply (Hbefore j'); [lia|done].
Qed.

Lemma find_index_None pred : ∀ (rest : list T) k,
  PriorityQueue.find_index pred k rest = None → ∀ x, x ∈ rest → pred x = false.
Proof.
  induction rest as [|x rest IH]; intros k Hfind y Hy; [by apply elem_of_nil in Hy|].
  cbn [PriorityQueue.find_index] in Hfind. destruct (pred x) eqn:Hx; [done|].
  apply elem_of_cons in Hy as [->|Hy]; [done|]. by eapply IH.
Qed.

(** X25. [push] always returns, and the heap afterwards holds the
    pushed item together with the items of before, each as often as
    before: nothing is lost or duplicated by sifting, and the size grows
    by one. *)
Theorem push_keeps_items (item : T) (heap : list T) :
  ∃ heap', PriorityQueue.push cmp_ item heap = Some heap' ∧
    heap' ≡ₚ item :: heap ∧
    PriorityQueue.size heap' = S (PriorityQueue.size heap).
Proof.
  unfold PriorityQueue.push, PriorityQueue.size.
  destruct (sift_up_total (List.length (heap ++ [item])) (List.length (heap ++ [item]) - 1)
              (heap ++ [item])) as (heap' & Hrun & Hperm).
  { rewrite length_app. simpl. lia. }
  exists heap'. split; [done|].
  assert (heap' ≡ₚ item :: heap) as Hall by (rewrite Hperm; symmetry; apply Permutation_cons_append).
  split; [done|]. by rewrite Hall.
Qed.

(** X26. [pop] fails on the empty heap only; otherwise it returns the
    item at the root and a heap with the remaining items, each as often
    as before. *)
Theorem pop_keeps_items (heap : list T) :
  match PriorityQueue.pop cmp_ heap with
  | None => heap = []
  | Some (item, rest) =>
      PriorityQueue.top heap = Some item ∧ heap ≡ₚ item :: rest ∧
      S (PriorityQueue.size rest) = PriorityQueue.size heap
  end.
Proof.
  unfold PriorityQueue.pop, PriorityQueue.top, PriorityQueue.size.
  destruct heap as [|item heap]; [done|].
  pose proof (replace_by_back_perm (item :: heap) 0 item eq_refl) as Hback.
  set (heap1 := PriorityQueue.replace_by_back 0 (item :: heap)) in *.
  case_decide as Hempty.
  { split; [done|]. split; [done|]. by rewrite <- Hback. }
  destruct (sift_down_total (List.length heap1) 0 heap1) as (heap2 & -> & Hperm).
  { lia. } { destruct heap1; [done|simpl; lia]. }
  split; [done|]. rewrite Hperm. split; [done|]. by rewrite <- Hback.
Qed.

(** X27. [remove_if] always returns.  It answers false exactly when no
    item satisfies the predicate, and then leaves the heap as it is;
    otherwise it removes one item, the first in the vector that satisfies
    the predicate, and keeps every other item. *)
Theorem remove_if_removes_one pred (heap : list T) :
  ∃ removed heap', PriorityQueue.remove_if cmp_ pred heap = Some (removed, heap') ∧
    if removed then
      ∃ i x, heap !! i = Some x ∧ pred x = true ∧
        (∀ j y, (j < i)%nat → heap !! j = Some y → pred y = false) ∧
        heap ≡ₚ x :: heap' ∧
        S (PriorityQueue.size heap') = PriorityQueue.size heap
    else heap' = heap ∧ ∀ x, x ∈ heap → pred x = false.
Proof.
  unfold PriorityQueue.remove_if, PriorityQueue.size.
  destruct (PriorityQueue.find_index pred 0 heap) as [i|] eqn:Hfind.
  2: { exists false, heap. split; [done|]. split; [done|]. by eapply find_index_None. }
  apply find_index_Some in Hfind as (j & x & -> & Hj & Hx & Hbefore). cbn [Nat.add].
  pose proof (replace_by_back_perm heap j x Hj) as Hback.
  set (heap1 := PriorityQueue.replace_by_back j heap) in *.
  assert (∀ heap', heap' ≡ₚ heap1 →
            ∃ i x, heap !! i = Some x ∧ pred x = true ∧
              (∀ j y, (j < i)%nat → heap !! j = Some y → pred y = false) ∧
              heap ≡ₚ x :: heap' ∧ S (List.length heap') = List.length heap) as Hdone.
  { intros heap' Hperm. exists j, x. split_and!; [done..| |].
    - by rewrite Hperm.
    - by rewrite Hperm, <- Hback. }
  case_decide as Hin; [|exists true, heap1; split; [done|by apply Hdone]].
  destruct (sift_down_total (List.length heap1) j heap1) as (heap2 & -> & Hperm2);
    [lia..|].
  destruct (sift_up_total (S j) j heap2) as (heap3 & -> & Hperm3); [lia|].
  exists true, heap3. split; [done|]. apply Hdone. by rewrite Hperm3.
Qed.
End priority_queue_facts.

(** * The theorems at concrete backups *)

Section examples.
Import TestPrimitives.

Lemma unseal_seal k iv p : unseal k iv (k ++ rev p) = Some p.
Proof.
  unfold unseal. rewrite take_app_length, decide_True by done.
  by rewrite drop_app_length, rev_involutive.
Qed.

Lemma unpack_pack tag c : unpack tag (tag :: c) (List.length c) = Some c.
Proof. unfold unpack. by rewrite decide_True. Qed.

(** No chunk file of the example stores has the path of one of the
    source files below [/src]. *)
Lemma chunk_path_not_below_src (h rest : string) :
  ChunkStore.get_chunk_path (ChunkStore.new "/data/storage") h ≠
  String "/" (String "s" rest).
Proof.
  cbv [ChunkStore.get_chunk_path ChunkStore.storage_dir_ ChunkStore.new String.append].
  discriminate.
Qed.

(** C1, at a file backed up twice, by two runs with a key of their own
    each.  Both calls of [store_file] return.  The first backup, under
    [key1], is restored to the bytes of the file.  The second backup,
    under [key2], finds the chunk of the file in the metadata store and
    deduplicates against it, although the chunk file is encrypted under
    [key1]; [restore_file] on the manifest of the second backup, with the
    compression, the flag and the key of that backup, cannot decrypt the
    chunk: it returns false and the destination does not hold the bytes
    of the file. *)
Theorem round_trip_fails_after_key_change :
  RoundTripExample.first_run = Some RoundTripExample.first_backup ∧
  RoundTripExample.restored_first.1 = true ∧
  FS.read_file "/out/a.txt" RoundTripExample.restored_first.2 =
    Some RoundTripExample.source ∧
  FS.read_file "/src/a.txt" RoundTripExample.first_backup.2 = Some RoundTripExample.source ∧
  RoundTripExample.second_run = Some RoundTripExample.second_backup ∧
  ChunkInfo.deduplicated <$> FileManifest.chunks RoundTripExample.second_backup.1.1
    = [true] ∧
  FileManifest.file_hash RoundTripExample.second_backup.1.1 =
    SHA256.hash_hex RoundTripExample.source ∧
  RoundTripExample.restored.1 = false ∧
  FS.read_file "/out/a.txt" RoundTripExample.restored.2 ≠ Some RoundTripExample.source.
Proof.
  split_and!; try (apply ended_some); vm_compute; first [reflexivity|discriminate].
Qed.

Lemma round_trip_example_ready :
  round_trip_ready RoundTripExample.store LZ4 true RoundTripExample.key1
                   "/src/a.txt" "/out/a.txt" RoundTripExample.source RoundTripExample.start.
Proof.
  assert (split_chunks RoundTripExample.source = [RoundTripExample.source]) as Hsplit
    by reflexivity.
  split; rewrite ?Hsplit.
  - intros c _ _. apply chunk_path_not_below_src.
  - split_and!; [apply not_elem_of_empty|by eexists|intros; apply not_elem_of_empty].
  - intros _ iv p ct _ Hseal. apply (inj Some) in Hseal as <-.
    apply (unseal_seal RoundTripExample.key1 iv p).
  - intros c _ _. split; [done|].
    change (default [] (unpack x01 (x01 :: c) (List.length c)) = c).
    by rewrite unpack_pack.
  - intros c c' ->%list_elem_of_singleton ->%list_elem_of_singleton _. done.
  - intros; apply not_elem_of_empty.
  - apply not_elem_of_empty.
  - apply not_elem_of_empty.
  - intros c ->%list_elem_of_singleton. vm_compute. discriminate.
  - intros c ->%list_elem_of_singleton. vm_compute. discriminate.
Qed.

Lemma store_then_restore_round_trip_witness :
  ∃ stored,
    RoundTripExample.first_run = Some stored ∧
    let restored :=
      ChunkStore.restore_file stored.1.2 stored.1.1 "/out/a.txt" LZ4 true
                              RoundTripExample.key1 stored.2 in
    restored.1 = true ∧ FS.read_file "/out/a.txt" restored.2 = Some RoundTripExample.source.
Proof.
  apply (store_then_restore_round_trip LZ4 RoundTripExample.key1 4 RoundTripExample.store
           "/src/a.txt" "/out/a.txt" true 1 "a.txt" RoundTripExample.start
           RoundTripExample.source).
  - reflexivity.
  - vm_compute. reflexivity.
  - apply round_trip_example_ready.
Defined.

Lemma store_then_restore_by_another_store_witness :
  ∃ stored,
    RoundTripExample.first_run = Some stored ∧
    let restored :=
      ChunkStore.restore_file (ChunkStore.new "/data/storage") stored.1.1 "/out/a.txt"
                              LZ4 true RoundTripExample.key1 stored.2 in
    restored.1 = true ∧ FS.read_file "/out/a.txt" restored.2 = Some RoundTripExample.source.
Proof.
  apply (store_then_restore_by_another_store LZ4 RoundTripExample.key1 4
           RoundTripExample.store (ChunkStore.new "/data/storage")
           "/src/a.txt" "/out/a.txt" true 1 "a.txt" RoundTripExample.start
           RoundTripExample.source).
  - reflexivity.
  - vm_compute. reflexivity.
  - apply round_trip_example_ready.
  - reflexivity.
  - reflexivity.
  - intros c ->%list_elem_of_singleton. vm_compute. discriminate.
  - reflexivity.
  - intros h p Hidx. cbn [ChunkStore.chunk_index_ ChunkStore.new] in Hidx.
    by apply lookup_empty_Some in Hidx.
Defined.

Lemma long_source_length : Z.of_nat (List.length LongExample.long_source) = 65538.
Proof. vm_compute. reflexivity. Qed.







Lemma verify_backup_existence_only_witness :
  RestoreEngine.verify_backup 1 VerifyExample.completed = true ∧
  backup_verifiable 1 VerifyExample.completed ∧
  RestoreEngine.verify_backup 1 VerifyExample.tampered = true.
Proof.
  destruct (verify_backup_existence_only 1 VerifyExample.completed VerifyExample.tampered)
    as [Hiff Hsame].
  - reflexivity.
  - unfold same_paths, VerifyExample.tampered. simpl.
    apply dom_insert_lookup_L. vm_compute. by eexists.
  - assert (RestoreEngine.verify_backup 1 VerifyExample.completed = true) as Hok
      by (vm_compute; reflexivity).
    split_and!; [exact Hok|by apply Hiff|by rewrite Hsame].
Defined.

Lemma store_file_manifest_atomic_witness :
  (let out := Database.store_file_manifest 1 ManifestExample.manifest
                                           ManifestExample.accepting in
   out.1 = true ∧
   ManifestRow.manifest_id <$> file_manifests (tables out.2) = [1] ∧
   FileChunkRow.chunk_index <$> file_chunks (tables out.2) = [0; 1] ∧
   file_chunks (tables out.2) =
     chunk_rows 1 1 (FileManifest.chunks ManifestExample.manifest)) ∧
  (let out := Database.store_file_manifest 1 ManifestExample.manifest
                                           ManifestExample.failing in
   out.1 = false ∧ sqlite_faults out.2 = [] ∧
   tables out.2 = tables ManifestExample.failing).
Proof.
  split.
  - destruct (Database.store_file_manifest 1 ManifestExample.manifest
                ManifestExample.accepting) as [ok w'] eqn:Hcall.
    destruct (store_file_manifest_atomic 1 ManifestExample.manifest
                ManifestExample.accepting ok w' Hcall) as ([_ Hok] & _ & Ht).
    assert (ok = true) as ->.
    { apply Hok. split; [by eexists|]. vm_compute. constructor. }
    cbv zeta in Ht. cbn [fst snd]. rewrite Ht. by split_and!.
  - split_and!; [vm_compute; reflexivity..|].
    destruct (store_file_manifest_atomic 1 ManifestExample.manifest ManifestExample.failing
                false (Database.store_file_manifest 1 ManifestExample.manifest
                         ManifestExample.failing).2) as (_ & _ & Ht).
    + vm_compute. reflexivity.
    + exact Ht.
Defined.

Lemma restore_job_outcome_witness :
  let out := IsolationExample.restored in
  tables out.2 = tables IsolationExample.damaged ∧
  FileManifest.file_path <$> Database.get_file_manifests 1 IsolationExample.damaged
    = ["a.txt"; "b.txt"] ∧
  RestoreEngine.files_restored out.1 = 1 ∧
  RestoreEngine.success out.1 = true ∧
  RestoreEngine.restored_files out.1 = ["/out/b.txt"] ∧
  RestoreEngine.error out.1 = "Failed to restore: a.txt" ∧
  files out.2 !! "/out/a.txt" = Some [] ∧
  files out.2 !! "/out/b.txt" = Some [x43].
Proof.
  split_and!; [|vm_compute; reflexivity..].
  exact (proj1 (restore_job_outcome (ChunkStore.new "/data/storage") 1 "/out"
                  IsolationExample.damaged)).
Defined.

Lemma restore_file_ignores_dedup_witness :
  let restore manifest :=
    ChunkStore.restore_file RoundTripExample.first_backup.1.2 manifest "/out/a.txt"
                            LZ4 true RoundTripExample.key1 RoundTripExample.second_backup.2 in
  ChunkInfo.deduplicated <$> FileManifest.chunks RoundTripExample.first_backup.1.1 = [false] ∧
  ChunkInfo.deduplicated <$> FileManifest.chunks RoundTripExample.second_backup.1.1 = [true] ∧
  restore RoundTripExample.first_backup.1.1 = restore RoundTripExample.second_backup.1.1.
Proof.
  split_and!; [vm_compute; reflexivity..|].
  apply restore_file_ignores_dedup.
  split_and!; [vm_compute; reflexivity..|].
  assert (∃ h, FileManifest.chunks RoundTripExample.first_backup.1.1
                 = [ChunkInfo.mk h 0 2 0 false] ∧
               FileManifest.chunks RoundTripExample.second_backup.1.1
                 = [ChunkInfo.mk h 0 2 0 true]) as (h & -> & ->)
    by (eexists; split; vm_compute; reflexivity).
  repeat constructor.
Defined.

Lemma add_edge_accepted_witness :
  DAG.edge (DAG.add_edge 1 2 DAG.empty_graph).2 1 2 ∧
  DAG.has_node 2 (DAG.add_edge 1 2 DAG.empty_graph).2 = true.
Proof.
  destruct (add_edge_accepted 1 2 DAG.empty_graph) as (_ & Hedge & _ & Hnode & _).
  - reflexivity.
  - by split.
Defined.

Lemma ready_nodes_have_no_dependency_witness :
  DAG.get_dependencies 1 (DAG.run [DAG.AddEdge 1 2; DAG.AddNode 3]) = [].
Proof.
  destruct (ready_nodes_have_no_dependency [DAG.AddEdge 1 2; DAG.AddNode 3] 1)
    as (_ & Hnone & _).
  - vm_compute. repeat constructor.
  - exact Hnone.
Defined.

Lemma chunk_paths_are_distinct_witness :
  ChunkStore.get_chunk_path RoundTripExample.store (HashHex.of_string "aa") ≠
  ChunkStore.get_chunk_path RoundTripExample.store (HashHex.of_string "bb").
Proof.
  destruct (chunk_paths_are_distinct RoundTripExample.store (HashHex.of_string "aa")
              (HashHex.of_string "bb")) as [_ Hiff].
  - reflexivity.
  - reflexivity.
  - intros Heq. apply Hiff in Heq. vm_compute in Heq. discriminate.
Defined.

Lemma restore_file_verifies_hashes_witness :
  let stored := RoundTripExample.first_backup in
  let out := ChunkStore.restore_file stored.1.2 stored.1.1 "/out/a.txt" LZ4 true
                                     RoundTripExample.key1 stored.2 in
  SHA256.to_hex (SHA256.hash_file "/out/a.txt" out.2) = FileManifest.file_hash stored.1.1.
Proof.
  destruct (restore_file_verifies_hashes RoundTripExample.first_backup.1.2
              RoundTripExample.first_backup.1.1 "/out/a.txt" LZ4 true RoundTripExample.key1
              RoundTripExample.first_backup.2) as (_ & Hhash & _).
  - vm_compute. reflexivity.
  - exact Hhash.
Defined.

Lemma store_file_of_known_chunks_witness :
  ∃ out, RoundTripExample.second_run = Some out ∧
    files out.2 = files RoundTripExample.first_backup.2 ∧
    ChunkInfo.deduplicated <$> FileManifest.chunks out.1.1 = [true].
Proof.
  assert (split_chunks RoundTripExample.source = [RoundTripExample.source]) as Hsplit
    by reflexivity.
  destruct (store_file_of_known_chunks 4 RoundTripExample.store "/src/a.txt" LZ4 true
              RoundTripExample.key2 2 "a.txt" RoundTripExample.first_backup.2
              RoundTripExample.source) as (out & Hrun & Hfiles & _ & _ & _ & Hflags).
  - vm_compute. reflexivity.
  - rewrite Hsplit. intros c ->%list_elem_of_singleton. vm_compute. reflexivity.
  - vm_compute. reflexivity.
  - exists out. split_and!; [exact Hrun|exact Hfiles|]. rewrite Hsplit in Hflags.
    exact Hflags.
Defined.

Lemma store_file_writes_only_new_chunks_witness :
  ChunkStore.storage_dir_ RoundTripExample.first_backup.1.2 = "/data/storage" ∧
  unwritable RoundTripExample.first_backup.2 = ∅ ∧
  files RoundTripExample.first_backup.2 !! "/src/a.txt" = Some RoundTripExample.source.
Proof.
  destruct (store_file_writes_only_new_chunks 4 RoundTripExample.store "/src/a.txt" LZ4
              true RoundTripExample.key1 1 "a.txt" RoundTripExample.start
              RoundTripExample.first_backup) as (Hfiles & _ & _ & _ & Huw & Hdir).
  - apply ended_some. vm_compute. reflexivity.
  - split_and!; [exact Hdir|exact Huw|].
    destruct (decide (files RoundTripExample.first_backup.2 !! "/src/a.txt" =
                      files RoundTripExample.start !! "/src/a.txt")) as [->|Hchg];
      [reflexivity|].
    destruct (Hfiles _ Hchg) as (c & _ & _ & Hpath & _).
    symmetry in Hpath. by apply chunk_path_not_below_src in Hpath.
Defined.

Lemma store_loop_handles_windows_witness :
  ChunkStore.store_loop 4 NONE false LongExample.key "/src/long.bin" 0 true
    (ChunkStore.mkLoop [] 0 0 LongExample.store LongExample.start) =
    Some (foldl (store_step NONE false LongExample.key)
                (ChunkStore.mkLoop [] 0 0 LongExample.store LongExample.start)
                (split_chunks LongExample.long_source)) ∧
  List.concat (split_chunks LongExample.long_source) = LongExample.long_source.
Proof.
  destruct (store_loop_handles_windows NONE false LongExample.key 4 "/src/long.bin"
              LongExample.long_source
              (ChunkStore.mkLoop [] 0 0 LongExample.store LongExample.start))
    as (Hloop & Hconcat & _).
  - reflexivity.
  - intros c _ _. apply chunk_path_not_below_src.
  - rewrite long_source_length. vm_compute. reflexivity.
  - split; [exact Hloop|exact Hconcat].
Defined.

Lemma key_from_hex_key_to_hex_witness :
  AES256.key_from_hex (AES256.key_to_hex RoundTripExample.key1) = RoundTripExample.key1.
Proof. apply key_from_hex_key_to_hex. reflexivity. Defined.


Lemma scheduler_keeps_graph_ok_witness :
  graph_ok (JobScheduler.dep_graph_ CascadeExample.submitted.1).
Proof.
  assert (graph_ok (JobScheduler.dep_graph_ JobScheduler.new)) as Hnew.
  { split; [apply acyclic_empty|apply (degrees_sound_run [])]. }
  destruct (scheduler_keeps_graph_ok JobScheduler.new empty_world Hnew
              (JobScheduler.submit_job CascadeExample.job1 JobScheduler.new
                                       empty_world).1.2) as [Hone _].
  { left. by eexists. }
  set (one := JobScheduler.submit_job CascadeExample.job1 JobScheduler.new empty_world) in *.
  destruct (scheduler_keeps_graph_ok one.1.2 one.2 Hone
              (JobScheduler.submit_job CascadeExample.job2 one.1.2 one.2).1.2)
    as [Htwo _].
  { left. by eexists. }
  set (two := JobScheduler.submit_job CascadeExample.job2 one.1.2 one.2) in *.
  destruct (scheduler_keeps_graph_ok two.1.2 two.2 Htwo
              (JobScheduler.submit_job CascadeExample.job3 two.1.2 two.2).1.2)
    as [Hthree _].
  { left. by eexists. }
  exact Hthree.
Defined.

Lemma stored_manifest_is_read_back_witness :
  Database.get_file_manifests 1
    (Database.store_file_manifest 1 ManifestExample.manifest RoundTripExample.start).2 =
  [ManifestExample.manifest].
Proof.
  destruct (stored_manifest_is_read_back 1 ManifestExample.manifest RoundTripExample.start)
    as (Hread & _).
  - vm_compute. reflexivity.
  - split; constructor.
  - assert (∀ b, hash_well_formed (ManifestExample.hash_of b)) as Hhash.
    { intros b. split; [|apply c_str_to_hex].
      unfold ManifestExample.hash_of. rewrite to_hex_length, length_replicate. reflexivity. }
    split_and!; [reflexivity|reflexivity|apply Hhash| |].
    + repeat constructor; try apply Hhash; simpl; lia.
    + repeat constructor.
  - exact Hread.
Defined.

Lemma get_ready_jobs_hands_out_once_witness :
  let out := get_ready_jobs ReadyExample.scheduler ReadyExample.world in
  BackupJob.job_id <$> out.1 = [1] ∧
  JobScheduler.in_progress_ out.2 = {[1]} ∧
  (get_ready_jobs out.2 ReadyExample.world).1 = [].
Proof.
  destruct (get_ready_jobs_hands_out_once ReadyExample.scheduler ReadyExample.world)
    as (_ & _ & _ & _ & Hagain).
  - split; [apply acyclic_run|apply degrees_sound_run].
  - split_and!; [vm_compute; reflexivity..|exact Hagain].
Defined.
End examples.
